(** * BusTub storage and concurrency core: buffer pool, extendible hash
    index and lock manager, embedded from the C++ sources.

    Conventions of the embedding.
    - C++ integers ([page_id_t], [frame_id_t], [txn_id_t], counters) are [Z];
      the slot index of a bucket page, which only counts up from 0 in the
      loops, is a [nat].
    - Member functions become functions that take the object and return the
      result together with the updated object.
    - [std::unordered_map] is a [gmap]; [std::list] and arrays are [list].
    - A pointer into [pages_] is the frame index; a [Transaction *] is the
      address of the transaction in an explicit heap. *)

From stdpp Require Import gmap list.
From Stdlib Require Import ZArith Lia Bool.

#[local] Open Scope Z_scope.

(** Modelled from the spec: [INVALID_PAGE_ID] and [PAGE_SIZE] are declared in
    common/config.h; the page size is 4096 and the invalid id is the
    sentinel -1 that [FindPage] returns on a miss. *)
Definition INVALID_PAGE_ID : Z := -1.
Definition PAGE_SIZE : nat := 4096.

(** Modelled from the spec: [page_id_t] and [frame_id_t] are declared in
    common/config.h as [int32_t].  [to_int32] is the value a 32-bit signed
    integer holds after an addition or a conversion that wraps around, and
    [to_uint32] the value of an integer converted to [uint32_t]. *)
Definition to_int32 (x : Z) : Z := (x + 2 ^ 31) mod 2 ^ 32 - 2 ^ 31.
Definition to_uint32 (x : Z) : Z := x mod 2 ^ 32.

(* ================================================================== *)
(** ** src/buffer/lru_replacer.cpp *)
(* ================================================================== *)

Module LRU.

(** [lru_list_] is the recency list (front = oldest).  [lru_map_] maps a
    frame to the iterator of its node; only its key set matters here, the
    node designated by the iterator of [f] being the node that holds [f]. *)
Record LRUReplacer := mkLRU {
  lru_size_ : nat;
  lru_list_ : list Z;
  lru_map_ : gset Z
}.

(** [LRUReplacer::LRUReplacer(num_pages)] *)
Definition init (num_pages : nat) : LRUReplacer :=
  mkLRU num_pages [] ∅.

(** [lru_list_.erase(it)] for the iterator stored under [f]. *)
Fixpoint erase_node (f : Z) (l : list Z) : list Z :=
  match l with
  | [] => []
  | x :: r => if decide (x = f) then r else x :: erase_node f r
  end.

(** [LRUReplacer::Victim] *)
Definition Victim (r : LRUReplacer) : option Z * LRUReplacer :=
  match lru_list_ r with
  | [] => (None, r)
  | f :: rest => (Some f, mkLRU (lru_size_ r) rest (lru_map_ r ∖ {[f]}))
  end.

(** [LRUReplacer::Pin] *)
Definition Pin (f : Z) (r : LRUReplacer) : LRUReplacer :=
  if decide (f ∈ lru_map_ r)
  then mkLRU (lru_size_ r) (erase_node f (lru_list_ r)) (lru_map_ r ∖ {[f]})
  else r.

(** [LRUReplacer::Unpin], as a call with its outcome.  When the list has
    outgrown [lru_size_] the source runs [assert(Victim(&victim))] while it
    holds [latch_].  In a build with assertions [Victim] locks [latch_], a
    [std::mutex] that the same thread already holds, and the call does not
    come back: that is the outcome [None].  In a build with NDEBUG the
    argument of [assert] is not evaluated.  No frame is evicted in either
    build. *)
Definition Unpin_call (assertions : bool) (f : Z) (r : LRUReplacer)
    : option LRUReplacer :=
  if decide (f ∈ lru_map_ r) then Some r
  else
    let r1 := mkLRU (lru_size_ r) (lru_list_ r ++ [f]) (lru_map_ r ∪ {[f]}) in
    if decide (lru_size_ r1 < length (lru_list_ r1))%nat
    then if assertions then None else Some r1
    else Some r1.

(** The branch of [Unpin] in which the list has outgrown the capacity. *)
Definition Unpin_overflows (f : Z) (r : LRUReplacer) : bool :=
  bool_decide ((f ∉ lru_map_ r) ∧ (lru_size_ r < S (length (lru_list_ r)))%nat).

(** [LRUReplacer::Unpin]: the replacer a call that returns leaves behind. *)
Definition Unpin (f : Z) (r : LRUReplacer) : LRUReplacer :=
  if decide (f ∈ lru_map_ r) then r
  else mkLRU (lru_size_ r) (lru_list_ r ++ [f]) (lru_map_ r ∪ {[f]}).

(** [LRUReplacer::Size] *)
Definition Size (r : LRUReplacer) : nat := length (lru_list_ r).

(** What the two containers of a replacer have to agree on: no frame is
    listed twice, the map has a key for exactly the listed frames, and the
    list is not longer than the capacity. *)
Definition wf (r : LRUReplacer) : Prop :=
  NoDup (lru_list_ r) ∧
  (∀ x, x ∈ lru_list_ r ↔ x ∈ lru_map_ r) ∧
  (length (lru_list_ r) ≤ lru_size_ r)%nat.

(** [Unpin] called on the frames of [fs], first to last. *)
Definition unpin_all (fs : list Z) (r : LRUReplacer) : LRUReplacer :=
  foldl (λ acc f, Unpin f acc) r fs.

(** [k] calls of [Victim]: the frames returned, until one call fails. *)
Fixpoint drain (k : nat) (r : LRUReplacer) : list Z :=
  match k with
  | O => []
  | S k' =>
    match Victim r with
    | (Some f, r') => f :: drain k' r'
    | (None, _) => []
    end
  end.

End LRU.

(* ================================================================== *)
(** ** src/buffer/buffer_pool_manager_instance.cpp *)
(* ================================================================== *)

Module BPM.

(** A frame: [Page] of storage/page/page.h. *)
Record Page := mkPage {
  data_ : list Z;
  page_id_ : Z;
  pin_count_ : Z;
  is_dirty_ : bool
}.

(** [Page::ResetMemory]: the bytes are zeroed. *)
Definition zero_data : list Z := replicate PAGE_SIZE 0.

(** A default-constructed [Page]. *)
Definition empty_page : Page := mkPage zero_data INVALID_PAGE_ID 0 false.

(** Modelled from the spec: the disk manager is an external collaborator
    ([ReadPage], [WritePage]); it is kept as the log of the pages written,
    most recent first.  A page never written reads as zeroes. *)
Record DiskManager := mkDisk {
  written : list (Z * list Z)
}.

Definition WritePage (pid : Z) (d : list Z) (dm : DiskManager) : DiskManager :=
  mkDisk ((pid, d) :: written dm).

Fixpoint read_log (pid : Z) (l : list (Z * list Z)) : list Z :=
  match l with
  | [] => zero_data
  | (p, d) :: r => if decide (p = pid) then d else read_log pid r
  end.

Definition ReadPage (pid : Z) (dm : DiskManager) : list Z :=
  read_log pid (written dm).

Record BufferPoolManagerInstance := mkBPM {
  pool_size_ : nat;
  num_instances_ : Z;
  instance_index_ : Z;
  next_page_id_ : Z;
  pages_ : list Page;
  replacer_ : LRU.LRUReplacer;
  free_list_ : list Z;
  page_table_ : gmap Z Z;
  disk_manager_ : DiskManager;
  (** Modelled from the spec: [DeallocatePage] is declared in the header
      only; the ids handed to it are recorded, most recent first. *)
  deallocated_ : list Z
}.

(** [pages_[f]]: reading and updating a frame.  A frame id outside the pool
    is undefined behaviour in the source; here a read yields [empty_page]
    and an update does nothing. *)
Definition frame (s : BufferPoolManagerInstance) (f : Z) : Page :=
  default empty_page (pages_ s !! Z.to_nat f).

Definition upd_frame (f : Z) (g : Page → Page) (ps : list Page) : list Page :=
  alter g (Z.to_nat f) ps.

Definition set_pages (s : BufferPoolManagerInstance) (ps : list Page) :=
  mkBPM (pool_size_ s) (num_instances_ s) (instance_index_ s) (next_page_id_ s)
        ps (replacer_ s) (free_list_ s) (page_table_ s) (disk_manager_ s)
        (deallocated_ s).

Definition set_replacer (s : BufferPoolManagerInstance) (r : LRU.LRUReplacer) :=
  mkBPM (pool_size_ s) (num_instances_ s) (instance_index_ s) (next_page_id_ s)
        (pages_ s) r (free_list_ s) (page_table_ s) (disk_manager_ s)
        (deallocated_ s).

Definition set_free_list (s : BufferPoolManagerInstance) (l : list Z) :=
  mkBPM (pool_size_ s) (num_instances_ s) (instance_index_ s) (next_page_id_ s)
        (pages_ s) (replacer_ s) l (page_table_ s) (disk_manager_ s)
        (deallocated_ s).

Definition set_page_table (s : BufferPoolManagerInstance) (t : gmap Z Z) :=
  mkBPM (pool_size_ s) (num_instances_ s) (instance_index_ s) (next_page_id_ s)
        (pages_ s) (replacer_ s) (free_list_ s) t (disk_manager_ s)
        (deallocated_ s).

Definition set_disk (s : BufferPoolManagerInstance) (d : DiskManager) :=
  mkBPM (pool_size_ s) (num_instances_ s) (instance_index_ s) (next_page_id_ s)
        (pages_ s) (replacer_ s) (free_list_ s) (page_table_ s) d
        (deallocated_ s).

(** The five-argument constructor.  [num_instances] and [instance_index]
    are [uint32_t]; [next_page_id_] is a [page_id_t] initialised from the
    index, and the frame ids of the free list are [static_cast<int>(i)]. *)
Definition init (pool_size : nat) (num_instances instance_index : Z)
    (dm : DiskManager) : BufferPoolManagerInstance :=
  mkBPM pool_size num_instances instance_index (to_int32 instance_index)
        (replicate pool_size empty_page) (LRU.init pool_size)
        ((λ i, to_int32 (Z.of_nat i)) <$> seq 0 pool_size) ∅ dm [].

(** [FindPage] *)
Definition FindPage (s : BufferPoolManagerInstance) (pid : Z) : Z :=
  match page_table_ s !! pid with
  | None => INVALID_PAGE_ID
  | Some f => f
  end.

(** [FlushPageReally]: writes only a dirty resident page and leaves the
    dirty flag as it is. *)
Definition FlushPageReally (pid : Z) (s : BufferPoolManagerInstance)
    : BufferPoolManagerInstance :=
  let target_frame := FindPage s pid in
  if decide (target_frame = INVALID_PAGE_ID) then s
  else if is_dirty_ (frame s target_frame)
       then set_disk s (WritePage pid (data_ (frame s target_frame)) (disk_manager_ s))
       else s.

(** [ValidatePageId]: the condition it asserts.  The page id is converted
    to [uint32_t] for the remainder by [num_instances_]. *)
Definition ValidatePageId (s : BufferPoolManagerInstance) (page_id : Z) : bool :=
  bool_decide (to_uint32 page_id mod num_instances_ s = instance_index_ s).

(** [AllocatePage]: [next_page_id_ += num_instances_] on a 32-bit
    [page_id_t] wraps around.  [ValidatePageId] only asserts: the function
    is the call that returns, which is every call of a build with NDEBUG
    and, with assertions, every call on an id that [ValidatePageId]
    accepts. *)
Definition AllocatePage (s : BufferPoolManagerInstance)
    : Z * BufferPoolManagerInstance :=
  (next_page_id_ s,
   mkBPM (pool_size_ s) (num_instances_ s) (instance_index_ s)
         (to_int32 (next_page_id_ s + num_instances_ s))
         (pages_ s) (replacer_ s) (free_list_ s) (page_table_ s)
         (disk_manager_ s) (deallocated_ s)).

(** [DeallocatePage] *)
Definition DeallocatePage (pid : Z) (s : BufferPoolManagerInstance) :=
  mkBPM (pool_size_ s) (num_instances_ s) (instance_index_ s) (next_page_id_ s)
        (pages_ s) (replacer_ s) (free_list_ s) (page_table_ s)
        (disk_manager_ s) (pid :: deallocated_ s).

(** [FindFreshPage]: the free list first, then a victim of the replacer,
    which is written back when dirty and dropped from the page table. *)
Definition FindFreshPage (s : BufferPoolManagerInstance)
    : Z * BufferPoolManagerInstance :=
  match free_list_ s with
  | frame_id :: rest => (frame_id, set_free_list s rest)
  | [] =>
    match LRU.Victim (replacer_ s) with
    | (Some frame_id, r) =>
      let s1 := set_replacer s r in
      let page_id := page_id_ (frame s1 frame_id) in
      let s2 := FlushPageReally page_id s1 in
      let s3 := set_page_table s2 (delete page_id (page_table_ s2)) in
      let s4 := set_pages s3
                  (upd_frame frame_id
                     (λ p, mkPage (data_ p) (page_id_ p) (pin_count_ p) false)
                     (pages_ s3)) in
      (frame_id, s4)
    | (None, _) => (INVALID_PAGE_ID, s)
    end
  end.

(** [FlushPgImp] *)
Definition FlushPgImp (page_id : Z) (s : BufferPoolManagerInstance)
    : bool * BufferPoolManagerInstance :=
  let target_frame := FindPage s page_id in
  if decide (target_frame = INVALID_PAGE_ID) then (false, s)
  else
    let s1 := FlushPageReally page_id s in
    (true,
     set_pages s1
       (upd_frame target_frame
          (λ p, mkPage (data_ p) (page_id_ p) (pin_count_ p) false)
          (pages_ s1))).

(** [FlushAllPgsImp]: one [FlushPgImp] per entry of the page table. *)
Definition FlushAllPgsImp (s : BufferPoolManagerInstance)
    : BufferPoolManagerInstance :=
  foldr (λ item acc, snd (FlushPgImp item.1 acc)) s (map_to_list (page_table_ s)).

(** [NewPgImp]: [None] is the [nullptr] result; otherwise the new page id
    and the frame the returned pointer designates. *)
Definition NewPgImp (s : BufferPoolManagerInstance)
    : option (Z * Z) * BufferPoolManagerInstance :=
  let '(fresh_frame, s1) := FindFreshPage s in
  if decide (fresh_frame = INVALID_PAGE_ID) then (None, s1)
  else
    let '(new_page, s2) := AllocatePage s1 in
    let s3 := set_pages s2
                (upd_frame fresh_frame
                   (λ p, mkPage zero_data new_page (pin_count_ p + 1) false)
                   (pages_ s2)) in
    let s4 := set_page_table s3 (<[new_page := fresh_frame]> (page_table_ s3)) in
    (Some (new_page, fresh_frame), s4).

(** [FetchPgImp]: the result is the frame of the returned pointer. *)
Definition FetchPgImp (page_id : Z) (s : BufferPoolManagerInstance)
    : option Z * BufferPoolManagerInstance :=
  let available_frame := FindPage s page_id in
  if decide (available_frame ≠ INVALID_PAGE_ID) then
    (* hit, use it *)
    let s1 := set_replacer s (LRU.Pin available_frame (replacer_ s)) in
    let s2 := set_pages s1
                (upd_frame available_frame
                   (λ p, mkPage (data_ p) (page_id_ p) (pin_count_ p + 1) true)
                   (pages_ s1)) in
    (Some available_frame, s2)
  else
    (* miss, alloc one *)
    let '(available_frame, s1) := FindFreshPage s in
    if decide (available_frame = INVALID_PAGE_ID) then (None, s1)
    else
      let s2 := set_page_table s1 (<[page_id := available_frame]> (page_table_ s1)) in
      let s3 := set_replacer s2 (LRU.Pin available_frame (replacer_ s2)) in
      let s4 := set_pages s3
                  (upd_frame available_frame
                     (λ p, mkPage (ReadPage page_id (disk_manager_ s3)) page_id
                                  (pin_count_ p + 1) false)
                     (pages_ s3)) in
      (Some available_frame, s4).

(** [DeletePgImp] *)
Definition DeletePgImp (page_id : Z) (s : BufferPoolManagerInstance)
    : bool * BufferPoolManagerInstance :=
  let s1 := DeallocatePage page_id s in
  let target_frame := FindPage s1 page_id in
  if decide (target_frame = INVALID_PAGE_ID) then (true, s1)
  else if decide (0 < pin_count_ (frame s1 target_frame)) then (false, s1)
  else
    let s2 := set_page_table s1 (delete page_id (page_table_ s1)) in
    let s3 := set_pages s2
                (upd_frame target_frame
                   (λ p, mkPage zero_data INVALID_PAGE_ID (pin_count_ p) false)
                   (pages_ s2)) in
    (true, set_free_list s3 (free_list_ s3 ++ [target_frame])).

(** [UnpinPgImp].  The replacer is the one [LRUReplacer::Unpin] leaves
    behind when it returns; [LRU.Unpin_call] tells when it does. *)
Definition UnpinPgImp (page_id : Z) (is_dirty : bool)
    (s : BufferPoolManagerInstance) : bool * BufferPoolManagerInstance :=
  let target_frame := FindPage s page_id in
  if decide (target_frame = INVALID_PAGE_ID ∨ pin_count_ (frame s target_frame) = 0)
  then (false, s)
  else
    let s1 := if is_dirty
              then set_pages s
                     (upd_frame target_frame
                        (λ p, mkPage (data_ p) (page_id_ p) (pin_count_ p) is_dirty)
                        (pages_ s))
              else s in
    let s2 := set_pages s1
                (upd_frame target_frame
                   (λ p, mkPage (data_ p) (page_id_ p) (pin_count_ p - 1) (is_dirty_ p))
                   (pages_ s1)) in
    if decide (pin_count_ (frame s2 target_frame) = 0) then
      let s3 := set_replacer s2 (LRU.Unpin target_frame (replacer_ s2)) in
      (true, FlushPageReally page_id s3)
    else (true, s2).

(** The bookkeeping of the pool: every entry of the page table names a
    frame of the pool that holds that page; the free list has no frame
    twice and none that the page table names; the replacer only tracks
    frames of the pool. *)
Definition in_pool (s : BufferPoolManagerInstance) (f : Z) : Prop :=
  0 ≤ f ∧ (Z.to_nat f < length (pages_ s))%nat.

Definition consistent (s : BufferPoolManagerInstance) : Prop :=
  (∀ p f, page_table_ s !! p = Some f → in_pool s f ∧ page_id_ (frame s f) = p) ∧
  NoDup (free_list_ s) ∧
  (∀ f, f ∈ free_list_ s → in_pool s f ∧ ∀ p, page_table_ s !! p ≠ Some f) ∧
  (∀ f, f ∈ LRU.lru_list_ (replacer_ s) → in_pool s f).

(** The replacer of the pool: its two containers agree, and its capacity
    is the number of frames, as the constructor sets it. *)
Definition replacer_fits (s : BufferPoolManagerInstance) : Prop :=
  LRU.wf (replacer_ s) ∧ LRU.lru_size_ (replacer_ s) = length (pages_ s).

(** No frame of the free list is dirty. *)
Definition free_frames_clean (s : BufferPoolManagerInstance) : Prop :=
  ∀ f, f ∈ free_list_ s → is_dirty_ (frame s f) = false.

Definition pool_invariant (s : BufferPoolManagerInstance) : Prop :=
  consistent s ∧ replacer_fits s ∧ free_frames_clean s.

(** The public operations of the pool as calls, each one the [...PgImp]
    function of the same name under the latch; [call] is the state a call
    leaves behind, whatever it returned, and [calls] runs a sequence of
    calls, first to last. *)
Inductive Call :=
  | NewPage
  | FetchPage (page_id : Z)
  | UnpinPage (page_id : Z) (is_dirty : bool)
  | FlushPage (page_id : Z)
  | FlushAllPages
  | DeletePage (page_id : Z).

Definition call (c : Call) (s : BufferPoolManagerInstance)
    : BufferPoolManagerInstance :=
  match c with
  | NewPage => (NewPgImp s).2
  | FetchPage page_id => (FetchPgImp page_id s).2
  | UnpinPage page_id is_dirty => (UnpinPgImp page_id is_dirty s).2
  | FlushPage page_id => (FlushPgImp page_id s).2
  | FlushAllPages => FlushAllPgsImp s
  | DeletePage page_id => (DeletePgImp page_id s).2
  end.

Definition calls (cs : list Call) (s : BufferPoolManagerInstance)
    : BufferPoolManagerInstance :=
  foldl (λ acc c, call c acc) s cs.

(** [FindFreshPage] takes frame [f] from the replacer: the free list is
    empty and [f] is the victim. *)
Definition evicts (s : BufferPoolManagerInstance) (f : Z) : Prop :=
  free_list_ s = [] ∧ (LRU.Victim (replacer_ s)).1 = Some f.

(** The calls that clear the dirty flag of frame [f] in the words of the
    specification: a flush of the page the frame holds ([FlushAllPages] is
    one [FlushPage] per resident page), and the eviction of the frame as a
    victim, by [NewPage] or by a [FetchPage] that misses. *)
Definition flushes_or_evicts (c : Call) (s : BufferPoolManagerInstance)
    (f : Z) : Prop :=
  match c with
  | FlushPage page_id => page_table_ s !! page_id = Some f
  | FlushAllPages => ∃ page_id, page_table_ s !! page_id = Some f
  | NewPage => evicts s f
  | FetchPage page_id => FindPage s page_id = INVALID_PAGE_ID ∧ evicts s f
  | UnpinPage _ _ | DeletePage _ => False
  end.

(** [DeletePage] of the resident page of frame [f], with no pin left: the
    call resets the frame. *)
Definition deletes (c : Call) (s : BufferPoolManagerInstance) (f : Z) : Prop :=
  match c with
  | DeletePage page_id =>
    page_table_ s !! page_id = Some f ∧ pin_count_ (frame s f) ≤ 0
  | _ => False
  end.

(** [s2] has the pages of [s] with frame [f] rewritten by [g]. *)
Definition pages_updated (s s2 : BufferPoolManagerInstance) (f : Z)
    (g : Page → Page) : Prop :=
  pages_ s2 = upd_frame f g (pages_ s).

(** Two concrete pools used below: a fresh pool of three frames (instance 0
    of 1) after [NewPage] has returned page 0, still pinned once; and the
    same pool after [UnpinPage(0, false)], where page 0 is resident, clean
    and unpinned. *)
Definition pool_one_pinned : BufferPoolManagerInstance :=
  (NewPgImp (init 3 1 0 (mkDisk []))).2.

Definition pool_clean_resident : BufferPoolManagerInstance :=
  (UnpinPgImp 0 false pool_one_pinned).2.

(** A fresh pool of three frames after [NewPage], [NewPage] and
    [UnpinPage(0, true)]: page 1 is resident and pinned, the replacer
    tracks the frame of page 0. *)
Definition pool_after_three_calls : BufferPoolManagerInstance :=
  calls [NewPage; NewPage; UnpinPage 0 true] (init 3 1 0 (mkDisk [])).

(** The same pool after [UnpinPage(0, true)] instead: page 0 is resident,
    dirty and unpinned. *)
Definition pool_dirty_unpinned : BufferPoolManagerInstance :=
  (UnpinPgImp 0 true pool_one_pinned).2.

(** [n] calls of [NewPgImp] in a row: the page ids of the calls that
    returned a page, first to last, and the state afterwards. *)
Fixpoint new_pages (n : nat) (s : BufferPoolManagerInstance)
    : list Z * BufferPoolManagerInstance :=
  match n with
  | O => ([], s)
  | S n' =>
    match NewPgImp s with
    | (Some (page_id, _), s') =>
      (page_id :: (new_pages n' s').1, (new_pages n' s').2)
    | (None, s') => new_pages n' s'
    end
  end.

(** A pool of a single frame whose page 0 is resident and unpinned: the
    free list is empty and the replacer tracks frame 0. *)
Definition pool_single_unpinned : BufferPoolManagerInstance :=
  (UnpinPgImp 0 false (NewPgImp (init 1 1 0 (mkDisk []))).2).2.

(** A pool of two frames, both handed out and unpinned again with their
    pages marked dirty: pages 0 and 1 are resident and dirty, the free list
    is empty and the replacer tracks frame 0, then frame 1. *)
Definition pool_two_dirty : BufferPoolManagerInstance :=
  let s1 := (NewPgImp (init 2 1 0 (mkDisk []))).2 in
  let s2 := (NewPgImp s1).2 in
  let s3 := set_pages s2
              (upd_frame 0 (λ p, mkPage (replicate PAGE_SIZE 7) (page_id_ p)
                                        (pin_count_ p) (is_dirty_ p))
                 (pages_ s2)) in
  (UnpinPgImp 1 true (UnpinPgImp 0 true s3).2).2.

End BPM.

(* ================================================================== *)
(** ** src/storage/page/hash_table_bucket_page.cpp *)
(* ================================================================== *)

(** The instantiation [HashTableBucketPage<int, int, IntComparator>]: keys
    and values are integers and [cmp(a, b) == 0] is equality. *)
Module Bucket.

(** A [char] holds the low eight bits of what is stored in it. *)
Definition to_char (x : Z) : Z := x mod 256.

(** [bm[idx / 8] >> (idx % 8) & 1]; a read past the end of the array is
    undefined in the source and yields 0 here. *)
Definition get_bit (bm : list Z) (idx : nat) : bool :=
  negb (Z.land (Z.shiftr (default 0 (bm !! (idx / 8)%nat)) (Z.of_nat (idx mod 8))) 1 =? 0).

(** [bm[idx / 8] |= 1 << idx % 8] *)
Definition set_bit (bm : list Z) (idx : nat) : list Z :=
  alter (λ b, to_char (Z.lor b (Z.shiftl 1 (Z.of_nat (idx mod 8)))))
        (idx / 8)%nat bm.

(** [bm[idx / 8] &= ~(1 << idx % 8)] *)
Definition clear_bit (bm : list Z) (idx : nat) : list Z :=
  alter (λ b, to_char (Z.land b (Z.lnot (Z.shiftl 1 (Z.of_nat (idx mod 8))))))
        (idx / 8)%nat bm.

Record HashTableBucketPage := mkBucket {
  occupied_ : list Z;
  readable_ : list Z;
  array_ : list (Z * Z)
}.

Section WithSize.

(** [BUCKET_ARRAY_SIZE] is a macro of the header (it depends on the size of
    a key-value pair); it is a parameter here. *)
Variable BUCKET_ARRAY_SIZE : nat.

(** A page just returned by [NewPage]: all bytes are zero. *)
Definition empty_bucket : HashTableBucketPage :=
  mkBucket (replicate ((BUCKET_ARRAY_SIZE - 1) / 8 + 1) 0)
           (replicate ((BUCKET_ARRAY_SIZE - 1) / 8 + 1) 0)
           (replicate BUCKET_ARRAY_SIZE (0, 0)).

Definition IsOccupied (b : HashTableBucketPage) (bucket_idx : nat) : bool :=
  if (BUCKET_ARRAY_SIZE <=? bucket_idx)%nat then false
  else get_bit (occupied_ b) bucket_idx.

Definition SetOccupied (b : HashTableBucketPage) (bucket_idx : nat) :=
  if (BUCKET_ARRAY_SIZE <=? bucket_idx)%nat then b
  else mkBucket (set_bit (occupied_ b) bucket_idx) (readable_ b) (array_ b).

Definition IsReadable (b : HashTableBucketPage) (bucket_idx : nat) : bool :=
  if (BUCKET_ARRAY_SIZE <=? bucket_idx)%nat then false
  else if negb (IsOccupied b bucket_idx) then false
  else get_bit (readable_ b) bucket_idx.

Definition SetReadable (b : HashTableBucketPage) (bucket_idx : nat) :=
  if (BUCKET_ARRAY_SIZE <=? bucket_idx)%nat then b
  else if negb (IsOccupied b bucket_idx) then b
  else mkBucket (occupied_ b) (set_bit (readable_ b) bucket_idx) (array_ b).

Definition UnsetReadable (b : HashTableBucketPage) (bucket_idx : nat) :=
  if (BUCKET_ARRAY_SIZE <=? bucket_idx)%nat then b
  else mkBucket (occupied_ b) (clear_bit (readable_ b) bucket_idx) (array_ b).

(** [KeyAt] and [ValueAt]: a value-initialised key or value ([{}], here 0)
    for a slot that is not readable. *)
Definition KeyAt (b : HashTableBucketPage) (bucket_idx : nat) : Z :=
  if negb (IsReadable b bucket_idx) then 0
  else (default (0, 0) (array_ b !! bucket_idx)).1.

Definition ValueAt (b : HashTableBucketPage) (bucket_idx : nat) : Z :=
  if negb (IsReadable b bucket_idx) then 0
  else (default (0, 0) (array_ b !! bucket_idx)).2.

Definition RemoveAt (b : HashTableBucketPage) (bucket_idx : nat) :=
  if negb (IsReadable b bucket_idx) then b
  else UnsetReadable b bucket_idx.

(** The loops [for (i = 0; i < BUCKET_ARRAY_SIZE && IsOccupied(i); ++i)]
    are written by recursion on the number [n] of slots not yet visited,
    with [i = BUCKET_ARRAY_SIZE - n]. *)
Fixpoint GetValue_loop (n i : nat) (b : HashTableBucketPage) (key : Z)
    (result : list Z) : list Z :=
  match n with
  | O => result
  | S n' =>
    if IsOccupied b i then
      GetValue_loop n' (S i) b key
        (if IsReadable b i && (KeyAt b i =? key)
         then result ++ [ValueAt b i] else result)
    else result
  end.

(** [GetValue]: appends to [result] and tells whether it is non-empty. *)
Definition GetValue (b : HashTableBucketPage) (key : Z) (result : list Z)
    : bool * list Z :=
  let r := GetValue_loop BUCKET_ARRAY_SIZE 0 b key result in
  (match r with [] => false | _ => true end, r).

(** The empty-bodied loop of [Insert]: the first slot that is not
    occupied, or [BUCKET_ARRAY_SIZE]. *)
Fixpoint first_unoccupied (n i : nat) (b : HashTableBucketPage) : nat :=
  match n with
  | O => i
  | S n' => if IsOccupied b i then first_unoccupied n' (S i) b else i
  end.

Definition Insert (b : HashTableBucketPage) (key value : Z)
    : bool * HashTableBucketPage :=
  let found := (GetValue b key []).2 in
  if existsb (λ v, value =? v) found then (false, b)   (* false if duplicate *)
  else
    let i := first_unoccupied BUCKET_ARRAY_SIZE 0 b in
    if (i =? BUCKET_ARRAY_SIZE)%nat then (false, b)      (* false if full *)
    else
      let b1 := mkBucket (occupied_ b) (readable_ b) (<[i := (key, value)]> (array_ b)) in
      (true, SetReadable (SetOccupied b1 i) i).

Fixpoint Remove_loop (n i : nat) (b : HashTableBucketPage) (key value : Z)
    : bool * HashTableBucketPage :=
  match n with
  | O => (false, b)
  | S n' =>
    if IsOccupied b i then
      if IsReadable b i && (KeyAt b i =? key) && (ValueAt b i =? value)
      then (true, UnsetReadable b i)
      else Remove_loop n' (S i) b key value
    else (false, b)
  end.

Definition Remove (b : HashTableBucketPage) (key value : Z)
    : bool * HashTableBucketPage :=
  Remove_loop BUCKET_ARRAY_SIZE 0 b key value.

Fixpoint NumReadable_loop (n i : nat) (b : HashTableBucketPage) (cnt : nat) : nat :=
  match n with
  | O => cnt
  | S n' =>
    if IsOccupied b i
    then NumReadable_loop n' (S i) b (if IsReadable b i then S cnt else cnt)
    else cnt
  end.

Definition NumReadable (b : HashTableBucketPage) : nat :=
  NumReadable_loop BUCKET_ARRAY_SIZE 0 b 0.

Definition IsFull (b : HashTableBucketPage) : bool :=
  (NumReadable b =? BUCKET_ARRAY_SIZE)%nat.

Definition IsEmpty (b : HashTableBucketPage) : bool :=
  (NumReadable b =? 0)%nat.

(** The pair [(key, value)] is live in the bucket. *)
Definition holds (b : HashTableBucketPage) (key value : Z) : Prop :=
  ∃ j, IsReadable b j = true ∧ KeyAt b j = key ∧ ValueAt b j = value.

(** A bucket that only ever saw [Insert]: the arrays have their declared
    sizes, the first [m] slots are live and no later slot is occupied. *)
Definition packed (b : HashTableBucketPage) (m : nat) : Prop :=
  (m ≤ BUCKET_ARRAY_SIZE)%nat ∧
  length (array_ b) = BUCKET_ARRAY_SIZE ∧
  length (occupied_ b) = ((BUCKET_ARRAY_SIZE - 1) / 8 + 1)%nat ∧
  length (readable_ b) = ((BUCKET_ARRAY_SIZE - 1) / 8 + 1)%nat ∧
  (∀ j, (j < m)%nat → IsReadable b j = true) ∧
  (∀ j, (m ≤ j)%nat → IsOccupied b j = false).

(** A packed bucket whose slot [j] holds the pair [(j, j)], for every
    [j < m]. *)
Definition range_filled (b : HashTableBucketPage) (m : nat) : Prop :=
  packed b m ∧
  ∀ j, (j < m)%nat → KeyAt b j = Z.of_nat j ∧ ValueAt b j = Z.of_nat j.

(** The slots that hold a live pair, in increasing order. *)
Definition live_slots (b : HashTableBucketPage) : list nat :=
  filter (λ j, IsReadable b j = true) (seq 0 BUCKET_ARRAY_SIZE).

(** The arrays of the page have their declared sizes. *)
Definition sized (b : HashTableBucketPage) : Prop :=
  length (array_ b) = BUCKET_ARRAY_SIZE ∧
  length (occupied_ b) = ((BUCKET_ARRAY_SIZE - 1) / 8 + 1)%nat ∧
  length (readable_ b) = ((BUCKET_ARRAY_SIZE - 1) / 8 + 1)%nat.

(** A bucket as [Insert] and [Remove] leave it: the occupied slots are the
    first [m] ones (live or tombstones), and no pair is live in two slots. *)
Definition well_formed (b : HashTableBucketPage) (m : nat) : Prop :=
  (m ≤ BUCKET_ARRAY_SIZE)%nat ∧
  sized b ∧
  (∀ j, (j < m)%nat → IsOccupied b j = true) ∧
  (∀ j, (m ≤ j)%nat → IsOccupied b j = false) ∧
  (∀ i j, IsReadable b i = true → IsReadable b j = true →
          KeyAt b i = KeyAt b j → ValueAt b i = ValueAt b j → i = j).

End WithSize.

End Bucket.

(* ================================================================== *)
(** ** storage/page/hash_table_directory_page (not among the sources) *)
(* ================================================================== *)

Module Directory.

(** Modelled from the spec: the directory page stores
    [(page_id, global_depth, bucket_page_ids[512], local_depths[512])]. *)
Definition DIRECTORY_ARRAY_SIZE : nat := 512.

(** Modelled from the spec: the layout of [HashTableDirectoryPage]. *)
Record HashTableDirectoryPage := mkDir {
  page_id_ : Z;
  global_depth_ : Z;
  local_depths_ : list Z;
  bucket_page_ids_ : list Z
}.

(** Modelled from the spec: a directory page as [NewPage] returns it, all
    bytes zero. *)
Definition empty_directory : HashTableDirectoryPage :=
  mkDir 0 0 (replicate DIRECTORY_ARRAY_SIZE 0) (replicate DIRECTORY_ARRAY_SIZE 0).

(** Modelled from the spec: the accessors of the directory fields. *)
Definition SetPageId (d : HashTableDirectoryPage) (pid : Z) :=
  mkDir pid (global_depth_ d) (local_depths_ d) (bucket_page_ids_ d).

Definition GetGlobalDepth (d : HashTableDirectoryPage) : Z := global_depth_ d.

Definition IncrGlobalDepth (d : HashTableDirectoryPage) :=
  mkDir (page_id_ d) (global_depth_ d + 1) (local_depths_ d) (bucket_page_ids_ d).

Definition GetBucketPageId (d : HashTableDirectoryPage) (bucket_idx : Z) : Z :=
  default 0 (bucket_page_ids_ d !! Z.to_nat bucket_idx).

Definition SetBucketPageId (d : HashTableDirectoryPage) (bucket_idx pid : Z) :=
  mkDir (page_id_ d) (global_depth_ d) (local_depths_ d)
        (<[Z.to_nat bucket_idx := pid]> (bucket_page_ids_ d)).

Definition GetLocalDepth (d : HashTableDirectoryPage) (bucket_idx : Z) : Z :=
  default 0 (local_depths_ d !! Z.to_nat bucket_idx).

Definition SetLocalDepth (d : HashTableDirectoryPage) (bucket_idx depth : Z) :=
  mkDir (page_id_ d) (global_depth_ d)
        (<[Z.to_nat bucket_idx := depth]> (local_depths_ d)) (bucket_page_ids_ d).

Definition DecrLocalDepth (d : HashTableDirectoryPage) (bucket_idx : Z) :=
  SetLocalDepth d bucket_idx (GetLocalDepth d bucket_idx - 1).

(** Modelled from the spec: [GlobalDepthMask = (1 << global_depth) - 1]. *)
Definition GetGlobalDepthMask (d : HashTableDirectoryPage) : Z :=
  Z.shiftl 1 (global_depth_ d) - 1.

(** Modelled from the spec: [LocalDepthMask(i) = (1 << local_depth(i)) - 1]. *)
Definition GetLocalDepthMask (d : HashTableDirectoryPage) (bucket_idx : Z) : Z :=
  Z.shiftl 1 (GetLocalDepth d bucket_idx) - 1.

(** Modelled from the spec:
    [SplitImageIndex(i) = i XOR (1 << (local_depth(i) - 1))]. *)
Definition GetSplitImageIndex (d : HashTableDirectoryPage) (bucket_idx : Z) : Z :=
  Z.lxor bucket_idx (Z.shiftl 1 (GetLocalDepth d bucket_idx - 1)).

(** Modelled from the spec: the high bits of a slot are the slot index under
    its local-depth mask (the right-hand side [image_i & LocalDepthMask] of
    the migration test). *)
Definition GetLocalHighBits (d : HashTableDirectoryPage) (bucket_idx : Z) : Z :=
  Z.land bucket_idx (GetLocalDepthMask d bucket_idx).

(** Modelled from the spec: the directory has [2^global_depth] slots. *)
Definition Size (d : HashTableDirectoryPage) : Z := Z.shiftl 1 (global_depth_ d).

(** Modelled from the spec: [Grow] adds one to the global depth and copies
    slot [j - 2^(global_depth-1)] to slot [j], bucket page id and local
    depth, for every [j] of the new upper half. *)
Definition Grow (d : HashTableDirectoryPage) : HashTableDirectoryPage :=
  let half := Z.to_nat (Size d) in
  foldl (λ acc j,
           SetLocalDepth
             (SetBucketPageId acc (Z.of_nat (half + j))
                (GetBucketPageId acc (Z.of_nat j)))
             (Z.of_nat (half + j)) (GetLocalDepth acc (Z.of_nat j)))
        (IncrGlobalDepth d) (seq 0 half).

(** Modelled from the spec: [CanShrink] holds iff every slot has a local
    depth below the global depth. *)
Definition CanShrink (d : HashTableDirectoryPage) : bool :=
  forallb (λ i, GetLocalDepth d (Z.of_nat i) <? global_depth_ d)
          (seq 0 (Z.to_nat (Size d))).

(** Modelled from the spec: [Shrink] takes one off the global depth. *)
Definition Shrink (d : HashTableDirectoryPage) :=
  mkDir (page_id_ d) (global_depth_ d - 1) (local_depths_ d) (bucket_page_ids_ d).

End Directory.

(* ================================================================== *)
(** ** src/container/hash/extendible_hash_table.cpp *)
(* ================================================================== *)

(** The index is run over a buffer pool that always has a free frame: a
    page keeps the content last written through its view, [NewPage]
    returns the next page id with a zeroed page, and pin counts and dirty
    flags are not tracked.  A call that fetches a page id under which no
    bucket page was ever created is outside the model ([None]), as is a
    [SplitInsert] that has not finished when [fuel] rounds of its loop have
    run. *)
Module ExtHash.
Import Bucket Directory.

Record ExtendibleHashTable := mkHT {
  directory_page_id_ : Z;
  dir_ : HashTableDirectoryPage;
  buckets_ : gmap Z HashTableBucketPage;
  next_page_id_ : Z
}.

Definition set_dir (t : ExtendibleHashTable) (d : HashTableDirectoryPage) :=
  mkHT (directory_page_id_ t) d (buckets_ t) (next_page_id_ t).

Definition set_bucket (t : ExtendibleHashTable) (pid : Z) (b : HashTableBucketPage) :=
  mkHT (directory_page_id_ t) (dir_ t) (<[pid := b]> (buckets_ t)) (next_page_id_ t).

Section Table.

Variable BUCKET_ARRAY_SIZE : nat.

(** [hash_fn_.GetHash], a 64-bit hash of the key. *)
Variable GetHash : Z → Z.

(** [NewBucketPage]: the id of the new page and the table holding it. *)
Definition NewBucketPage (t : ExtendibleHashTable) : Z * ExtendibleHashTable :=
  (next_page_id_ t,
   mkHT (directory_page_id_ t) (dir_ t)
        (<[next_page_id_ t := empty_bucket BUCKET_ARRAY_SIZE]> (buckets_ t))
        (next_page_id_ t + 1)).

(** The constructor, on a pool whose next page id is [first_page_id]. *)
Definition ExtendibleHashTable_new (first_page_id : Z) : ExtendibleHashTable :=
  (* new dir page *)
  let directory_page_id := first_page_id in
  let t0 := mkHT directory_page_id (SetPageId empty_directory directory_page_id)
                 ∅ (first_page_id + 1) in
  let '(bucket0_page_id, t1) := NewBucketPage t0 in
  let d1 := SetLocalDepth (SetBucketPageId (dir_ t1) 0 bucket0_page_id) 0 1 in
  let '(bucket1_page_id, t2) := NewBucketPage (set_dir t1 d1) in
  let d2 := SetLocalDepth (SetBucketPageId (dir_ t2) 1 bucket0_page_id) 1 1 in
  set_dir t2 (IncrGlobalDepth d2).

(** [Hash]: the 64-bit hash downcast to 32 bits. *)
Definition Hash (key : Z) : Z := GetHash key mod 2 ^ 32.

Definition KeyToDirectoryIndex (key : Z) (d : HashTableDirectoryPage) : Z :=
  Z.land (GetGlobalDepthMask d) (Hash key).

Definition KeyToPageId (key : Z) (d : HashTableDirectoryPage) : Z :=
  GetBucketPageId d (KeyToDirectoryIndex key d).

Definition FetchBucketPage (t : ExtendibleHashTable) (pid : Z)
    : option HashTableBucketPage :=
  buckets_ t !! pid.

(** [GetValue] *)
Definition GetValue (t : ExtendibleHashTable) (key : Z) (result : list Z)
    : option (bool * list Z) :=
  let bucket_page_id := KeyToPageId key (dir_ t) in
  bucket ← FetchBucketPage t bucket_page_id;
  Some (Bucket.GetValue BUCKET_ARRAY_SIZE bucket key result).

(** The migration loop of [SplitInsert],
    [for (i = 0; i < size && bucket->IsReadable(i); ++i)], by recursion on
    [n = size - i].  Besides the two buckets and [bucket_overflow_count] it
    returns the value of [i] at which the loop stopped. *)
Fixpoint migrate (n i : nat) (local_mask high_bits : Z)
    (bucket image_bucket : HashTableBucketPage) (bucket_overflow_count : Z)
    : HashTableBucketPage * HashTableBucketPage * Z * nat :=
  match n with
  | O => (bucket, image_bucket, bucket_overflow_count, i)
  | S n' =>
    if IsReadable BUCKET_ARRAY_SIZE bucket i then
      if Z.land (Hash (KeyAt BUCKET_ARRAY_SIZE bucket i)) local_mask =? high_bits then
        migrate n' (S i) local_mask high_bits
          (RemoveAt BUCKET_ARRAY_SIZE bucket i)
          (Bucket.Insert BUCKET_ARRAY_SIZE image_bucket
             (KeyAt BUCKET_ARRAY_SIZE bucket i)
             (ValueAt BUCKET_ARRAY_SIZE bucket i)).2
          (bucket_overflow_count + 1)
      else migrate n' (S i) local_mask high_bits bucket image_bucket
                   bucket_overflow_count
    else (bucket, image_bucket, bucket_overflow_count, i)
  end.

(** The migration pass in the words of the specification: every slot
    [j] of [[0, B)] is visited, and a live slot whose masked hash equals
    the high bits is moved to the image bucket and cleared; an unreadable
    slot is skipped and does not end the scan. *)
Fixpoint migrate_every_slot (n j : nat) (local_mask high_bits : Z)
    (bucket image_bucket : HashTableBucketPage)
    : HashTableBucketPage * HashTableBucketPage :=
  match n with
  | O => (bucket, image_bucket)
  | S n' =>
    if IsReadable BUCKET_ARRAY_SIZE bucket j &&
       (Z.land (Hash (KeyAt BUCKET_ARRAY_SIZE bucket j)) local_mask =? high_bits)
    then migrate_every_slot n' (S j) local_mask high_bits
           (UnsetReadable BUCKET_ARRAY_SIZE bucket j)
           (Bucket.Insert BUCKET_ARRAY_SIZE image_bucket
              (KeyAt BUCKET_ARRAY_SIZE bucket j)
              (ValueAt BUCKET_ARRAY_SIZE bucket j)).2
    else migrate_every_slot n' (S j) local_mask high_bits bucket image_bucket
  end.

(** The [while (!inserted)] loop of [SplitInsert]. *)
Fixpoint SplitInsert_loop (fuel : nat) (t : ExtendibleHashTable) (key value : Z)
    : option (bool * ExtendibleHashTable) :=
  match fuel with
  | O => None
  | S fuel' =>
    let dir := dir_ t in
    let bucket_idx := KeyToDirectoryIndex key dir in
    let bucket_page_id := GetBucketPageId dir bucket_idx in
    bucket ← FetchBucketPage t bucket_page_id;
    if negb (IsFull BUCKET_ARRAY_SIZE bucket) then
      let '(success, bucket1) := Bucket.Insert BUCKET_ARRAY_SIZE bucket key value in
      Some (success, set_bucket t bucket_page_id bucket1)
    else
      (* First, check if needing to grow the directory. *)
      let dir1 := if decide (GetGlobalDepth dir ≤ GetLocalDepth dir bucket_idx)
                  then Grow dir else dir in
      (* Second, initialize the image bucket. *)
      let image_bucket_idx := GetSplitImageIndex dir1 bucket_idx in
      let '(image_bucket_page_id, t1) := NewBucketPage t in
      let dir2 := SetBucketPageId dir1 image_bucket_idx image_bucket_page_id in
      let dir3 := SetLocalDepth dir2 image_bucket_idx (GetLocalDepth dir2 bucket_idx) in
      (* Third, migrate keys *)
      let local_mask := GetLocalDepthMask dir3 bucket_idx in
      let high_bits := GetLocalHighBits dir3 image_bucket_idx in
      let size := NumReadable BUCKET_ARRAY_SIZE bucket in
      let '(bucket1, image_bucket1, _, _) :=
        migrate size 0 local_mask high_bits bucket
                (empty_bucket BUCKET_ARRAY_SIZE) 0 in
      let t2 := set_bucket (set_bucket (set_dir t1 dir3) bucket_page_id bucket1)
                           image_bucket_page_id image_bucket1 in
      SplitInsert_loop fuel' t2 key value
  end.

Definition SplitInsert (fuel : nat) (t : ExtendibleHashTable) (key value : Z)
    : option (bool * ExtendibleHashTable) :=
  SplitInsert_loop fuel t key value.








(** [Insert] *)
Definition Insert (fuel : nat) (t : ExtendibleHashTable) (key value : Z)
    : option (bool * ExtendibleHashTable) :=
  let dir := dir_ t in
  let bucket_idx := KeyToDirectoryIndex key dir in
  let bucket_page_id := GetBucketPageId dir bucket_idx in
  bucket ← FetchBucketPage t bucket_page_id;
  (* insert directly *)
  if negb (IsFull BUCKET_ARRAY_SIZE bucket) then
    let '(success, bucket1) := Bucket.Insert BUCKET_ARRAY_SIZE bucket key value in
    Some (success, set_bucket t bucket_page_id bucket1)
  else SplitInsert fuel t key value.

(** The inner loop of [Merge], over [bucket_idx_j]. *)
Fixpoint Merge_rebind (n : nat) (bucket_idx_j bucket_idx image_bucket_idx
    bucket_page_id image_bucket_page_id : Z) (dir : HashTableDirectoryPage)
    : HashTableDirectoryPage :=
  match n with
  | O => dir
  | S n' =>
    if decide (bucket_idx_j < Size dir) then
      let dir1 :=
        if decide (bucket_idx_j = bucket_idx ∨ bucket_idx_j = image_bucket_idx)
        then dir
        else
          let bucket_page_id_j := GetBucketPageId dir bucket_idx_j in
          if decide (bucket_page_id_j = bucket_page_id ∨
                     bucket_page_id_j = image_bucket_page_id)
          then SetBucketPageId
                 (SetLocalDepth dir bucket_idx_j (GetLocalDepth dir bucket_idx))
                 bucket_idx_j image_bucket_page_id
          else dir in
      Merge_rebind n' (bucket_idx_j + 1) bucket_idx image_bucket_idx
                   bucket_page_id image_bucket_page_id dir1
    else dir
  end.

(** The outer loop of [Merge], over [bucket_idx]; [dir->Size()] is read
    again at every round. *)
Fixpoint Merge_loop (n : nat) (bucket_idx : Z) (t : ExtendibleHashTable)
    : option ExtendibleHashTable :=
  match n with
  | O => Some t
  | S n' =>
    let dir := dir_ t in
    if decide (bucket_idx < Size dir) then
      let bucket_page_id := GetBucketPageId dir bucket_idx in
      bucket ← FetchBucketPage t bucket_page_id;
      let bucket_local_depth := GetLocalDepth dir bucket_idx in
      let image_bucket_idx := GetSplitImageIndex dir bucket_idx in
      let image_bucket_page_id := GetBucketPageId dir image_bucket_idx in
      let dir1 :=
        if bool_decide (1 < bucket_local_depth) && IsEmpty BUCKET_ARRAY_SIZE bucket &&
           bool_decide (GetLocalDepth dir image_bucket_idx = bucket_local_depth)
        then
          let d1 := DecrLocalDepth dir bucket_idx in
          let d2 := DecrLocalDepth d1 image_bucket_idx in
          let d3 := SetBucketPageId d2 bucket_idx (GetBucketPageId d2 image_bucket_idx) in
          (* Updating for all the buckets with same page_id *)
          Merge_rebind (Z.to_nat (Size d3)) 0 bucket_idx image_bucket_idx
                       bucket_page_id image_bucket_page_id d3
        else dir in
      let dir2 := if CanShrink dir1 then Shrink dir1 else dir1 in
      Merge_loop n' (bucket_idx + 1) (set_dir t dir2)
    else Some t
  end.

(** [Merge] *)
Definition Merge (t : ExtendibleHashTable) : option ExtendibleHashTable :=
  Merge_loop (Z.to_nat (Size (dir_ t))) 0 t.

(** [Remove] *)
Definition Remove (t : ExtendibleHashTable) (key value : Z)
    : option (bool * ExtendibleHashTable) :=
  let bucket_page_id := KeyToPageId key (dir_ t) in
  bucket ← FetchBucketPage t bucket_page_id;
  let '(success, bucket1) := Bucket.Remove BUCKET_ARRAY_SIZE bucket key value in
  let t1 := set_bucket t bucket_page_id bucket1 in
  (* If bucket is empty, yield to Merge, to shrink the bucket. *)
  if success && IsEmpty BUCKET_ARRAY_SIZE bucket1
  then t2 ← Merge t1; Some (success, t2)
  else Some (success, t1).

(** The pair [(key, value)] is live in the bucket page that the directory
    gives for [key]. *)
Definition table_holds (t : ExtendibleHashTable) (key value : Z) : Prop :=
  ∃ bucket, FetchBucketPage t (KeyToPageId key (dir_ t)) = Some bucket ∧
            holds BUCKET_ARRAY_SIZE bucket key value.

(** [k] successive [Insert]s of the pairs [(i, i)], [i = from, from+1, ...];
    the result lists what each call returned. *)
Fixpoint insert_range (fuel k : nat) (from : Z) (t : ExtendibleHashTable)
    : option (list bool * ExtendibleHashTable) :=
  match k with
  | O => Some ([], t)
  | S k' =>
    '(ok, t1) ← Insert fuel t from from;
    '(oks, t2) ← insert_range fuel k' (from + 1) t1;
    Some (ok :: oks, t2)
  end.

(** [Insert] of the pairs of [kvs], first to last; the result lists what
    each call returned. *)
Fixpoint insert_all (fuel : nat) (kvs : list (Z * Z)) (t : ExtendibleHashTable)
    : option (list bool * ExtendibleHashTable) :=
  match kvs with
  | [] => Some ([], t)
  | (key, value) :: rest =>
    '(ok, t1) ← Insert fuel t key value;
    '(oks, t2) ← insert_all fuel rest t1;
    Some (ok :: oks, t2)
  end.

End Table.

(** A bucket of four slots filled with the pairs [(0,0)] ... [(3,3)]. *)
Definition full_bucket4 : HashTableBucketPage :=
  foldl (λ b k, (Bucket.Insert 4 b k k).2) (empty_bucket 4) [0; 1; 2; 3].

(** The identity hash on non-negative integer keys. *)
Definition id_hash (key : Z) : Z := key mod 2 ^ 64.


(** The same table after [Insert(5, 6)], and after [Insert(5, 6)] and
    [Insert(7, 8)]: both pairs go to the first bucket page. *)
Definition bucket_one_pair : HashTableBucketPage :=
  (Bucket.Insert 4 (empty_bucket 4) 5 6).2.
Definition bucket_two_pairs : HashTableBucketPage :=
  (Bucket.Insert 4 bucket_one_pair 7 8).2.
Definition table_one_pair : ExtendibleHashTable :=
  set_bucket (ExtendibleHashTable_new 4 0) 1 bucket_one_pair.
Definition table_two_pairs : ExtendibleHashTable :=
  set_bucket (ExtendibleHashTable_new 4 0) 1 bucket_two_pairs.

(** Modelled from the spec: the bucket capacity, a macro of the header, is
    [B = floor((pageSize * 8) / (8 * sizeof(KV) + 2))]; for the [<int, int>]
    instantiation, with an 8-byte pair, that is 496. *)
Definition BUCKET_ARRAY_SIZE_int_int : nat := 4096 * 8 / (8 * 8 + 2).

(** The directory the constructor leaves on a fresh pool (directory page
    0, bucket pages 1 and 2), and the directory after [SplitInsert] has
    split slot 0 of it once, the image bucket being the new page 3. *)
Definition dir_new : HashTableDirectoryPage :=
  IncrGlobalDepth
    (SetLocalDepth
       (SetBucketPageId
          (SetLocalDepth (SetBucketPageId (SetPageId empty_directory 0) 0 1) 0 1)
          1 1)
       1 1).

Definition dir_split : HashTableDirectoryPage :=
  let dir1 := Grow dir_new in
  let dir2 := SetBucketPageId dir1 (GetSplitImageIndex dir1 0) 3 in
  SetLocalDepth dir2 (GetSplitImageIndex dir1 0) (GetLocalDepth dir2 0).

End ExtHash.

(* ================================================================== *)
(** ** src/concurrency/lock_manager.cpp *)
(* ================================================================== *)

Module LM.

Inductive TransactionState := GROWING | SHRINKING | COMMITTED | ABORTED.
Inductive IsolationLevel := READ_UNCOMMITTED | REPEATABLE_READ | READ_COMMITTED.
Inductive LockMode := SHARED | EXCLUSIVE.
Inductive AbortReason :=
  | LOCK_ON_SHRINKING
  | LOCKSHARED_ON_READ_UNCOMMITTED
  | UPGRADE_CONFLICT
  | DEADLOCK.

#[global] Instance TransactionState_eq_dec : EqDecision TransactionState.
Proof. solve_decision. Defined.
#[global] Instance IsolationLevel_eq_dec : EqDecision IsolationLevel.
Proof. solve_decision. Defined.
#[global] Instance LockMode_eq_dec : EqDecision LockMode.
Proof. solve_decision. Defined.
#[global] Instance AbortReason_eq_dec : EqDecision AbortReason.
Proof. solve_decision. Defined.

(** A row id: page id and slot number. *)
Definition RID : Type := Z * Z.

(** Modelled from the spec: [INVALID_TXN_ID] of common/config.h. *)
Definition INVALID_TXN_ID : Z := -1.

(** The part of [Transaction] the lock manager reads and writes. *)
Record Transaction := mkTxn {
  txn_id_ : Z;
  state_ : TransactionState;
  isolation_level_ : IsolationLevel;
  shared_lock_set_ : gset RID;
  exclusive_lock_set_ : gset RID
}.

Record LockRequest := mkReq {
  req_txn_id_ : Z;
  lock_mode_ : LockMode;
  granted_ : bool
}.

(** The condition variable [cv_] carries no data; waiting on it is the
    [Blocked] outcome below.  The width of [refcount_] is declared in the
    header only, it is kept as an unbounded integer. *)
Record LockRequestQueue := mkRQ {
  request_queue_ : list LockRequest;
  refcount_ : Z;
  waiting_ : bool;
  upgrading_ : bool
}.

(** A default-constructed queue ([lock_table_.emplace] with no arguments). *)
Definition empty_rq : LockRequestQueue := mkRQ [] 0 false false.

(** Modelled from the spec: [LockRequestQueue::insert] is defined in the
    header; the queue is a FIFO in arrival order, and a new request is not
    granted. *)
Definition rq_insert (r : LockRequest) (rq : LockRequestQueue) : LockRequestQueue :=
  mkRQ (request_queue_ rq ++ [r]) (refcount_ rq) (waiting_ rq) (upgrading_ rq).

(** [LockRequestQueue::find]: the position of the first request of the
    transaction, [None] for [nullptr]. *)
Fixpoint find_index (txn_id : Z) (l : list LockRequest) : option nat :=
  match l with
  | [] => None
  | item :: r =>
    if decide (req_txn_id_ item = txn_id) then Some O
    else S <$> find_index txn_id r
  end.

Definition rq_find (txn_id : Z) (rq : LockRequestQueue) : option nat :=
  find_index txn_id (request_queue_ rq).

(** [LockRequestQueue::remove]: a copy of the first request of the
    transaction, or the default request; the queue is not touched. *)
Fixpoint remove_scan (txn_id : Z) (l : list LockRequest) : LockRequest :=
  match l with
  | [] => mkReq INVALID_TXN_ID SHARED false
  | item :: r =>
    if decide (req_txn_id_ item = txn_id) then item else remove_scan txn_id r
  end.

Definition rq_remove (txn_id : Z) (rq : LockRequestQueue) : LockRequest :=
  remove_scan txn_id (request_queue_ rq).

(** Writes through the pointer returned by [find]. *)
Definition set_granted (i : nat) (g : bool) (rq : LockRequestQueue) :=
  mkRQ (alter (λ r, mkReq (req_txn_id_ r) (lock_mode_ r) g) i (request_queue_ rq))
       (refcount_ rq) (waiting_ rq) (upgrading_ rq).

Definition set_mode_granted (i : nat) (m : LockMode) (g : bool)
    (rq : LockRequestQueue) :=
  mkRQ (alter (λ r, mkReq (req_txn_id_ r) m g) i (request_queue_ rq))
       (refcount_ rq) (waiting_ rq) (upgrading_ rq).

Definition set_refcount (c : Z) (rq : LockRequestQueue) :=
  mkRQ (request_queue_ rq) c (waiting_ rq) (upgrading_ rq).

Definition set_waiting (b : bool) (rq : LockRequestQueue) :=
  mkRQ (request_queue_ rq) (refcount_ rq) b (upgrading_ rq).

Definition set_upgrading (b : bool) (rq : LockRequestQueue) :=
  mkRQ (request_queue_ rq) (refcount_ rq) (waiting_ rq) b.

(** The lock manager together with the transactions it points to.  [heap]
    holds the [Transaction] objects by address; [id_txn_] maps a transaction
    id to such an address. *)
Record World := mkWorld {
  heap : gmap Z Transaction;
  lock_table_ : gmap RID LockRequestQueue;
  id_txn_ : gmap Z Z
}.

Definition set_heap (w : World) (h : gmap Z Transaction) : World :=
  mkWorld h (lock_table_ w) (id_txn_ w).

Definition set_rq (rid : RID) (rq : LockRequestQueue) (w : World) : World :=
  mkWorld (heap w) (<[rid := rq]> (lock_table_ w)) (id_txn_ w).

(** [txn->SetState(st)] *)
Definition SetState (txn : Z) (st : TransactionState) (w : World) : World :=
  set_heap w
    (alter (λ t, mkTxn (txn_id_ t) st (isolation_level_ t)
                       (shared_lock_set_ t) (exclusive_lock_set_ t))
           txn (heap w)).

(** [txn->GetState()]; only used on addresses that are in the heap. *)
Definition GetState (txn : Z) (w : World) : option TransactionState :=
  state_ <$> heap w !! txn.

Definition upd_lock_sets (txn : Z) (fs fx : gset RID → gset RID) (w : World) : World :=
  set_heap w
    (alter (λ t, mkTxn (txn_id_ t) (state_ t) (isolation_level_ t)
                       (fs (shared_lock_set_ t)) (fx (exclusive_lock_set_ t)))
           txn (heap w)).

(** [id_txn_.emplace(txn_id, txn)]: no effect when the id is already there. *)
Definition emplace_txn (txn_id txn : Z) (w : World) : World :=
  match id_txn_ w !! txn_id with
  | Some _ => w
  | None => mkWorld (heap w) (lock_table_ w) (<[txn_id := txn]> (id_txn_ w))
  end.

(** How a call ends: it returns, it throws [TransactionAbortException], it
    is suspended in [cv_.wait] because the predicate is false, or it
    dereferences a null pointer or an end iterator. *)
Inductive Outcome :=
  | Returned (b : bool)
  | Thrown (txn_id : Z) (reason : AbortReason)
  | Blocked
  | Undefined.

#[global] Instance Outcome_eq_dec : EqDecision Outcome.
Proof. solve_decision. Defined.

(** [LockManager::Prevent].  The queue is the caller's reference [rq]; the
    loop runs over its requests and changes only [refcount_], [waiting_] and
    transaction states.  [id_txn_[id]] on an unknown id is a null pointer. *)
Fixpoint Prevent_loop (txn_id : Z) (reqs : list LockRequest)
    (rq : LockRequestQueue) (w : World) : option (LockRequestQueue * World) :=
  match reqs with
  | [] => Some (rq, w)
  | request :: rest =>
    if granted_ request && bool_decide (req_txn_id_ request = txn_id) then
      match id_txn_ w !! req_txn_id_ request with
      | None => None
      | Some victim =>
        match heap w !! victim with
        | None => None
        | Some _ =>
          let w1 := SetState victim ABORTED w in
          let rq1 := match lock_mode_ request with
                     | SHARED => set_refcount (refcount_ rq - 1) rq
                     | EXCLUSIVE => set_waiting false rq
                     end in
          Prevent_loop txn_id rest rq1 w1
        end
      end
    else Prevent_loop txn_id rest rq w
  end.

Definition Prevent (txn_id : Z) (rq : LockRequestQueue) (w : World)
    : option (LockRequestQueue * World) :=
  Prevent_loop txn_id (request_queue_ rq) rq w.

Definition is_aborted (txn : Z) (w : World) : bool :=
  bool_decide (GetState txn w = Some ABORTED).

(** The end of [LockShared], from the test of the transaction state after
    the wait. *)
Definition LockShared_grant (txn txn_id : Z) (rid : RID)
    (rq : LockRequestQueue) (w : World) : Outcome * World :=
  if is_aborted txn w then
    (Thrown txn_id DEADLOCK, set_rq rid rq w)
  else
    let w1 := upd_lock_sets txn (λ s, s ∪ {[rid]}) id w in
    let rq1 := set_refcount (refcount_ rq + 1) rq in
    let rq2 := match rq_find txn_id rq1 with
               | Some i => set_granted i true rq1
               | None => rq1
               end in
    (Returned true, set_rq rid rq2 w1).

(** [rq.cv_.wait(lock, pred)] of [LockShared] and what follows it. *)
Definition LockShared_wait (txn txn_id : Z) (rid : RID)
    (rq : LockRequestQueue) (w : World) : Outcome * World :=
  if is_aborted txn w || negb (waiting_ rq)
  then LockShared_grant txn txn_id rid rq w
  else (Blocked, set_rq rid rq w).

(** [LockManager::LockShared] *)
Definition LockShared (txn : Z) (rid : RID) (w : World) : Outcome * World :=
  match heap w !! txn with
  | None => (Undefined, w)
  | Some t =>
    let txn_id := txn_id_ t in
    let w := emplace_txn txn_id txn w in
    if decide (isolation_level_ t = READ_UNCOMMITTED) then
      (Thrown txn_id LOCKSHARED_ON_READ_UNCOMMITTED, SetState txn ABORTED w)
    else if decide (state_ t = SHRINKING) then
      (Thrown txn_id LOCK_ON_SHRINKING, SetState txn ABORTED w)
    else
      let rq := rq_insert (mkReq txn_id SHARED false)
                  (default empty_rq (lock_table_ w !! rid)) in
      if waiting_ rq then
        match Prevent txn_id rq w with
        | None => (Undefined, set_rq rid rq w)
        | Some (rq1, w1) => LockShared_wait txn txn_id rid rq1 w1
        end
      else LockShared_grant txn txn_id rid rq w
  end.

Definition LockExclusive_grant (txn txn_id : Z) (rid : RID)
    (rq : LockRequestQueue) (w : World) : Outcome * World :=
  if is_aborted txn w then
    (Thrown txn_id DEADLOCK, set_rq rid rq w)
  else
    let w1 := upd_lock_sets txn id (λ s, s ∪ {[rid]}) w in
    let rq1 := set_waiting true rq in
    let rq2 := match rq_find txn_id rq1 with
               | Some i => set_granted i true rq1
               | None => rq1
               end in
    (Returned true, set_rq rid rq2 w1).

Definition LockExclusive_wait (txn txn_id : Z) (rid : RID)
    (rq : LockRequestQueue) (w : World) : Outcome * World :=
  if is_aborted txn w || (negb (waiting_ rq) && bool_decide (refcount_ rq = 0))
  then LockExclusive_grant txn txn_id rid rq w
  else (Blocked, set_rq rid rq w).

(** [LockManager::LockExclusive] *)
Definition LockExclusive (txn : Z) (rid : RID) (w : World) : Outcome * World :=
  match heap w !! txn with
  | None => (Undefined, w)
  | Some t =>
    let txn_id := txn_id_ t in
    let w := emplace_txn txn_id txn w in
    if decide (state_ t = SHRINKING) then
      (Thrown txn_id LOCK_ON_SHRINKING, SetState txn ABORTED w)
    else
      let rq := rq_insert (mkReq txn_id EXCLUSIVE false)
                  (default empty_rq (lock_table_ w !! rid)) in
      if waiting_ rq || bool_decide (0 < refcount_ rq) then
        match Prevent txn_id rq w with
        | None => (Undefined, set_rq rid rq w)
        | Some (rq1, w1) => LockExclusive_wait txn txn_id rid rq1 w1
        end
      else LockExclusive_grant txn txn_id rid rq w
  end.

Definition LockUpgrade_grant (txn txn_id : Z) (rid : RID)
    (rq : LockRequestQueue) (w : World) : Outcome * World :=
  if is_aborted txn w then
    (Thrown txn_id DEADLOCK, set_rq rid rq w)
  else
    let w1 := upd_lock_sets txn id (λ s, s ∪ {[rid]}) w in
    let rq1 := set_waiting true (set_upgrading false rq) in
    match rq_find txn_id rq1 with
    | Some i => (Returned true, set_rq rid (set_granted i true rq1) w1)
    | None => (Undefined, set_rq rid rq1 w1)
    end.

Definition LockUpgrade_wait (txn txn_id : Z) (rid : RID)
    (rq : LockRequestQueue) (w : World) : Outcome * World :=
  if is_aborted txn w || (negb (waiting_ rq) && bool_decide (refcount_ rq = 0))
  then LockUpgrade_grant txn txn_id rid rq w
  else (Blocked, set_rq rid rq w).

(** [LockManager::LockUpgrade] *)
Definition LockUpgrade (txn : Z) (rid : RID) (w : World) : Outcome * World :=
  match heap w !! txn with
  | None => (Undefined, w)
  | Some t =>
    let txn_id := txn_id_ t in
    if decide (state_ t = SHRINKING) then
      (Thrown txn_id LOCK_ON_SHRINKING, SetState txn ABORTED w)
    else
      match lock_table_ w !! rid with
      | None => (Undefined, w)
      | Some rq =>
        if upgrading_ rq then
          (Thrown txn_id UPGRADE_CONFLICT, SetState txn ABORTED w)
        else
          let w1 := upd_lock_sets txn (λ s, s ∖ {[rid]}) id w in
          let rq1 := set_refcount (refcount_ rq - 1) rq in
          let rq2 := match rq_find txn_id rq1 with
                     | Some i => set_mode_granted i EXCLUSIVE false rq1
                     | None => rq1
                     end in
          if waiting_ rq2 || bool_decide (0 < refcount_ rq2) then
            match Prevent txn_id rq2 w1 with
            | None => (Undefined, set_rq rid rq2 w1)
            | Some (rq3, w2) =>
              LockUpgrade_wait txn txn_id rid (set_upgrading true rq3) w2
            end
          else LockUpgrade_grant txn txn_id rid rq2 w1
      end
  end.

(** [LockManager::Unlock] *)
Definition Unlock (txn : Z) (rid : RID) (w : World) : Outcome * World :=
  match heap w !! txn with
  | None => (Undefined, w)
  | Some t =>
    let txn_id := txn_id_ t in
    match lock_table_ w !! rid with
    | None => (Undefined, w)
    | Some rq =>
      let w1 := upd_lock_sets txn (λ s, s ∖ {[rid]}) (λ s, s ∖ {[rid]}) w in
      (* transfer `TransactionState` *)
      let mode := lock_mode_ (rq_remove txn_id rq) in
      let w2 :=
        if negb (bool_decide (mode = SHARED) &&
                 bool_decide (isolation_level_ t = READ_COMMITTED)) &&
           bool_decide (state_ t = GROWING)
        then SetState txn SHRINKING w1
        else w1 in
      (* notify others *)
      let rq1 := match mode with
                 | SHARED => set_refcount (refcount_ rq - 1) rq
                 | EXCLUSIVE => set_waiting false rq
                 end in
      (Returned true, set_rq rid rq1 w2)
    end
  end.

(** [if (auto request = rq.find(txn_id); request != nullptr)
    request->granted_ = true;] *)
Definition grant_found (txn_id : Z) (rq : LockRequestQueue) : LockRequestQueue :=
  match rq_find txn_id rq with
  | Some i => set_granted i true rq
  | None => rq
  end.

(** What [Unlock] leaves of a queue, given the mode it found. *)
Definition released (mode : LockMode) (rq : LockRequestQueue) : LockRequestQueue :=
  match mode with
  | SHARED => set_refcount (refcount_ rq - 1) rq
  | EXCLUSIVE => set_waiting false rq
  end.

(** Concrete worlds.  Transaction [i] lives at address [100 + i]; all start
    in GROWING with empty lock sets.  [r0] is the row every scenario locks. *)
Definition r0 : RID := (0, 0).
Definition r1 : RID := (0, 1).
Definition r2 : RID := (0, 2).

Definition fresh_txn (id : Z) (iso : IsolationLevel) : Transaction :=
  mkTxn id GROWING iso ∅ ∅.

Definition world_of (txns : list Transaction) : World :=
  mkWorld (list_to_map ((λ t, (100 + txn_id_ t, t)) <$> txns)) ∅ ∅.

(** Scenario S5: T1 holds S on [r0], T2 has asked for X, then T0 asks for
    X. *)
Definition S5_start : World :=
  world_of [fresh_txn 0 REPEATABLE_READ; fresh_txn 1 REPEATABLE_READ;
            fresh_txn 2 REPEATABLE_READ].
Definition S5_T1_shared : World := (LockShared 101 r0 S5_start).2.
Definition S5_T2_waits : World := (LockExclusive 102 r0 S5_T1_shared).2.
Definition S5_T0_asks : Outcome * World := LockExclusive 100 r0 S5_T2_waits.

(** Scenario S6 under an isolation level: S on [r1], S on [r2], then
    [Unlock(r1)]. *)
Definition S6_locked (iso : IsolationLevel) : World :=
  (LockShared 101 r2 (LockShared 101 r1 (world_of [fresh_txn 1 iso])).2).2.
Definition S6_unlocked (iso : IsolationLevel) : World :=
  (Unlock 101 r1 (S6_locked iso)).2.

(** A READ_UNCOMMITTED transaction that is already SHRINKING. *)
Definition world_ru_shrinking : World :=
  mkWorld {[ 100 := mkTxn 0 SHRINKING READ_UNCOMMITTED ∅ ∅ ]} ∅ ∅.

(** T1 holds S on [r0]; T2 exists and has never asked for a lock. *)
Definition world_T1_shared_T2_idle : World :=
  (LockShared 101 r0
     (world_of [fresh_txn 1 REPEATABLE_READ; fresh_txn 2 REPEATABLE_READ])).2.

(** The same after T1 has unlocked [r0]: nobody holds the row. *)
Definition world_T1_released_T2_idle : World :=
  (Unlock 101 r0 world_T1_shared_T2_idle).2.

(** T1, under READ_COMMITTED, has locked [r0] shared and unlocked it. *)
Definition world_T1_rc_released : World :=
  (Unlock 101 r0 (LockShared 101 r0 (world_of [fresh_txn 1 READ_COMMITTED])).2).2.

End LM.

(* ================================================================== *)
(** * Properties *)
(* ================================================================== *)

(** ** Buffer pool manager *)

Section BPMFacts.
Import BPM.

Lemma frame_set_pages s ps f :
  frame (set_pages s ps) f = default empty_page (ps !! Z.to_nat f).
Proof. reflexivity. Qed.

Lemma frame_set_disk s d f : frame (set_disk s d) f = frame s f.
Proof. reflexivity. Qed.

Lemma frame_set_replacer s r f : frame (set_replacer s r) f = frame s f.
Proof. reflexivity. Qed.

Lemma frame_upd_same s f g :
  (Z.to_nat f < length (pages_ s))%nat →
  frame (set_pages s (upd_frame f g (pages_ s))) f = g (frame s f).
Proof.
  intros Hlt. unfold frame, upd_frame; simpl.
  rewrite list_lookup_alter_eq.
  destruct (lookup_lt_is_Some_2 (pages_ s) (Z.to_nat f) Hlt) as [p Hp].
  by rewrite Hp.
Qed.

Lemma FindPage_Some s pid f :
  page_table_ s !! pid = Some f → FindPage s pid = f.
Proof. intros H. unfold FindPage. by rewrite H. Qed.

(** LRU: after an [Unpin f] that returns, the frame is a key of the map. *)
Lemma LRU_Unpin_elem f r : f ∈ LRU.lru_map_ (LRU.Unpin f r).
Proof.
  unfold LRU.Unpin.
  destruct (decide (f ∈ LRU.lru_map_ r)) as [|Hnin]; [done|].
  simpl. set_solver.
Qed.

(** C9: [DeletePgImp] records the deallocation of the page id before it
    looks at residency or pins, on every path; when the page is resident
    with a positive pin count the call returns false and the only change to
    the pool is that deallocation: page table, frames, free list, replacer
    and disk are as before. *)
Theorem DeletePgImp_pinned_not_atomic s pid f :
  page_table_ s !! pid = Some f →
  f ≠ INVALID_PAGE_ID →
  0 < pin_count_ (frame s f) →
  (∀ s0 p, deallocated_ (DeletePgImp p s0).2 = p :: deallocated_ s0) ∧
  (DeletePgImp pid s).1 = false ∧
  deallocated_ (DeletePgImp pid s).2 = pid :: deallocated_ s ∧
  page_table_ (DeletePgImp pid s).2 = page_table_ s ∧
  pages_ (DeletePgImp pid s).2 = pages_ s ∧
  free_list_ (DeletePgImp pid s).2 = free_list_ s ∧
  replacer_ (DeletePgImp pid s).2 = replacer_ s ∧
  disk_manager_ (DeletePgImp pid s).2 = disk_manager_ s.
Proof.
  intros Hpt Hf Hpin. split.
  - intros s0 p. unfold DeletePgImp.
    repeat case_decide; reflexivity.
  - unfold DeletePgImp.
    assert (Hfind : FindPage (DeallocatePage pid s) pid = f)
      by (apply FindPage_Some; exact Hpt).
    rewrite Hfind.
    destruct (decide (f = INVALID_PAGE_ID)) as [|_]; [done|].
    change (frame (DeallocatePage pid s) f) with (frame s f).
    destruct (decide (0 < pin_count_ (frame s f))) as [_|]; [|done].
    repeat split.
Qed.

Lemma DeletePgImp_pinned_not_atomic_witness :
  (DeletePgImp 0 pool_one_pinned).1 = false ∧
  deallocated_ (DeletePgImp 0 pool_one_pinned).2 = [0] ∧
  page_table_ (DeletePgImp 0 pool_one_pinned).2 = page_table_ pool_one_pinned.
Proof.
  assert (Hpt : page_table_ pool_one_pinned !! 0 = Some 0) by (vm_compute; reflexivity).
  assert (Hf : 0 ≠ INVALID_PAGE_ID) by discriminate.
  assert (Hpin : 0 < pin_count_ (frame pool_one_pinned 0)) by (vm_compute; reflexivity).
  destruct (DeletePgImp_pinned_not_atomic pool_one_pinned 0 0 Hpt Hf Hpin)
    as (_ & H1 & H2 & H3 & _).
  split; [exact H1 | split; [exact H2 | exact H3]].
Defined.

(** The fields after an [UnpinPgImp] that brings the pin count of a
    resident page from 1 to 0: the frame is handed to the replacer's
    [Unpin], the page is written to disk at once exactly when its dirty
    flag (after or-ing in [is_dirty]) is set, and that flag is still set
    afterwards. *)
Lemma UnpinPgImp_last_pin s pid is_dirty f :
  page_table_ s !! pid = Some f →
  f ≠ INVALID_PAGE_ID →
  (Z.to_nat f < length (pages_ s))%nat →
  pin_count_ (frame s f) = 1 →
  let dirty := is_dirty_ (frame s f) || is_dirty in
  let s' := (UnpinPgImp pid is_dirty s).2 in
  (UnpinPgImp pid is_dirty s).1 = true ∧
  pin_count_ (frame s' f) = 0 ∧
  replacer_ s' = LRU.Unpin f (replacer_ s) ∧
  is_dirty_ (frame s' f) = dirty ∧
  data_ (frame s' f) = data_ (frame s f) ∧
  disk_manager_ s' =
    (if dirty then WritePage pid (data_ (frame s f)) (disk_manager_ s)
     else disk_manager_ s).
Proof.
  intros Hpt Hf Hlen Hpin. cbv zeta.
  unfold UnpinPgImp.
  rewrite (FindPage_Some _ _ _ Hpt).
  destruct (decide (f = INVALID_PAGE_ID ∨ pin_count_ (frame s f) = 0))
    as [[?|?]|_]; [done|lia|].
  set (s1 := if is_dirty then _ else s).
  assert (Hlen1 : (Z.to_nat f < length (pages_ s1))%nat).
  { subst s1. destruct is_dirty; simpl; [|done].
    unfold upd_frame. by rewrite length_alter. }
  assert (Hf1 : frame s1 f =
                mkPage (data_ (frame s f)) (page_id_ (frame s f)) 1
                       (is_dirty_ (frame s f) || is_dirty)).
  { subst s1. destruct is_dirty.
    - rewrite frame_upd_same by done. rewrite Hpin, orb_true_r. done.
    - rewrite orb_false_r. rewrite <- Hpin. by destruct (frame s f). }
  assert (Hrep1 : replacer_ s1 = replacer_ s) by (subst s1; by destruct is_dirty).
  assert (Hdm1 : disk_manager_ s1 = disk_manager_ s) by (subst s1; by destruct is_dirty).
  assert (Hpt1 : page_table_ s1 = page_table_ s) by (subst s1; by destruct is_dirty).
  rewrite (frame_upd_same s1) by done. rewrite Hf1. simpl.
  destruct (decide (1 - 1 = 0)) as [_|]; [|lia]. simpl.
  unfold FlushPageReally, FindPage. simpl. rewrite Hpt1, Hpt.
  destruct (decide (f = INVALID_PAGE_ID)) as [|_]; [done|].
  match goal with |- context [is_dirty_ (frame ?t f)] =>
    assert (Hf2 : frame t f =
                  mkPage (data_ (frame s f)) (page_id_ (frame s f)) 0
                         (is_dirty_ (frame s f) || is_dirty))
  end.
  { unfold frame at 1. simpl. unfold upd_frame.
    rewrite list_lookup_alter_eq.
    destruct (lookup_lt_is_Some_2 (pages_ s1) (Z.to_nat f) Hlen1) as [p Hp].
    assert (frame s1 f = p) by (unfold frame; by rewrite Hp).
    rewrite Hp. simpl. subst p. rewrite Hf1. done. }
  rewrite Hf2. simpl.
  destruct (is_dirty_ (frame s f) || is_dirty) eqn:Ed; simpl;
    rewrite ?frame_set_disk, ?Hf2, ?Hrep1, ?Hdm1; simpl; done.
Qed.

(** On a fresh pool of three frames the first three [NewPage] calls return
    the page ids 0, 1 and 2, in frames 0, 1 and 2. *)
Lemma fresh_pool_NewPage_ids :
  let s0 := init 3 1 0 (mkDisk []) in
  (NewPgImp s0).1 = Some (0, 0) ∧
  (NewPgImp (NewPgImp s0).2).1 = Some (1, 1) ∧
  (NewPgImp (NewPgImp (NewPgImp s0).2).2).1 = Some (2, 2).
Proof. vm_compute. repeat split; reflexivity. Qed.

(** C5 (the code departs from it): a [FetchPgImp] that hits a resident page
    returns its frame with the pin count increased by one and the frame
    taken out of the replacer, and sets the frame's dirty flag to true
    whatever it was before. *)
Theorem FetchPgImp_hit_marks_dirty s pid f :
  page_table_ s !! pid = Some f →
  f ≠ INVALID_PAGE_ID →
  (Z.to_nat f < length (pages_ s))%nat →
  let s' := (FetchPgImp pid s).2 in
  (FetchPgImp pid s).1 = Some f ∧
  pin_count_ (frame s' f) = pin_count_ (frame s f) + 1 ∧
  replacer_ s' = LRU.Pin f (replacer_ s) ∧
  is_dirty_ (frame s' f) = true.
Proof.
  intros Hpt Hf Hlen. cbv zeta. unfold FetchPgImp.
  rewrite (FindPage_Some _ _ _ Hpt).
  destruct (decide (f ≠ INVALID_PAGE_ID)) as [_|]; [|done].
  simpl. rewrite (frame_upd_same (set_replacer s _)) by done.
  done.
Qed.

Lemma FetchPgImp_hit_marks_dirty_witness :
  is_dirty_ (frame pool_clean_resident 0) = false ∧
  (FetchPgImp 0 pool_clean_resident).1 = Some 0 ∧
  is_dirty_ (frame (FetchPgImp 0 pool_clean_resident).2 0) = true.
Proof.
  assert (Hpt : page_table_ pool_clean_resident !! 0 = Some 0)
    by (vm_compute; reflexivity).
  assert (Hf : 0 ≠ INVALID_PAGE_ID) by discriminate.
  assert (Hlen : (Z.to_nat 0 < length (pages_ pool_clean_resident))%nat)
    by (vm_compute; lia).
  destruct (FetchPgImp_hit_marks_dirty pool_clean_resident 0 0 Hpt Hf Hlen)
    as (H1 & _ & _ & H4).
  split; [vm_compute; reflexivity | split; [exact H1 | exact H4]].
Defined.

Lemma pages_FlushPageReally pid s : pages_ (FlushPageReally pid s) = pages_ s.
Proof.
  unfold FlushPageReally. case_decide; [done|].
  by destruct (is_dirty_ _).
Qed.

(** [FlushPgImp] is one of the places where the dirty flag of a resident
    page goes back to false. *)
Lemma FlushPgImp_clears_dirty s pid f :
  page_table_ s !! pid = Some f →
  f ≠ INVALID_PAGE_ID →
  (Z.to_nat f < length (pages_ s))%nat →
  (FlushPgImp pid s).1 = true ∧
  is_dirty_ (frame (FlushPgImp pid s).2 f) = false.
Proof.
  intros Hpt Hf Hlen. unfold FlushPgImp.
  rewrite (FindPage_Some _ _ _ Hpt).
  destruct (decide (f = INVALID_PAGE_ID)) as [|_]; [done|]. simpl.
  split; [done|].
  rewrite frame_upd_same by (by rewrite pages_FlushPageReally). done.
Qed.

End BPMFacts.

(** ** Lock manager *)

Section LMFacts.
Import LM.

Lemma GetState_set_rq txn rid rq w :
  GetState txn (set_rq rid rq w) = GetState txn w.
Proof. reflexivity. Qed.

Lemma GetState_SetState txn st w t :
  heap w !! txn = Some t → GetState txn (SetState txn st w) = Some st.
Proof.
  intros H. unfold GetState, SetState; simpl.
  rewrite lookup_alter_eq, H. reflexivity.
Qed.

Lemma GetState_emplace txn a b w :
  GetState txn (emplace_txn a b w) = GetState txn w.
Proof. unfold emplace_txn. by destruct (id_txn_ w !! a). Qed.

Lemma heap_emplace a b w : heap (emplace_txn a b w) = heap w.
Proof. unfold emplace_txn. by destruct (id_txn_ w !! a). Qed.

Lemma lock_table_emplace a b w : lock_table_ (emplace_txn a b w) = lock_table_ w.
Proof. unfold emplace_txn. by destruct (id_txn_ w !! a). Qed.

Lemma GetState_upd_lock_sets txn fs fx w :
  GetState txn (upd_lock_sets txn fs fx w) = GetState txn w.
Proof.
  unfold GetState, upd_lock_sets; simpl. rewrite lookup_alter_eq.
  by destruct (heap w !! txn).
Qed.

(** [Prevent] changes nothing unless the queue holds a granted request of
    the requester itself: requests of other transactions are never
    wounded. *)
Lemma Prevent_loop_only_self txn_id reqs rq w :
  (∀ r, r ∈ reqs → granted_ r = true → req_txn_id_ r ≠ txn_id) →
  Prevent_loop txn_id reqs rq w = Some (rq, w).
Proof.
  induction reqs as [|r reqs IH]; intros Hall; simpl; [done|].
  destruct (granted_ r) eqn:Eg; simpl.
  - rewrite bool_decide_eq_false_2 by (apply Hall; [left | done]).
    apply IH. intros r' Hr'. apply Hall. by right.
  - apply IH. intros r' Hr'. apply Hall. by right.
Qed.

(** C1 (the code departs from it): scenario S5 run on the code.  T1 is
    granted S on the row, T2's X request is suspended, and the X request of
    the older T0 is suspended as well: [Prevent] leaves the queue and every
    transaction as they are, T1 and T2 stay GROWING, T1 keeps its grant and
    [refcount_] stays 1. *)
Theorem S5_older_requester_wounds_nobody :
  (LockShared 101 r0 S5_start).1 = Returned true ∧
  (LockExclusive 102 r0 S5_T1_shared).1 = Blocked ∧
  S5_T0_asks.1 = Blocked ∧
  GetState 101 S5_T0_asks.2 = Some GROWING ∧
  GetState 102 S5_T0_asks.2 = Some GROWING ∧
  GetState 100 S5_T0_asks.2 = Some GROWING ∧
  lock_table_ S5_T0_asks.2 !! r0 =
    Some (mkRQ [mkReq 1 SHARED true; mkReq 2 EXCLUSIVE false;
                mkReq 0 EXCLUSIVE false] 1 false false).
Proof. vm_compute. repeat split; reflexivity. Qed.

(** C6 (the code departs from it): [Unlock] returns true and leaves the
    request list of the row's queue exactly as it was, so a request of the
    unlocking transaction is still queued afterwards; and when the
    transaction has no request in the queue the call still returns true and
    takes one off [refcount_], as for a shared lock. *)
Theorem Unlock_keeps_request w txn rid t rq :
  heap w !! txn = Some t →
  lock_table_ w !! rid = Some rq →
  (Unlock txn rid w).1 = Returned true ∧
  ∃ rq', lock_table_ (Unlock txn rid w).2 !! rid = Some rq' ∧
         request_queue_ rq' = request_queue_ rq ∧
         (rq_find (txn_id_ t) rq = None →
          refcount_ rq' = refcount_ rq - 1 ∧ waiting_ rq' = waiting_ rq).
Proof.
  intros Ht Hrq. unfold Unlock. rewrite Ht, Hrq. simpl.
  split; [done|].
  rewrite lookup_insert_eq. eexists; split; [done|].
  split.
  - by destruct (lock_mode_ (rq_remove (txn_id_ t) rq)).
  - intros Hnone.
    assert (rq_remove (txn_id_ t) rq = mkReq INVALID_TXN_ID SHARED false) as ->.
    { unfold rq_find, rq_remove in *.
      induction (request_queue_ rq) as [|r l IH]; simpl in *; [done|].
      destruct (decide (req_txn_id_ r = txn_id_ t)); [done|].
      apply IH. by destruct (find_index (txn_id_ t) l). }
    done.
Qed.

Lemma Unlock_keeps_request_witness :
  (Unlock 101 r0 world_T1_shared_T2_idle).1 = Returned true ∧
  ∃ rq', lock_table_ (Unlock 101 r0 world_T1_shared_T2_idle).2 !! r0 = Some rq' ∧
         request_queue_ rq' = [mkReq 1 SHARED true].
Proof.
  assert (Ht : heap world_T1_shared_T2_idle !! 101 =
               Some (mkTxn 1 GROWING REPEATABLE_READ {[r0]} ∅))
    by (vm_compute; reflexivity).
  assert (Hrq : lock_table_ world_T1_shared_T2_idle !! r0 =
                Some (mkRQ [mkReq 1 SHARED true] 1 false false))
    by (vm_compute; reflexivity).
  destruct (Unlock_keeps_request _ _ _ _ _ Ht Hrq) as (H1 & rq' & H2 & H3 & _).
  split; [exact H1|]. exists rq'. split; [exact H2 | exact H3].
Defined.

(** The other half of C6 on the code: a transaction that never asked for
    the row unlocks it; the call returns true and the shared count of the
    real holder drops to 0. *)
Lemma Unlock_absent_request_counts_as_shared :
  (Unlock 102 r0 world_T1_shared_T2_idle).1 = Returned true ∧
  lock_table_ (Unlock 102 r0 world_T1_shared_T2_idle).2 !! r0 =
    Some (mkRQ [mkReq 1 SHARED true] 0 false false).
Proof. vm_compute. split; reflexivity. Qed.

(** [Unlock] returns true, and the state of the transaction goes from
    GROWING to SHRINKING exactly when it was GROWING and it is not the case
    that the mode of the request found by [remove] is SHARED under
    READ_COMMITTED; in every other case the state is the one before the
    call.  The mode is that of the first request of the transaction in the
    queue, whether or not that request is the lock being released. *)
Lemma Unlock_state_follows_found_mode w txn rid t rq :
  heap w !! txn = Some t →
  lock_table_ w !! rid = Some rq →
  let mode := lock_mode_ (rq_remove (txn_id_ t) rq) in
  (Unlock txn rid w).1 = Returned true ∧
  ∃ st', GetState txn (Unlock txn rid w).2 = Some st' ∧
    ((state_ t = GROWING ∧ st' = SHRINKING) ↔
     (state_ t = GROWING ∧
      ¬ (mode = SHARED ∧ isolation_level_ t = READ_COMMITTED))) ∧
    (st' ≠ state_ t → state_ t = GROWING ∧ st' = SHRINKING).
Proof.
  intros Ht Hrq mode. unfold Unlock. rewrite Ht, Hrq. fold mode. simpl.
  split; [done|].
  set (w1 := upd_lock_sets txn _ _ w).
  assert (H1 : GetState txn w1 = Some (state_ t)).
  { subst w1. rewrite GetState_upd_lock_sets. unfold GetState. by rewrite Ht. }
  assert (Hh1 : is_Some (heap w1 !! txn)).
  { unfold GetState in H1. destruct (heap w1 !! txn); [eauto | done]. }
  destruct Hh1 as [t1 Hh1].
  destruct (bool_decide (mode = SHARED)) eqn:Em;
    destruct (bool_decide (isolation_level_ t = READ_COMMITTED)) eqn:Ei;
    destruct (bool_decide (state_ t = GROWING)) eqn:Es; simpl;
    rewrite ?GetState_set_rq, ?(GetState_SetState _ _ _ _ Hh1), ?H1;
    try apply bool_decide_eq_true_1 in Em;
    try apply bool_decide_eq_true_1 in Ei;
    try apply bool_decide_eq_true_1 in Es;
    try apply bool_decide_eq_false_1 in Em;
    try apply bool_decide_eq_false_1 in Ei;
    try apply bool_decide_eq_false_1 in Es;
    eexists; (split; [reflexivity|]); split; try split; try tauto;
    try congruence;
    intros [? ?]; try congruence; split; try done; tauto.
Qed.

(** Scenario S6 on the code: after S on [r1], S on [r2] and [Unlock(r1)]
    the REPEATABLE_READ transaction is SHRINKING and its next [LockShared]
    throws LOCK_ON_SHRINKING, the READ_COMMITTED one is still GROWING. *)
Lemma S6_state_transitions :
  (Unlock 101 r1 (S6_locked REPEATABLE_READ)).1 = Returned true ∧
  GetState 101 (S6_unlocked REPEATABLE_READ) = Some SHRINKING ∧
  (LockShared 101 r0 (S6_unlocked REPEATABLE_READ)).1 = Thrown 1 LOCK_ON_SHRINKING ∧
  GetState 101 (S6_unlocked READ_COMMITTED) = Some GROWING.
Proof.
  assert (Ht : heap (S6_locked REPEATABLE_READ) !! 101 =
               Some (mkTxn 1 GROWING REPEATABLE_READ {[r1; r2]} ∅))
    by (vm_compute; reflexivity).
  assert (Hrq : lock_table_ (S6_locked REPEATABLE_READ) !! r1 =
                Some (mkRQ [mkReq 1 SHARED true] 1 false false))
    by (vm_compute; reflexivity).
  destruct (Unlock_state_follows_found_mode _ _ _ _ _ Ht Hrq)
    as (H1 & st' & H2 & H3 & _).
  split; [exact H1|].
  split.
  - unfold S6_unlocked. rewrite H2. f_equal.
    apply H3. split; [reflexivity|]. intros [_ Hiso]. discriminate Hiso.
  - split; vm_compute; reflexivity.
Qed.

(** C8, as the code has it: a SHRINKING transaction that calls
    [LockExclusive] or [LockUpgrade], or [LockShared] under an isolation
    level other than READ_UNCOMMITTED, is set to ABORTED and the call throws
    LOCK_ON_SHRINKING; under READ_UNCOMMITTED [LockShared] sets the
    transaction to ABORTED and throws LOCKSHARED_ON_READ_UNCOMMITTED
    instead, in SHRINKING as in every other state, because the isolation
    level is tested first. *)
Theorem lock_on_shrinking w txn rid t :
  heap w !! txn = Some t →
  (state_ t = SHRINKING →
   ((LockExclusive txn rid w).1 = Thrown (txn_id_ t) LOCK_ON_SHRINKING ∧
    GetState txn (LockExclusive txn rid w).2 = Some ABORTED) ∧
   ((LockUpgrade txn rid w).1 = Thrown (txn_id_ t) LOCK_ON_SHRINKING ∧
    GetState txn (LockUpgrade txn rid w).2 = Some ABORTED) ∧
   (isolation_level_ t ≠ READ_UNCOMMITTED →
    (LockShared txn rid w).1 = Thrown (txn_id_ t) LOCK_ON_SHRINKING ∧
    GetState txn (LockShared txn rid w).2 = Some ABORTED)) ∧
  (isolation_level_ t = READ_UNCOMMITTED →
   (LockShared txn rid w).1 = Thrown (txn_id_ t) LOCKSHARED_ON_READ_UNCOMMITTED ∧
   GetState txn (LockShared txn rid w).2 = Some ABORTED).
Proof.
  intros Ht.
  assert (He : ∀ a b, heap (emplace_txn a b w) !! txn = Some t)
    by (intros; by rewrite heap_emplace).
  split.
  - intros Hs. unfold LockExclusive, LockUpgrade, LockShared. rewrite Ht.
    destruct (decide (state_ t = SHRINKING)) as [_|]; [|done]. simpl.
    rewrite !(GetState_SetState _ _ _ _ (He _ _)), (GetState_SetState _ _ _ _ Ht).
    split; [done|]. split; [done|].
    intros Hiso. destruct (decide (isolation_level_ t = READ_UNCOMMITTED)); [done|].
    simpl. by rewrite (GetState_SetState _ _ _ _ (He _ _)).
  - intros Hiso. unfold LockShared. rewrite Ht.
    destruct (decide (isolation_level_ t = READ_UNCOMMITTED)); [|done].
    simpl. by rewrite (GetState_SetState _ _ _ _ (He _ _)).
Qed.

Lemma lock_on_shrinking_witness :
  ((LockExclusive 100 r0 world_ru_shrinking).1 = Thrown 0 LOCK_ON_SHRINKING ∧
   GetState 100 (LockExclusive 100 r0 world_ru_shrinking).2 = Some ABORTED ∧
   (LockUpgrade 100 r0 world_ru_shrinking).1 = Thrown 0 LOCK_ON_SHRINKING ∧
   GetState 100 (LockUpgrade 100 r0 world_ru_shrinking).2 = Some ABORTED ∧
   (LockShared 100 r0 world_ru_shrinking).1 =
     Thrown 0 LOCKSHARED_ON_READ_UNCOMMITTED ∧
   GetState 100 (LockShared 100 r0 world_ru_shrinking).2 = Some ABORTED) ∧
  (GetState 101 (S6_unlocked REPEATABLE_READ) = Some SHRINKING ∧
   (LockShared 101 r0 (S6_unlocked REPEATABLE_READ)).1 =
     Thrown 1 LOCK_ON_SHRINKING ∧
   GetState 101 (LockShared 101 r0 (S6_unlocked REPEATABLE_READ)).2 =
     Some ABORTED).
Proof.
  assert (Ht : heap world_ru_shrinking !! 100 =
               Some (mkTxn 0 SHRINKING READ_UNCOMMITTED ∅ ∅))
    by (vm_compute; reflexivity).
  assert (Ht2 : heap (S6_unlocked REPEATABLE_READ) !! 101 =
                Some (mkTxn 1 SHRINKING REPEATABLE_READ {[r2]} ∅))
    by (vm_compute; reflexivity).
  destruct (lock_on_shrinking world_ru_shrinking 100 r0 _ Ht) as [Hs Hru].
  destruct (Hs eq_refl) as ((H1 & H1') & (H2 & H2') & _).
  destruct (Hru eq_refl) as (H3 & H3').
  destruct (lock_on_shrinking (S6_unlocked REPEATABLE_READ) 101 r0 _ Ht2)
    as [Hs2 _].
  destruct (Hs2 eq_refl) as (_ & _ & Hsh).
  assert (Hiso : isolation_level_ (mkTxn 1 SHRINKING REPEATABLE_READ {[r2]} ∅)
                 ≠ READ_UNCOMMITTED) by (simpl; discriminate).
  destruct (Hsh Hiso) as (H4 & H4').
  split.
  - split; [exact H1|]. split; [exact H1'|]. split; [exact H2|].
    split; [exact H2'|]. split; [exact H3 | exact H3'].
  - split; [|split; [exact H4 | exact H4']].
    unfold GetState. by rewrite Ht2.
Defined.

(** C8 as stated fails: [LockShared] by a READ_UNCOMMITTED transaction in
    SHRINKING state does not throw LOCK_ON_SHRINKING. *)
Lemma LockShared_ru_shrinking_counterexample :
  GetState 100 world_ru_shrinking = Some SHRINKING ∧
  (LockShared 100 r0 world_ru_shrinking).1 =
    Thrown 0 LOCKSHARED_ON_READ_UNCOMMITTED ∧
  (LockShared 100 r0 world_ru_shrinking).1 ≠ Thrown 0 LOCK_ON_SHRINKING.
Proof.
  split; [vm_compute; reflexivity|].
  split; [vm_compute; reflexivity|].
  vm_compute. intros H. discriminate H.
Qed.

End LMFacts.


(** ** Hash bucket page *)

Section BucketFacts.
Import Bucket.

Lemma get_bit_testbit bm idx :
  get_bit bm idx =
  Z.testbit (default 0 (bm !! (idx / 8)%nat)) (Z.of_nat (idx mod 8)).
Proof.
  unfold get_bit.
  set (a := default 0 (bm !! (idx / 8)%nat)). set (n := Z.of_nat (idx mod 8)).
  rewrite Z.testbit_odd.
  change 1 with (Z.ones 1) at 1. rewrite Z.land_ones by lia.
  change (2 ^ 1) with 2. rewrite <- Z.bit0_mod, Z.bit0_odd.
  by destruct (Z.odd (Z.shiftr a n)).
Qed.

Lemma testbit_to_char x n :
  0 ≤ n < 8 → Z.testbit (to_char x) n = Z.testbit x n.
Proof.
  intros Hn. unfold to_char. change 256 with (2 ^ 8).
  apply Z.mod_pow2_bits_low. lia.
Qed.

Lemma slot_eq_div_mod (i j : nat) :
  i = j ↔ (i / 8 = j / 8 ∧ i mod 8 = j mod 8)%nat.
Proof.
  split; [by intros ->|]. intros [Hd Hm].
  rewrite (Nat.div_mod_eq i 8), (Nat.div_mod_eq j 8). lia.
Qed.

Lemma mod8_range (i : nat) : 0 ≤ Z.of_nat (i mod 8) < 8.
Proof. pose proof (Nat.mod_upper_bound i 8). lia. Qed.

Lemma testbit_one_off n m :
  0 ≤ n → 0 ≤ m → Z.testbit 1 (m - n) = bool_decide (n = m).
Proof.
  intros Hn Hm. case_bool_decide as E.
  - subst. by rewrite Z.sub_diag.
  - destruct (Z_lt_le_dec (m - n) 0).
    + by apply Z.testbit_neg_r.
    + apply (Z.bits_above_log2 1); simpl; lia.
Qed.

Lemma mod8_eq_iff (i j : nat) :
  (i / 8 = j / 8)%nat → Z.of_nat (i mod 8) = Z.of_nat (j mod 8) ↔ i = j.
Proof.
  intros Hd. split; [|by intros ->].
  intros Hm. apply slot_eq_div_mod. split; [done | lia].
Qed.

Lemma get_bit_clear_bit bm i j :
  get_bit (clear_bit bm i) j = if decide (i = j) then false else get_bit bm j.
Proof.
  rewrite !get_bit_testbit. unfold clear_bit.
  pose proof (mod8_range i) as Hi. pose proof (mod8_range j) as Hj.
  destruct (decide (i / 8 = j / 8)%nat) as [Hd|Hd].
  - pose proof (mod8_eq_iff i j Hd) as Hiff.
    rewrite <- Hd, list_lookup_alter_eq.
    set (ni := Z.of_nat (i mod 8)) in *. set (nj := Z.of_nat (j mod 8)) in *.
    destruct (bm !! (i / 8)%nat) as [a|] eqn:Ea;
      cbn [default fmap option_fmap option_map]; unfold id.
    + rewrite testbit_to_char by done.
      rewrite Z.land_spec, Z.lnot_spec by lia.
      rewrite Z.shiftl_spec by lia.
      rewrite testbit_one_off by lia.
      destruct (decide (i = j)) as [Heq|Hne].
      * rewrite bool_decide_eq_true_2 by (by apply Hiff).
        apply andb_false_r.
      * rewrite bool_decide_eq_false_2 by (intros E; by apply Hne, Hiff).
        apply andb_true_r.
    + rewrite Z.bits_0. by destruct (decide (i = j)).
  - rewrite list_lookup_alter_ne by done.
    destruct (decide (i = j)) as [->|]; [done | reflexivity].
Qed.

Lemma get_bit_set_bit bm i j :
  (i / 8 < length bm)%nat →
  get_bit (set_bit bm i) j = if decide (i = j) then true else get_bit bm j.
Proof.
  intros Hlen. rewrite !get_bit_testbit. unfold set_bit.
  pose proof (mod8_range i) as Hi. pose proof (mod8_range j) as Hj.
  destruct (decide (i / 8 = j / 8)%nat) as [Hd|Hd].
  - pose proof (mod8_eq_iff i j Hd) as Hiff.
    rewrite <- Hd, list_lookup_alter_eq.
    destruct (lookup_lt_is_Some_2 bm _ Hlen) as [a Ea]. rewrite Ea.
    set (ni := Z.of_nat (i mod 8)) in *. set (nj := Z.of_nat (j mod 8)) in *.
    cbn [default fmap option_fmap option_map]; unfold id.
    rewrite testbit_to_char by done.
    rewrite Z.lor_spec, Z.shiftl_spec by lia.
    rewrite testbit_one_off by lia.
    destruct (decide (i = j)) as [Heq|Hne].
    + rewrite bool_decide_eq_true_2 by (by apply Hiff).
      apply orb_true_r.
    + rewrite bool_decide_eq_false_2 by (intros E; by apply Hne, Hiff).
      apply orb_false_r.
  - rewrite list_lookup_alter_ne by done.
    destruct (decide (i = j)) as [->|]; [done | reflexivity].
Qed.

Lemma get_bit_zeros n j : get_bit (replicate n 0) j = false.
Proof.
  rewrite get_bit_testbit.
  destruct (replicate n 0 !! (j / 8)%nat) as [a|] eqn:E; simpl.
  - apply lookup_replicate in E as [-> _]. apply Z.bits_0.
  - apply Z.bits_0.
Qed.

Section Sized.

Variable B : nat.

Lemma IsReadable_lt b j : IsReadable B b j = true → (j < B)%nat.
Proof.
  unfold IsReadable. destruct (B <=? j)%nat eqn:E; [done|].
  intros _. by apply Nat.leb_gt.
Qed.

Lemma IsReadable_occupied b j : IsReadable B b j = true → IsOccupied B b j = true.
Proof.
  unfold IsReadable. destruct (B <=? j)%nat; [done|].
  by destruct (IsOccupied B b j).
Qed.

Lemma IsOccupied_RemoveAt b i j : IsOccupied B (RemoveAt B b i) j = IsOccupied B b j.
Proof.
  unfold RemoveAt, UnsetReadable.
  destruct (IsReadable B b i); simpl; [|done].
  by destruct (B <=? i)%nat.
Qed.

Lemma array_RemoveAt b i : array_ (RemoveAt B b i) = array_ b.
Proof.
  unfold RemoveAt, UnsetReadable.
  destruct (IsReadable B b i); simpl; [|done].
  by destruct (B <=? i)%nat.
Qed.

Lemma IsReadable_UnsetReadable b i j :
  IsReadable B (UnsetReadable B b i) j =
  if decide (i = j) then false else IsReadable B b j.
Proof.
  unfold UnsetReadable.
  destruct (B <=? i)%nat eqn:Ei.
  - destruct (decide (i = j)) as [<-|]; [|done].
    unfold IsReadable. by rewrite Ei.
  - unfold IsReadable, IsOccupied; simpl.
    destruct (B <=? j)%nat; [by destruct (decide (i = j))|].
    destruct (get_bit (occupied_ b) j); simpl; [|by destruct (decide (i = j))].
    apply get_bit_clear_bit.
Qed.

Lemma IsReadable_RemoveAt b i j :
  IsReadable B (RemoveAt B b i) j =
  if decide (i = j) then false else IsReadable B b j.
Proof.
  unfold RemoveAt. destruct (IsReadable B b i) eqn:Er; simpl.
  - apply IsReadable_UnsetReadable.
  - destruct (decide (i = j)) as [<-|]; done.
Qed.

Lemma KeyAt_RemoveAt_ne b i j : i ≠ j → KeyAt B (RemoveAt B b i) j = KeyAt B b j.
Proof.
  intros Hne. unfold KeyAt. rewrite IsReadable_RemoveAt, array_RemoveAt.
  by destruct (decide (i = j)).
Qed.

Lemma ValueAt_RemoveAt_ne b i j : i ≠ j → ValueAt B (RemoveAt B b i) j = ValueAt B b j.
Proof.
  intros Hne. unfold ValueAt. rewrite IsReadable_RemoveAt, array_RemoveAt.
  by destruct (decide (i = j)).
Qed.

Lemma RemoveAt_readable b i :
  IsReadable B b i = true → RemoveAt B b i = UnsetReadable B b i.
Proof. intros H. unfold RemoveAt. by rewrite H. Qed.

(** [NumReadable] counts at most one per slot, and reaches the number of
    slots only if every slot is live. *)
Lemma NumReadable_loop_le n i b cnt :
  (NumReadable_loop B n i b cnt ≤ cnt + n)%nat.
Proof.
  revert i cnt. induction n as [|n IH]; intros i cnt; simpl; [lia|].
  destruct (IsOccupied B b i); [|lia].
  destruct (IsReadable B b i); etrans; try apply IH; lia.
Qed.

Lemma NumReadable_loop_all n i b cnt :
  NumReadable_loop B n i b cnt = (cnt + n)%nat →
  ∀ j, (i ≤ j < i + n)%nat → IsReadable B b j = true.
Proof.
  revert i cnt. induction n as [|n IH]; intros i cnt Heq j Hj; simpl in *; [lia|].
  destruct (IsOccupied B b i); [|lia].
  destruct (IsReadable B b i) eqn:Er.
  - destruct (decide (j = i)) as [->|]; [done|].
    apply (IH (S i) (S cnt)); [rewrite Heq|]; lia.
  - pose proof (NumReadable_loop_le n (S i) b cnt). lia.
Qed.

Lemma IsFull_all_readable b :
  IsFull B b = true → ∀ j, (j < B)%nat → IsReadable B b j = true.
Proof.
  unfold IsFull, NumReadable. intros H%Nat.eqb_eq j Hj.
  apply (NumReadable_loop_all B 0 b 0); [done | lia].
Qed.

Lemma GetValue_loop_mono n i b k r v :
  v ∈ r → v ∈ GetValue_loop B n i b k r.
Proof.
  revert i r. induction n as [|n IH]; intros i r Hin; simpl; [done|].
  destruct (IsOccupied B b i); [|done].
  apply IH. destruct (_ && _); [|done]. apply elem_of_app. by left.
Qed.

Lemma GetValue_loop_complete n i b k r j :
  (i ≤ j < i + n)%nat →
  (∀ j', (i ≤ j' ≤ j)%nat → IsOccupied B b j' = true) →
  IsReadable B b j = true →
  KeyAt B b j = k →
  ValueAt B b j ∈ GetValue_loop B n i b k r.
Proof.
  revert i r. induction n as [|n IH]; intros i r Hj Hocc Hr Hk; simpl; [lia|].
  rewrite Hocc by lia.
  destruct (decide (j = i)) as [->|Hne].
  - rewrite Hr, Hk, Z.eqb_refl. simpl.
    apply GetValue_loop_mono, elem_of_app. right. by apply list_elem_of_singleton.
  - apply IH; [lia | | done | done]. intros j' Hj'. apply Hocc. lia.
Qed.

Lemma GetValue_loop_sound n i b k r v :
  v ∈ GetValue_loop B n i b k r →
  v ∈ r ∨ holds B b k v.
Proof.
  revert i r. induction n as [|n IH]; intros i r Hin; simpl in *; [by left|].
  destruct (IsOccupied B b i); [|by left].
  apply IH in Hin as [Hin|?]; [|by right].
  destruct (IsReadable B b i) eqn:Er; simpl in Hin; [|by left].
  destruct (KeyAt B b i =? k) eqn:Ek; [|by left].
  apply elem_of_app in Hin as [?|Hin]; [by left|].
  apply list_elem_of_singleton in Hin as ->.
  right. exists i. apply Z.eqb_eq in Ek. done.
Qed.

Lemma packed_readable_lt b m j :
  packed B b m → IsReadable B b j = true → (j < m)%nat.
Proof.
  intros (_ & _ & _ & _ & _ & Hno) Hr.
  destruct (le_lt_dec m j) as [Hle|]; [|done].
  apply IsReadable_occupied in Hr. rewrite Hno in Hr; done.
Qed.

(** In a packed bucket [GetValue] returns exactly the values live under
    the key. *)
Lemma packed_GetValue b m k v :
  packed B b m → (v ∈ (GetValue B b k []).2 ↔ holds B b k v).
Proof.
  intros Hp. unfold GetValue; simpl. split.
  - intros [Hin|?]%GetValue_loop_sound; [|done]. by apply elem_of_nil in Hin.
  - intros (j & Hr & Hk & Hv). subst v.
    pose proof (packed_readable_lt _ _ _ Hp Hr) as Hjm.
    destruct Hp as (Hm & _ & _ & _ & Hlive & _).
    apply GetValue_loop_complete; [lia | | done | done].
    intros j' Hj'. apply IsReadable_occupied, Hlive. lia.
Qed.

Lemma first_unoccupied_packed n i b m :
  packed B b m → (n + i = B)%nat → (i ≤ m)%nat →
  first_unoccupied B n i b = m.
Proof.
  intros Hp. pose proof Hp as (Hm & _ & _ & _ & Hlive & Hno).
  revert i. induction n as [|n IH]; intros i Hni Him; simpl; [lia|].
  destruct (IsOccupied B b i) eqn:Eo.
  - apply IH; [lia|].
    destruct (le_lt_dec m i) as [Hle|]; [|lia].
    rewrite Hno in Eo; done.
  - destruct (decide (i = m)) as [|Hne]; [done|].
    assert (IsReadable B b i = true) as Hr%IsReadable_occupied by (apply Hlive; lia).
    congruence.
Qed.

Lemma byte_index_lt m : (m < B)%nat → (m / 8 < (B - 1) / 8 + 1)%nat.
Proof.
  intros Hm. assert (m / 8 ≤ (B - 1) / 8)%nat; [|lia].
  apply Nat.Div0.div_le_mono. lia.
Qed.

(** What [Insert] stores when it takes slot [m] of a packed bucket. *)
Lemma Insert_packed_fresh b m k v :
  packed B b m → (m < B)%nat →
  existsb (λ v', v =? v') (GetValue B b k []).2 = false →
  Insert B b k v =
  (true, mkBucket (set_bit (occupied_ b) m) (set_bit (readable_ b) m)
                  (<[m := (k, v)]> (array_ b))).
Proof.
  intros Hp Hm Hdup. pose proof Hp as (_ & Ha & Ho & Hr & _ & _).
  unfold Insert. rewrite Hdup.
  rewrite (first_unoccupied_packed B 0 b m Hp) by lia.
  assert ((m =? B)%nat = false) as -> by (apply Nat.eqb_neq; lia).
  f_equal. unfold SetReadable, SetOccupied, IsOccupied.
  assert ((B <=? m)%nat = false) as -> by (apply Nat.leb_gt; lia).
  simpl.
  rewrite get_bit_set_bit by (rewrite Ho; by apply byte_index_lt).
  destruct (decide (m = m)); done.
Qed.

Lemma Insert_packed b m k v :
  packed B b m → (m < B)%nat →
  packed B (Insert B b k v).2 (if (Insert B b k v).1 then S m else m) ∧
  holds B (Insert B b k v).2 k v ∧
  (∀ k' v', holds B b k' v' → holds B (Insert B b k v).2 k' v').
Proof.
  intros Hp Hm.
  destruct (existsb (λ v', v =? v') (GetValue B b k []).2) eqn:Hdup.
  - assert (Insert B b k v = (false, b)) as ->
      by (unfold Insert; by rewrite Hdup).
    simpl. split; [done|]. split; [|done].
    apply existsb_exists in Hdup as (x & Hin & Hx%Z.eqb_eq). subst x.
    apply (packed_GetValue b m); [done|]. by apply list_elem_of_In.
  - rewrite (Insert_packed_fresh b m k v Hp Hm Hdup). simpl.
    pose proof Hp as (_ & Ha & Ho & Hr & Hlive & Hno).
    set (b' := mkBucket _ _ _).
    assert (HleB : ∀ j, (j < B)%nat → (B <=? j)%nat = false)
      by (intros; apply Nat.leb_gt; lia).
    assert (Hocc : ∀ j, IsOccupied B b' j =
                        if decide (m = j) then true else IsOccupied B b j).
    { intros j. unfold IsOccupied; simpl.
      destruct (B <=? j)%nat eqn:E.
      - apply Nat.leb_le in E. destruct (decide (m = j)); [lia | done].
      - apply get_bit_set_bit. rewrite Ho. by apply byte_index_lt. }
    assert (Hrd : ∀ j, IsReadable B b' j =
                       if decide (m = j) then true else IsReadable B b j).
    { intros j. unfold IsReadable. rewrite Hocc. simpl.
      destruct (B <=? j)%nat eqn:E.
      - apply Nat.leb_le in E. destruct (decide (m = j)); [lia | done].
      - rewrite get_bit_set_bit by (rewrite Hr; by apply byte_index_lt).
        destruct (decide (m = j)); [done|].
        reflexivity. }
    split; [|split].
    + repeat split.
      * lia.
      * simpl. by rewrite length_insert.
      * simpl. unfold set_bit. by rewrite length_alter.
      * simpl. unfold set_bit. by rewrite length_alter.
      * intros j Hj. rewrite Hrd. destruct (decide (m = j)); [done|].
        apply Hlive. lia.
      * intros j Hj. rewrite Hocc. destruct (decide (m = j)); [lia|].
        apply Hno. lia.
    + exists m. unfold KeyAt, ValueAt. rewrite Hrd. simpl.
      destruct (decide (m = m)); [|done]. simpl.
      rewrite list_lookup_insert_eq by lia. done.
    + intros k' v' (j & Hj & Hk & Hv).
      pose proof (packed_readable_lt _ _ _ Hp Hj) as Hjm.
      exists j. unfold KeyAt, ValueAt in *. rewrite Hrd. simpl.
      destruct (decide (m = j)); [lia|].
      rewrite Hj in *. simpl in *.
      rewrite list_lookup_insert_ne by done. done.
Qed.

Lemma GetValue_loop_none b k n i r :
  (∀ j, (i ≤ j)%nat → IsReadable B b j && (KeyAt B b j =? k) = false) →
  GetValue_loop B n i b k r = r.
Proof.
  revert i r. induction n as [|n IH]; intros i r Hno; simpl; [done|].
  destruct (IsOccupied B b i); [|done].
  rewrite Hno by lia. apply IH. intros j Hj. apply Hno. lia.
Qed.

Lemma NumReadable_loop_packed b m n i cnt :
  packed B b m → (n + i = B)%nat → (i ≤ m)%nat →
  NumReadable_loop B n i b cnt = (cnt + (m - i))%nat.
Proof.
  intros Hp. pose proof Hp as (Hm & _ & _ & _ & Hlive & Hno).
  revert i cnt. induction n as [|n IH]; intros i cnt Hni Him; simpl; [lia|].
  destruct (IsOccupied B b i) eqn:Eo.
  - assert (i < m)%nat.
    { destruct (le_lt_dec m i) as [Hle|]; [|lia]. rewrite Hno in Eo; done. }
    rewrite Hlive by lia. rewrite IH by lia. lia.
  - destruct (decide (i = m)) as [|Hne]; [lia|].
    assert (IsReadable B b i = true) as Hr%IsReadable_occupied by (apply Hlive; lia).
    congruence.
Qed.

Lemma NumReadable_packed b m : packed B b m → NumReadable B b = m.
Proof.
  intros Hp. unfold NumReadable.
  rewrite (NumReadable_loop_packed b m) by (done || lia). lia.
Qed.

(** The slots of a packed bucket after [Insert] has taken slot [m]. *)
Lemma fresh_slot_reads b m k v j :
  packed B b m → (m < B)%nat →
  let b' := mkBucket (set_bit (occupied_ b) m) (set_bit (readable_ b) m)
                     (<[m := (k, v)]> (array_ b)) in
  IsReadable B b' j = (if decide (m = j) then true else IsReadable B b j) ∧
  KeyAt B b' j = (if decide (m = j) then k else KeyAt B b j) ∧
  ValueAt B b' j = (if decide (m = j) then v else ValueAt B b j).
Proof.
  intros Hp Hm b'. pose proof Hp as (_ & Ha & Ho & Hr & _ & _).
  assert (Hrd : IsReadable B b' j =
                if decide (m = j) then true else IsReadable B b j).
  { unfold IsReadable, IsOccupied. simpl.
    destruct (B <=? j)%nat eqn:E.
    - apply Nat.leb_le in E. destruct (decide (m = j)); [lia | done].
    - rewrite !get_bit_set_bit by (rewrite ?Ho, ?Hr; by apply byte_index_lt).
      destruct (decide (m = j)); done. }
  split; [done|].
  unfold KeyAt, ValueAt. rewrite Hrd. simpl.
  destruct (decide (m = j)) as [<-|Hne]; simpl.
  - rewrite list_lookup_insert_eq by lia. done.
  - rewrite list_lookup_insert_ne by done. done.
Qed.

(** Inserting the pair [(m, m)] into a bucket that holds [(j, j)] for
    [j < m] succeeds and takes slot [m]. *)
Lemma Insert_range_filled b m :
  range_filled B b m → (m < B)%nat →
  ∃ b', Bucket.Insert B b (Z.of_nat m) (Z.of_nat m) = (true, b') ∧
        range_filled B b' (S m).
Proof.
  intros [Hp Hkv] Hm.
  assert (Hnone : (GetValue B b (Z.of_nat m) []).2 = []).
  { unfold GetValue; simpl. apply GetValue_loop_none.
    intros j _. destruct (IsReadable B b j) eqn:Er; [|done]. simpl.
    pose proof (packed_readable_lt b m j Hp Er) as Hj.
    destruct (Hkv j Hj) as [-> _]. apply Z.eqb_neq. lia. }
  assert (Hdup : existsb (λ v', Z.of_nat m =? v') (GetValue B b (Z.of_nat m) []).2
                 = false) by (by rewrite Hnone).
  pose proof (Insert_packed_fresh b m _ _ Hp Hm Hdup) as Hins.
  pose proof (Insert_packed b m (Z.of_nat m) (Z.of_nat m) Hp Hm) as (Hp' & _ & _).
  rewrite Hins in Hp'. simpl in Hp'.
  eexists. split; [exact Hins|]. split; [exact Hp'|].
  intros j Hj.
  destruct (fresh_slot_reads b m (Z.of_nat m) (Z.of_nat m) j Hp Hm) as (_ & -> & ->).
  destruct (decide (m = j)) as [<-|Hne]; [done|]. apply Hkv. lia.
Qed.

Lemma packed_empty_bucket : packed B (empty_bucket B) 0.
Proof.
  unfold packed, empty_bucket; simpl.
  rewrite !length_replicate.
  repeat split; try lia.
  intros j _. unfold IsOccupied; simpl.
  destruct (B <=? j)%nat; [done|]. apply get_bit_zeros.
Qed.

End Sized.

End BucketFacts.

(** ** Extendible hash index *)

Section ExtHashFacts.
Import Bucket Directory ExtHash.

Variable B : nat.
Variable GetHash : Z → Z.

Lemma KeyAt_eq b b' j :
  array_ b' = array_ b → IsReadable B b' j = IsReadable B b j →
  KeyAt B b' j = KeyAt B b j ∧ ValueAt B b' j = ValueAt B b j.
Proof. intros Ha Hr. unfold KeyAt, ValueAt. by rewrite Ha, Hr. Qed.

(** The migration loop started at slot [i] of a bucket whose slots from [i]
    on are all live, with a packed image bucket of at most [i] entries. *)
Lemma migrate_live_suffix local_mask high_bits n :
  ∀ i bucket image cnt m b' img' cnt' stop,
  (n + i = B)%nat → (m ≤ i)%nat → packed B image m →
  (∀ j, (i ≤ j < B)%nat → IsReadable B bucket j = true) →
  migrate B GetHash n i local_mask high_bits bucket image cnt =
    (b', img', cnt', stop) →
  stop = B ∧
  (b', img') = migrate_every_slot B GetHash n i local_mask high_bits bucket image ∧
  (∃ m', packed B img' m') ∧
  array_ b' = array_ bucket ∧
  (∀ k v, holds B image k v → holds B img' k v) ∧
  (∀ j, (j < i)%nat → IsReadable B b' j = IsReadable B bucket j) ∧
  (∀ j, (i ≤ j < B)%nat →
     if Z.land (Hash GetHash (KeyAt B bucket j)) local_mask =? high_bits
     then IsReadable B b' j = false ∧
          holds B img' (KeyAt B bucket j) (ValueAt B bucket j)
     else IsReadable B b' j = true ∧
          KeyAt B b' j = KeyAt B bucket j ∧ ValueAt B b' j = ValueAt B bucket j).
Proof.
  induction n as [|n IH]; intros i bucket image cnt m b' img' cnt' stop
    Hni Hmi Hp Hlive Heq; simpl in Heq.
  - injection Heq as <- <- <- <-. simpl.
    repeat split; eauto; try lia.
  - simpl. rewrite (Hlive i) in * by lia. simpl.
    set (key := KeyAt B bucket i) in *. set (val := ValueAt B bucket i) in *.
    destruct (Z.land (Hash GetHash key) local_mask =? high_bits) eqn:Em.
    + destruct (Insert_packed B image m key val Hp ltac:(lia))
        as (Hp1 & Hh1 & Hpres1).
      set (image1 := (Bucket.Insert B image key val).2) in *.
      set (m1 := if (Bucket.Insert B image key val).1 then S m else m) in *.
      assert (Hm1 : (m1 ≤ S i)%nat) by (subst m1; destruct (_.1); lia).
      assert (Hlive1 : ∀ j, (S i ≤ j < B)%nat →
                            IsReadable B (RemoveAt B bucket i) j = true).
      { intros j Hj. rewrite IsReadable_RemoveAt.
        destruct (decide (i = j)); [lia|]. apply Hlive. lia. }
      destruct (IH (S i) _ _ _ m1 _ _ _ _ ltac:(lia) Hm1 Hp1 Hlive1 Heq)
        as (Hstop & Hevery & Hpk & Harr & Hpres & Hold & Hnew).
      rewrite <- (RemoveAt_readable B bucket i) by (apply Hlive; lia).
      split; [done|]. split; [done|]. split; [done|].
      split; [by rewrite Harr, array_RemoveAt|].
      split; [by auto|].
      split.
      * intros j Hj. rewrite Hold by lia. rewrite IsReadable_RemoveAt.
        destruct (decide (i = j)); [lia | done].
      * intros j Hj. destruct (decide (j = i)) as [->|Hne].
        -- fold key val. rewrite Em. split; [|by auto].
           rewrite Hold by lia. rewrite IsReadable_RemoveAt.
           by destruct (decide (i = i)).
        -- specialize (Hnew j ltac:(lia)).
           rewrite KeyAt_RemoveAt_ne, ValueAt_RemoveAt_ne in Hnew by done.
           done.
    + destruct (IH (S i) _ _ _ m _ _ _ _ ltac:(lia) ltac:(lia) Hp
                   ltac:(intros; apply Hlive; lia) Heq)
        as (Hstop & Hevery & Hpk & Harr & Hpres & Hold & Hnew).
      split; [done|]. split; [done|]. split; [done|].
      split; [done|]. split; [done|].
      split; [intros; apply Hold; lia|].
      intros j Hj. destruct (decide (j = i)) as [->|Hne].
      * fold key. rewrite Em.
        rewrite (Hold i) by lia. split; [apply Hlive; lia|].
        apply KeyAt_eq; [done | apply Hold; lia].
      * apply Hnew. lia.
Qed.



Lemma migrate_occupied local_mask high_bits n :
  ∀ i bucket image cnt b' img' cnt' stop,
  migrate B GetHash n i local_mask high_bits bucket image cnt =
    (b', img', cnt', stop) →
  ∀ j, IsOccupied B b' j = IsOccupied B bucket j.
Proof.
  induction n as [|n IH]; intros i bucket image cnt b' img' cnt' stop Heq j;
    simpl in Heq.
  - by injection Heq as <- _ _ _.
  - destruct (IsReadable B bucket i); [|by injection Heq as <- _ _ _].
    destruct (_ =? _).
    + rewrite (IH _ _ _ _ _ _ _ _ Heq). apply IsOccupied_RemoveAt.
    + by rewrite (IH _ _ _ _ _ _ _ _ Heq).
Qed.

Lemma first_unoccupied_all_occupied b n i :
  (n + i = B)%nat →
  (∀ j, (i ≤ j < B)%nat → IsOccupied B b j = true) →
  first_unoccupied B n i b = B.
Proof.
  revert i. induction n as [|n IH]; intros i Hni Hocc; simpl; [lia|].
  rewrite Hocc by lia. apply IH; [lia|]. intros j Hj. apply Hocc. lia.
Qed.

(** A bucket full of live slots rejects every [Insert]. *)
Lemma Insert_all_occupied b k v :
  (∀ j, (j < B)%nat → IsOccupied B b j = true) →
  Bucket.Insert B b k v = (false, b).
Proof.
  intros Hocc. unfold Bucket.Insert.
  destruct (existsb _ _); [done|].
  rewrite first_unoccupied_all_occupied; [|lia|intros; apply Hocc; lia].
  by rewrite Nat.eqb_refl.
Qed.

Lemma even_hash_slots h :
  Z.land h 1 = 0 → Z.land 1 h = 0 ∧ (Z.land 3 h = 0 ∨ Z.land 3 h = 2).
Proof.
  intros H1. rewrite (Z.land_comm 1), (Z.land_comm 3). split; [assumption|].
  change 1 with (Z.ones 1) in H1. change 3 with (Z.ones 2).
  rewrite Z.land_ones in * by lia.
  change (2 ^ 1) with 2 in H1. change (2 ^ 2) with 4.
  pose proof (Z.mod_pos_bound h 4 ltac:(lia)).
  assert (Hm : (h mod 4) mod 2 = h mod 2).
  { apply Z.mod_mod_divide. exists 2. reflexivity. }
  rewrite <- Hm in H1.
  assert (h mod 4 = 0 ∨ h mod 4 = 1 ∨ h mod 4 = 2 ∨ h mod 4 = 3)
    as [E|[E|[E|E]]] by lia; rewrite E in *; auto; discriminate.
Qed.

Lemma odd3_hash_slots h :
  Z.land h 3 = 3 → Z.land h 1 = 1 ∧ Z.land 1 h = 1 ∧ Z.land 3 h = 3.
Proof.
  intros H3. rewrite (Z.land_comm 1), (Z.land_comm 3).
  assert (Z.land h 1 = 1); [|auto].
  change 3 with (Z.ones 2) in H3. change 1 with (Z.ones 1) at 1.
  rewrite Z.land_ones in * by lia.
  change (2 ^ 1) with 2. change (2 ^ 2) with 4 in H3.
  rewrite <- (Z.mod_mod_divide h 4 2) by (exists 2; reflexivity).
  rewrite H3. reflexivity.
Qed.

Lemma dir_new_facts :
  GetGlobalDepthMask dir_new = 1 ∧ GetGlobalDepth dir_new = 1 ∧
  GetLocalDepth dir_new 0 = 1 ∧
  GetBucketPageId dir_new 0 = 1 ∧ GetBucketPageId dir_new 1 = 1.
Proof. vm_compute. repeat split; reflexivity. Qed.

Lemma dir_split_facts :
  global_depth_ dir_split = 2 ∧ GetGlobalDepthMask dir_split = 3 ∧
  GetBucketPageId dir_split 0 = 1 ∧ GetBucketPageId dir_split 1 = 3 ∧
  GetBucketPageId dir_split 2 = 1 ∧ GetBucketPageId dir_split 3 = 1 ∧
  GetSplitImageIndex (Grow dir_new) 0 = 1 ∧
  GetLocalDepthMask dir_split 0 = 1 ∧ GetLocalHighBits dir_split 1 = 1.
Proof. vm_compute. repeat split; reflexivity. Qed.

Lemma new_table_fields :
  dir_ (ExtendibleHashTable_new B 0) = dir_new ∧
  next_page_id_ (ExtendibleHashTable_new B 0) = 3.
Proof. split; reflexivity. Qed.

Lemma dir_split_unfold :
  SetLocalDepth (SetBucketPageId (Grow dir_new) 1 3) 1
    (GetLocalDepth (SetBucketPageId (Grow dir_new) 1 3) 0) = dir_split.
Proof.
  unfold dir_split. cbv zeta.
  destruct dir_split_facts as (_ & _ & _ & _ & _ & _ & -> & _). reflexivity.
Qed.

(** One round of the [SplitInsert] loop on the constructor's directory,
    for a key of even hash whose bucket is full: the directory becomes
    [dir_split] and the old bucket is migrated with mask 1 and high bits 1
    into the new page 3. *)
Lemma SplitInsert_loop_first_split fuel t bucket key value :
  dir_ t = dir_new → next_page_id_ t = 3 →
  FetchBucketPage t 1 = Some bucket →
  IsFull B bucket = true →
  Z.land (Hash GetHash key) 1 = 0 →
  SplitInsert_loop B GetHash (S fuel) t key value =
  SplitInsert_loop B GetHash fuel
    (set_bucket
       (set_bucket (set_dir (NewBucketPage B t).2 dir_split) 1
          (migrate B GetHash (NumReadable B bucket) 0 1 1 bucket
                   (empty_bucket B) 0).1.1.1)
       3
       (migrate B GetHash (NumReadable B bucket) 0 1 1 bucket
                (empty_bucket B) 0).1.1.2)
    key value.
Proof.
  intros Hdir Hnext Hfetch Hfull Hk.
  destruct dir_new_facts as (Hm & Hgd & Hld & Hp0 & Hp1).
  destruct dir_split_facts as (_ & _ & _ & _ & _ & _ & Himg & Hlm & Hhb).
  destruct (even_hash_slots _ Hk) as [Hk1 _].
  cbn [SplitInsert_loop].
  rewrite Hdir. unfold KeyToDirectoryIndex. rewrite Hm, Hk1, Hp0, Hfetch.
  cbn [mbind option_bind]. rewrite Hfull. cbn [negb].
  rewrite Hgd, Hld. destruct (decide (1 ≤ 1)) as [_|]; [|lia].
  rewrite Himg. unfold NewBucketPage. rewrite Hnext.
  rewrite dir_split_unfold, Hlm, Hhb.
  destruct (migrate B GetHash (NumReadable B bucket) 0 1 1 bucket
              (empty_bucket B) 0) as [[[b1 img1] c] stop].
  reflexivity.
Qed.

(** The defect behind C2, for every bucket size and hash function: take the table the constructor builds
    on a fresh pool, with its first bucket page full (every non-splitting
    [Insert] lands there, both directory slots pointing to it), a pair
    [(lost_key, lost_value)] live in it whose hash ends in the bits 11, and
    any key of even hash.  Before the call [GetValue(lost_key)] finds
    [lost_value].  [Insert(key, value)] goes through [SplitInsert], returns
    false and leaves the directory at depth 2, and afterwards
    [GetValue(lost_key)] finds nothing, although the pair was never
    removed.  This covers the insert of a new key (scenario S3) as well as
    the second insert of a pair that is already present. *)
Lemma SplitInsert_loses_key bucket key value lost_key lost_value j fuel :
  IsFull B bucket = true →
  (j < B)%nat →
  KeyAt B bucket j = lost_key →
  ValueAt B bucket j = lost_value →
  Z.land (Hash GetHash key) 1 = 0 →
  Z.land (Hash GetHash lost_key) 3 = 3 →
  let t := set_bucket (ExtendibleHashTable_new B 0) 1 bucket in
  (∃ vs, GetValue B GetHash t lost_key [] = Some (true, vs) ∧ lost_value ∈ vs) ∧
  ∃ t', Insert B GetHash (S (S fuel)) t key value = Some (false, t') ∧
        global_depth_ (dir_ t') = 2 ∧
        GetValue B GetHash t' lost_key [] = Some (false, []).
Proof.
  intros Hfull Hj Hkey Hval Hk Hlost t.
  destruct dir_new_facts as (Hm & Hgd & Hld & Hp0 & Hp1).
  destruct dir_split_facts as (Hgd2 & Hm2 & Hq0 & _ & Hq2 & Hq3 & _).
  destruct (even_hash_slots _ Hk) as [Hk1 Hk3].
  destruct (odd3_hash_slots _ Hlost) as (Hl1 & Hl1' & Hl3).
  pose proof (IsFull_all_readable B bucket Hfull) as Hlive.
  assert (Hnum : NumReadable B bucket = B)
    by (unfold IsFull in Hfull; by apply Nat.eqb_eq in Hfull).
  assert (Hdir : dir_ t = dir_new) by reflexivity.
  assert (Hfetch : FetchBucketPage t 1 = Some bucket)
    by (unfold FetchBucketPage, t; simpl; apply lookup_insert_eq).
  split.
  - unfold GetValue, KeyToPageId, KeyToDirectoryIndex.
    rewrite Hdir, Hm, Hl1', Hp1, Hfetch. cbn [mbind option_bind].
    unfold Bucket.GetValue.
    assert (Hin : lost_value ∈ GetValue_loop B B 0 bucket lost_key []).
    { subst lost_value. apply GetValue_loop_complete; [lia | | by apply Hlive | done].
      intros j' Hj'. apply IsReadable_occupied, Hlive. lia. }
    destruct (GetValue_loop B B 0 bucket lost_key []) as [|x l] eqn:E.
    + by apply elem_of_nil in Hin.
    + eexists. split; [reflexivity | done].
  - unfold Insert, SplitInsert. cbv zeta. unfold KeyToDirectoryIndex.
    rewrite Hdir, Hm, Hk1, Hp0, Hfetch. cbn [mbind option_bind].
    rewrite Hfull. cbn [negb].
    rewrite (SplitInsert_loop_first_split (S fuel) t bucket key value
               Hdir eq_refl Hfetch Hfull Hk).
    rewrite Hnum.
    destruct (migrate B GetHash B 0 1 1 bucket (empty_bucket B) 0)
      as [[[b1 img1] c] stop] eqn:Hmig.
    cbn [fst snd].
    destruct (migrate_live_suffix 1 1 B 0 bucket (empty_bucket B) 0 0%nat
                b1 img1 c stop ltac:(lia) ltac:(lia) (packed_empty_bucket B)
                ltac:(intros; apply Hlive; lia) Hmig)
      as (_ & _ & _ & _ & _ & _ & Hslots).
    pose proof (migrate_occupied 1 1 B 0 bucket (empty_bucket B) 0
                  b1 img1 c stop Hmig) as Hocc.
    assert (Hocc1 : ∀ j', (j' < B)%nat → IsOccupied B b1 j' = true).
    { intros j' Hj'. rewrite Hocc. by apply IsReadable_occupied, Hlive. }
    assert (Hgone : ∀ j', IsReadable B b1 j' && (KeyAt B b1 j' =? lost_key) = false).
    { intros j'. destruct (IsReadable B b1 j') eqn:Er; [|done]. simpl.
      pose proof (IsReadable_lt B b1 j' Er) as Hj'.
      specialize (Hslots j' ltac:(lia)).
      destruct (Z.land (Hash GetHash (KeyAt B bucket j')) 1 =? 1) eqn:Em.
      - destruct Hslots as [Hr _]. congruence.
      - destruct Hslots as (_ & Hk' & _). rewrite Hk'.
        apply Z.eqb_neq. intros Heq. rewrite Heq, Hl1 in Em. discriminate. }
    assert (Hnotfull : IsFull B b1 = false).
    { destruct (IsFull B b1) eqn:Ef; [|done].
      pose proof (IsFull_all_readable B b1 Ef j Hj) as Hr.
      specialize (Hslots j ltac:(lia)). rewrite Hkey, Hl1 in Hslots.
      simpl in Hslots. destruct Hslots as [Hr' _]. congruence. }
    set (t2 := set_bucket (set_bucket _ 1 b1) 3 img1).
    assert (Hdir2 : dir_ t2 = dir_split) by reflexivity.
    assert (Hfetch2 : FetchBucketPage t2 1 = Some b1).
    { unfold FetchBucketPage, t2; simpl.
      rewrite lookup_insert_ne by lia. apply lookup_insert_eq. }
    assert (Hpage : GetBucketPageId dir_split (Z.land 3 (Hash GetHash key)) = 1)
      by (destruct Hk3 as [-> | ->]; done).
    cbn [SplitInsert_loop]. unfold KeyToDirectoryIndex.
    rewrite Hdir2, Hm2, Hpage, Hfetch2. cbn [mbind option_bind].
    rewrite Hnotfull. cbn [negb].
    rewrite (Insert_all_occupied b1 key value Hocc1).
    eexists. split; [reflexivity|]. split; [exact Hgd2|].
    unfold GetValue, KeyToPageId, KeyToDirectoryIndex. cbn [dir_ set_bucket].
    rewrite Hdir2, Hm2, Hl3, Hq3.
    unfold FetchBucketPage. cbn [buckets_ set_bucket].
    rewrite lookup_insert_eq. cbn [mbind option_bind].
    unfold Bucket.GetValue.
    rewrite GetValue_loop_none by (intros; apply Hgone).
    reflexivity.
Qed.

Lemma land_1_cases h : Z.land 1 h = 0 ∨ Z.land 1 h = 1.
Proof.
  rewrite Z.land_comm.
  assert (Z.land h 1 = h mod 2) as ->
    by (change 1 with (Z.ones 1); by rewrite Z.land_ones by lia).
  pose proof (Z.mod_pos_bound h 2 ltac:(lia)). lia.
Qed.

(** An [Insert] that finds the one bucket page of the new table not full
    is the bucket's [Insert] on that page. *)
Lemma Insert_non_full fuel b key value :
  IsFull B b = false →
  Insert B GetHash fuel (set_bucket (ExtendibleHashTable_new B 0) 1 b) key value =
  Some ((Bucket.Insert B b key value).1,
        set_bucket (ExtendibleHashTable_new B 0) 1 (Bucket.Insert B b key value).2).
Proof.
  intros Hnf.
  destruct dir_new_facts as (Hm & _ & _ & Hp0 & Hp1).
  unfold Insert. cbv zeta. unfold KeyToDirectoryIndex.
  change (dir_ (set_bucket (ExtendibleHashTable_new B 0) 1 b)) with dir_new.
  rewrite Hm.
  assert (GetBucketPageId dir_new (Z.land 1 (Hash GetHash key)) = 1) as ->
    by (destruct (land_1_cases (Hash GetHash key)) as [-> | ->]; done).
  unfold FetchBucketPage. cbn [buckets_ set_bucket].
  rewrite lookup_insert_eq. cbn [mbind option_bind].
  rewrite Hnf. cbn [negb].
  destruct (Bucket.Insert B b key value) as [ok b']. cbn [fst snd].
  unfold set_bucket. cbn [buckets_ dir_ directory_page_id_ next_page_id_].
  by rewrite insert_insert_eq.
Qed.

(** The first inserts of scenario S3: from a table whose bucket page holds
    [(j, j)] for [j < m], the keys [m], [m + 1], ... are inserted with
    result true as long as the page has room, whatever the hash function,
    and the table changes in that page only. *)
Lemma insert_range_fills fuel k :
  ∀ m b, range_filled B b m → (m + k ≤ B)%nat →
  ∃ b', insert_range B GetHash fuel k (Z.of_nat m)
          (set_bucket (ExtendibleHashTable_new B 0) 1 b) =
        Some (replicate k true, set_bucket (ExtendibleHashTable_new B 0) 1 b') ∧
        range_filled B b' (m + k).
Proof.
  induction k as [|k IH]; intros m b Hf Hle; simpl.
  - exists b. split; [done|]. by rewrite Nat.add_0_r.
  - destruct (Insert_range_filled B b m Hf ltac:(lia)) as (b1 & Hins & Hf1).
    assert (Hnf : IsFull B b = false).
    { unfold IsFull. rewrite (NumReadable_packed B b m) by apply Hf.
      apply Nat.eqb_neq. lia. }
    rewrite (Insert_non_full fuel b _ _ Hnf), Hins. cbn [mbind option_bind fst snd].
    destruct (IH (S m) b1 Hf1 ltac:(lia)) as (b' & Hrest & Hf').
    rewrite Nat2Z.inj_succ in Hrest. unfold Z.succ in Hrest.
    rewrite Hrest. cbn [mbind option_bind].
    exists b'. split; [done|]. by rewrite <- Nat.add_succ_comm.
Qed.

Lemma new_table_bucket :
  set_bucket (ExtendibleHashTable_new B 0) 1 (empty_bucket B) =
  ExtendibleHashTable_new B 0.
Proof.
  unfold set_bucket. unfold ExtendibleHashTable_new at 4. simpl. f_equal.
Qed.

Lemma range_filled_empty : range_filled B (empty_bucket B) 0.
Proof. split; [apply packed_empty_bucket | intros; lia]. Qed.

(** C4 (the code departs from it): after the constructor the global depth
    is 1 and slots 0 and 1 have local depth 1, but both slots hold the id
    of the first bucket page; the second bucket page was allocated and is
    referenced by neither. *)
Theorem constructor_slots_share_one_bucket_page first_page_id :
  let t := ExtendibleHashTable_new B first_page_id in
  GetGlobalDepth (dir_ t) = 1 ∧
  GetLocalDepth (dir_ t) 0 = 1 ∧
  GetLocalDepth (dir_ t) 1 = 1 ∧
  GetBucketPageId (dir_ t) 0 = first_page_id + 1 ∧
  GetBucketPageId (dir_ t) 1 = first_page_id + 1 ∧
  GetBucketPageId (dir_ t) 0 = GetBucketPageId (dir_ t) 1 ∧
  buckets_ t !! (first_page_id + 1) = Some (empty_bucket B) ∧
  buckets_ t !! (first_page_id + 1 + 1) = Some (empty_bucket B).
Proof.
  cbv zeta. unfold ExtendibleHashTable_new, NewBucketPage; simpl.
  split; [reflexivity|]. split; [reflexivity|]. split; [reflexivity|].
  split; [reflexivity|]. split; [reflexivity|]. split; [reflexivity|].
  split.
  - rewrite lookup_insert_ne by lia. apply lookup_insert_eq.
  - apply lookup_insert_eq.
Qed.

End ExtHashFacts.



(** C2 (the code departs from it): scenario S3 on the [<int, int>]
    instantiation (buckets of 496 slots) with the identity hash, on a fresh
    pool.  The inserts of the keys 0 .. 495 all return true and [GetValue(3)]
    then finds 3.  From that table [Insert(496, 496)] returns false and
    leaves an index of global depth 2 in which [GetValue(3)] finds nothing,
    although [(3, 3)] was inserted and never removed; and a second
    [Insert(0, 0)] returns false but changes the index in the same way. *)
Theorem S3_split_loses_inserted_key :
  ∃ t_full,
    ExtHash.insert_range 496 ExtHash.id_hash 10 496 0
      (ExtHash.ExtendibleHashTable_new 496 0)
    = Some (replicate 496 true, t_full) ∧
    (∃ vs, ExtHash.GetValue 496 ExtHash.id_hash t_full 3 [] = Some (true, vs) ∧
           3 ∈ vs) ∧
    (∃ t', ExtHash.Insert 496 ExtHash.id_hash 10 t_full 496 496 = Some (false, t') ∧
           Directory.global_depth_ (ExtHash.dir_ t') = 2 ∧
           ExtHash.GetValue 496 ExtHash.id_hash t' 3 [] = Some (false, [])) ∧
    (∃ t', ExtHash.Insert 496 ExtHash.id_hash 10 t_full 0 0 = Some (false, t') ∧
           Directory.global_depth_ (ExtHash.dir_ t') = 2 ∧
           ExtHash.GetValue 496 ExtHash.id_hash t' 3 [] = Some (false, [])).
Proof.
  destruct (insert_range_fills 496 ExtHash.id_hash 10 496 0
              (Bucket.empty_bucket 496) (range_filled_empty 496) ltac:(lia))
    as (b & Hfill & Hp & Hkv).
  rewrite new_table_bucket in Hfill.
  assert (Hfull : Bucket.IsFull 496 b = true).
  { unfold Bucket.IsFull. rewrite (NumReadable_packed 496 b 496 Hp).
    apply Nat.eqb_refl. }
  destruct (Hkv 3%nat ltac:(lia)) as [Hk3 Hv3].
  exists (ExtHash.set_bucket (ExtHash.ExtendibleHashTable_new 496 0) 1 b).
  split; [exact Hfill|].
  destruct (SplitInsert_loses_key 496 ExtHash.id_hash b 496 496 3 3 3%nat 8%nat
              Hfull ltac:(lia) Hk3 Hv3 eq_refl eq_refl) as [Hbefore Hsplit].
  destruct (SplitInsert_loses_key 496 ExtHash.id_hash b 0 0 3 3 3%nat 8%nat
              Hfull ltac:(lia) Hk3 Hv3 eq_refl eq_refl) as [_ Hdup].
  split; [exact Hbefore|]. split; [exact Hsplit | exact Hdup].
Qed.

(** The bucket size used above is the one the layout formula gives for an
    8-byte pair on a 4096-byte page. *)
Lemma BUCKET_ARRAY_SIZE_int_int_value :
  ExtHash.BUCKET_ARRAY_SIZE_int_int = 496%nat.
Proof. vm_compute. reflexivity. Qed.

(* ================================================================== *)
(** * Further properties *)
(* ================================================================== *)

(** ** LRU replacer *)

Section LRUFacts.
Import LRU.

Lemma erase_node_elem f l x :
  NoDup l → x ∈ erase_node f l ↔ x ∈ l ∧ x ≠ f.
Proof.
  induction l as [|y l IH]; intros Hnd; simpl.
  - split; [by intros ?%elem_of_nil | by intros [?%elem_of_nil _]].
  - apply NoDup_cons in Hnd as [Hy Hnd].
    destruct (decide (y = f)) as [->|Hne].
    + rewrite elem_of_cons. split.
      * intros Hx. split; [by right|]. by intros ->.
      * intros [[->|?] ?]; done.
    + rewrite !elem_of_cons, IH by done. split.
      * intros [->|[? ?]]; split; auto.
      * intros [[->|?] ?]; auto.
Qed.

Lemma erase_node_NoDup f l : NoDup l → NoDup (erase_node f l).
Proof.
  induction l as [|y l IH]; intros Hnd; simpl; [done|].
  apply NoDup_cons in Hnd as [Hy Hnd].
  destruct (decide (y = f)); [done|].
  apply NoDup_cons. split; [|by apply IH].
  rewrite erase_node_elem by done. by intros [? _].
Qed.

Lemma erase_node_length f l : (length (erase_node f l) ≤ length l)%nat.
Proof.
  induction l as [|y l IH]; simpl; [done|].
  destruct (decide (y = f)); simpl; lia.
Qed.

Lemma erase_node_last f l : f ∉ l → erase_node f (l ++ [f]) = l.
Proof.
  induction l as [|y l IH]; intros Hnin; simpl.
  - by destruct (decide (f = f)).
  - apply not_elem_of_cons in Hnin as [Hne Hnin].
    destruct (decide (y = f)); [congruence|]. by rewrite IH.
Qed.

Lemma wf_Victim r : wf r → wf (Victim r).2.
Proof.
  intros (Hnd & Hmap & Hlen). unfold Victim.
  destruct (lru_list_ r) as [|f l] eqn:E; simpl.
  - unfold wf. by rewrite E.
  - apply NoDup_cons in Hnd as [Hf Hnd].
    split; [done|]. split; [|simpl in *; lia].
    simpl. intros x. rewrite elem_of_difference, <- Hmap, elem_of_cons, elem_of_singleton.
    split; [intros Hx; split; [by right | by intros ->] | intros [[->|?] ?]; done].
Qed.

Lemma wf_Pin f r : wf r → wf (Pin f r).
Proof.
  intros (Hnd & Hmap & Hlen). unfold Pin.
  destruct (decide (f ∈ lru_map_ r)); [|done].
  split; [by apply erase_node_NoDup|]. split; simpl.
  - intros x. rewrite erase_node_elem, elem_of_difference, Hmap by done.
    by rewrite elem_of_singleton.
  - pose proof (erase_node_length f (lru_list_ r)). lia.
Qed.

Lemma Unpin_overflows_true f r :
  Unpin_overflows f r = true ↔
  (f ∉ lru_map_ r) ∧ (lru_size_ r ≤ length (lru_list_ r))%nat.
Proof.
  unfold Unpin_overflows. rewrite bool_decide_eq_true.
  split; intros [? ?]; split; (done || lia).
Qed.

Lemma Unpin_overflows_room f r :
  (length (lru_list_ r) < lru_size_ r)%nat → Unpin_overflows f r = false.
Proof.
  intros Hlen. apply not_true_is_false. rewrite Unpin_overflows_true.
  intros [_ ?]. lia.
Qed.

(** [Unpin_call] in terms of [Unpin] and [Unpin_overflows]. *)
Lemma Unpin_call_cases assertions f r :
  Unpin_call assertions f r =
  if assertions && Unpin_overflows f r then None else Some (Unpin f r).
Proof.
  unfold Unpin_call, Unpin, Unpin_overflows.
  destruct (decide (f ∈ lru_map_ r)) as [Hin|Hnin].
  - rewrite bool_decide_eq_false_2 by (intros [? _]; done).
    by rewrite andb_false_r.
  - simpl. rewrite length_app. simpl.
    destruct (decide (lru_size_ r < length (lru_list_ r) + 1)%nat) as [Hov|Hov].
    + rewrite bool_decide_eq_true_2 by (split; [done | lia]).
      by destruct assertions.
    + rewrite bool_decide_eq_false_2 by (intros [_ ?]; lia).
      by rewrite andb_false_r.
Qed.

Lemma wf_Unpin f r : wf r → Unpin_overflows f r = false → wf (Unpin f r).
Proof.
  intros Hwf Hov. pose proof Hwf as (Hnd & Hmap & Hlen). unfold Unpin.
  destruct (decide (f ∈ lru_map_ r)) as [|Hnin]; [done|].
  assert (Hroom : (length (lru_list_ r) < lru_size_ r)%nat).
  { destruct (decide (length (lru_list_ r) < lru_size_ r)%nat); [done|].
    assert (Unpin_overflows f r = true)
      by (apply Unpin_overflows_true; split; [done | lia]).
    congruence. }
  split; [|split]; simpl.
  - apply NoDup_app. split; [done|]. split; [|apply NoDup_singleton].
    intros x Hx ->%list_elem_of_singleton. by apply Hnin, Hmap.
  - intros x. rewrite elem_of_app, elem_of_union, Hmap.
    by rewrite list_elem_of_singleton, elem_of_singleton.
  - rewrite length_app. simpl. lia.
Qed.

(** X1: the replacer keeps its two containers consistent: if no frame is
    listed twice, the map keys are exactly the listed frames and the list
    fits the capacity, the same holds after [Victim], after [Pin] of any
    frame, and after [Unpin] of any frame for which the list does not
    outgrow the capacity; such an [Unpin] returns in every build. *)
Theorem LRU_operations_keep_wf r :
  wf r →
  wf (Victim r).2 ∧
  (∀ f, wf (Pin f r)) ∧
  (∀ f, Unpin_overflows f r = false →
        (∀ assertions, Unpin_call assertions f r = Some (Unpin f r)) ∧
        wf (Unpin f r)).
Proof.
  intros Hwf. split; [by apply wf_Victim|].
  split; [intros f; by apply wf_Pin|].
  intros f Hov. split; [|by apply wf_Unpin].
  intros assertions. rewrite Unpin_call_cases, Hov.
  by rewrite andb_false_r.
Qed.

Lemma wf_init n : wf (init n).
Proof.
  split; [apply NoDup_nil_2|]. split; [|simpl; lia].
  intros x. simpl. split; [by intros ?%elem_of_nil | by intros ?%elem_of_empty].
Qed.

Lemma LRU_operations_keep_wf_witness :
  wf (Victim (Unpin 2 (Unpin 1 (init 4)))).2 ∧
  (∀ f, wf (Pin f (Unpin 2 (Unpin 1 (init 4))))) ∧
  Unpin_overflows 3 (Unpin 2 (Unpin 1 (init 4))) = false ∧
  (∀ assertions,
     Unpin_call assertions 3 (Unpin 2 (Unpin 1 (init 4))) =
     Some (Unpin 3 (Unpin 2 (Unpin 1 (init 4))))) ∧
  wf (Unpin 3 (Unpin 2 (Unpin 1 (init 4)))).
Proof.
  assert (H1 : Unpin_overflows 1 (init 4) = false) by (vm_compute; reflexivity).
  assert (H2 : Unpin_overflows 2 (Unpin 1 (init 4)) = false)
    by (vm_compute; reflexivity).
  assert (H3 : Unpin_overflows 3 (Unpin 2 (Unpin 1 (init 4))) = false)
    by (vm_compute; reflexivity).
  destruct (LRU_operations_keep_wf (Unpin 2 (Unpin 1 (init 4)))
              (wf_Unpin 2 _ (wf_Unpin 1 _ (wf_init 4) H1) H2))
    as (Hv & Hp & Hu).
  split; [exact Hv|]. split; [exact Hp|]. split; [exact H3|].
  exact (Hu 3 H3).
Defined.

Lemma Unpin_room f r :
  f ∉ lru_map_ r → (length (lru_list_ r) < lru_size_ r)%nat →
  Unpin f r = mkLRU (lru_size_ r) (lru_list_ r ++ [f]) (lru_map_ r ∪ {[f]}).
Proof.
  intros Hnin Hlen. unfold Unpin.
  by destruct (decide (f ∈ lru_map_ r)).
Qed.

Lemma unpin_all_list fs :
  ∀ r, wf r → NoDup fs → (∀ f, f ∈ fs → f ∉ lru_list_ r) →
  (length (lru_list_ r) + length fs ≤ lru_size_ r)%nat →
  lru_list_ (unpin_all fs r) = lru_list_ r ++ fs.
Proof.
  induction fs as [|f fs IH]; intros r Hwf Hnd Hfresh Hlen; simpl.
  - by rewrite app_nil_r.
  - apply NoDup_cons in Hnd as [Hf Hnd]. simpl in Hlen.
    pose proof Hwf as (_ & Hmap & _).
    assert (Hnin : f ∉ lru_map_ r).
    { rewrite <- Hmap. apply Hfresh. by left. }
    unfold unpin_all in *. rewrite IH.
    + rewrite Unpin_room by (done || lia). simpl. by rewrite <- app_assoc.
    + apply wf_Unpin; [done | apply Unpin_overflows_room; lia].
    + done.
    + intros g Hg. rewrite Unpin_room by (done || lia). simpl.
      rewrite elem_of_app, list_elem_of_singleton.
      intros [Hin | ->]; [|done]. apply (Hfresh g); [by right | done].
    + rewrite Unpin_room by (done || lia). simpl.
      rewrite length_app. simpl. lia.
Qed.

Lemma drain_take k : ∀ r, drain k r = take k (lru_list_ r).
Proof.
  induction k as [|k IH]; intros r; simpl; [done|].
  unfold Victim. destruct (lru_list_ r) as [|f l] eqn:E; simpl; [done|].
  by rewrite IH.
Qed.

(** X2: victims come out in the order of the [Unpin] calls.  Starting from
    an empty replacer of capacity [n], after [Unpin] of pairwise distinct
    frames [fs] (at most [n] of them), the next [length fs] calls of
    [Victim] return exactly [fs], first unpinned first, and the call
    after them fails. *)
Theorem Victim_order_is_Unpin_order n fs :
  NoDup fs → (length fs ≤ n)%nat →
  drain (length fs) (unpin_all fs (init n)) = fs ∧
  drain (S (length fs)) (unpin_all fs (init n)) = fs ∧
  Size (unpin_all fs (init n)) = length fs.
Proof.
  intros Hnd Hlen.
  assert (Hl : lru_list_ (unpin_all fs (init n)) = fs).
  { rewrite unpin_all_list; [done | apply wf_init | done | | simpl; lia].
    intros f _. simpl. apply not_elem_of_nil. }
  unfold Size. rewrite !drain_take, Hl.
  split; [apply firstn_all|]. split; [|done].
  apply take_ge. lia.
Qed.

Lemma Victim_order_is_Unpin_order_witness :
  drain 4 (unpin_all [1; 2; 3; 4] (init 4)) = [1; 2; 3; 4] ∧
  drain 5 (unpin_all [1; 2; 3; 4] (init 4)) = [1; 2; 3; 4] ∧
  Size (unpin_all [1; 2; 3; 4] (init 4)) = 4%nat.
Proof.
  apply (Victim_order_is_Unpin_order 4 [1; 2; 3; 4]).
  - apply (bool_decide_unpack _). vm_compute. exact I.
  - simpl. lia.
Defined.

(** X3: [Pin] undoes [Unpin].  For a frame the replacer does not track,
    while there is room, [Unpin] followed by [Pin] of that frame gives
    back the replacer as it was; and [Pin] of a frame that is not tracked
    changes nothing. *)
Theorem Pin_undoes_Unpin f r :
  wf r → f ∉ lru_map_ r → (length (lru_list_ r) < lru_size_ r)%nat →
  Pin f (Unpin f r) = r ∧ Pin f r = r.
Proof.
  intros (Hnd & Hmap & _) Hnin Hlen. split.
  - rewrite Unpin_room by done. unfold Pin. simpl.
    destruct (decide (f ∈ lru_map_ r ∪ {[f]})) as [_|Hn];
      [|exfalso; apply Hn, elem_of_union; right; by apply elem_of_singleton].
    rewrite erase_node_last by (by rewrite Hmap).
    destruct r as [sz l m]. simpl in *. f_equal.
    apply set_eq. intros x.
    rewrite elem_of_difference, elem_of_union, elem_of_singleton.
    split; [intros [[?|?] ?]; done|]. intros Hx. split; [by left|].
    by intros ->.
  - unfold Pin. by destruct (decide (f ∈ lru_map_ r)).
Qed.

Lemma Pin_undoes_Unpin_witness :
  Pin 7 (Unpin 7 (Unpin 1 (init 4))) = Unpin 1 (init 4) ∧
  Pin 7 (Unpin 1 (init 4)) = Unpin 1 (init 4).
Proof.
  apply (Pin_undoes_Unpin 7 (Unpin 1 (init 4))).
  - apply wf_Unpin; [apply wf_init | vm_compute; reflexivity].
  - apply (bool_decide_unpack _). vm_compute. exact I.
  - vm_compute. lia.
Defined.

(** X4: a replacer at capacity evicts nothing when a new frame is
    unpinned.  Built with assertions, the call does not return: the
    [Victim] inside the [assert] locks the latch that [Unpin] holds.  Built
    with NDEBUG, the frame is appended, the list is one longer than
    [lru_size_], and the oldest frame is still tracked and still the next
    victim. *)
Theorem Unpin_at_capacity_evicts_nothing f r oldest rest :
  f ∉ lru_map_ r →
  lru_list_ r = oldest :: rest →
  length (lru_list_ r) = lru_size_ r →
  Unpin_call true f r = None ∧
  Unpin_call false f r = Some (Unpin f r) ∧
  lru_list_ (Unpin f r) = oldest :: rest ++ [f] ∧
  Size (Unpin f r) = S (lru_size_ r) ∧
  (Victim (Unpin f r)).1 = Some oldest.
Proof.
  intros Hnin Hl Hlen.
  assert (Hov : Unpin_overflows f r = true)
    by (apply Unpin_overflows_true; split; [done | lia]).
  rewrite !Unpin_call_cases, Hov. simpl.
  split; [done|]. split; [done|].
  assert (Hlist : lru_list_ (Unpin f r) = oldest :: rest ++ [f]).
  { unfold Unpin. destruct (decide (f ∈ lru_map_ r)); [done|].
    simpl. by rewrite Hl. }
  split; [done|]. split.
  - unfold Size. rewrite Hlist, <- Hlen, Hl. simpl.
    rewrite length_app. simpl. lia.
  - unfold Victim. by rewrite Hlist.
Qed.

Lemma Unpin_at_capacity_evicts_nothing_witness :
  Unpin_call true 3 (Unpin 2 (Unpin 1 (init 2))) = None ∧
  Unpin_call false 3 (Unpin 2 (Unpin 1 (init 2))) =
    Some (Unpin 3 (Unpin 2 (Unpin 1 (init 2)))) ∧
  lru_list_ (Unpin 3 (Unpin 2 (Unpin 1 (init 2)))) = 1 :: [2] ++ [3] ∧
  Size (Unpin 3 (Unpin 2 (Unpin 1 (init 2)))) =
    S (lru_size_ (Unpin 2 (Unpin 1 (init 2)))) ∧
  (Victim (Unpin 3 (Unpin 2 (Unpin 1 (init 2))))).1 = Some 1.
Proof.
  apply (Unpin_at_capacity_evicts_nothing 3 (Unpin 2 (Unpin 1 (init 2))) 1 [2]).
  - apply (bool_decide_unpack _). vm_compute. exact I.
  - vm_compute. reflexivity.
  - vm_compute. reflexivity.
Defined.

End LRUFacts.

(** ** Buffer pool manager: bookkeeping *)

Section BPMInvariant.
Import BPM.

Lemma frame_upd_other s f g h :
  0 ≤ f → 0 ≤ h → f ≠ h →
  frame (set_pages s (upd_frame f g (pages_ s))) h = frame s h.
Proof.
  intros Hf Hh Hne. unfold frame, upd_frame; simpl.
  rewrite list_lookup_alter_ne by lia. done.
Qed.

Lemma frame_upd s f g h :
  0 ≤ f → 0 ≤ h → (Z.to_nat f < length (pages_ s))%nat →
  frame (set_pages s (upd_frame f g (pages_ s))) h =
  if decide (f = h) then g (frame s f) else frame s h.
Proof.
  intros Hf Hh Hlen. destruct (decide (f = h)) as [<-|Hne].
  - by apply frame_upd_same.
  - by apply frame_upd_other.
Qed.

Lemma in_pool_updated s s2 f g h :
  pages_updated s s2 f g → in_pool s2 h ↔ in_pool s h.
Proof.
  unfold pages_updated, in_pool, upd_frame. intros ->.
  by rewrite length_alter.
Qed.

Lemma frame_updated s s2 f g h :
  pages_updated s s2 f g → in_pool s f → 0 ≤ h →
  frame s2 h = if decide (f = h) then g (frame s f) else frame s h.
Proof.
  intros Hup [Hf Hlen] Hh.
  transitivity (frame (set_pages s (upd_frame f g (pages_ s))) h).
  - unfold frame. simpl. by rewrite Hup.
  - by apply frame_upd.
Qed.

(** Rewriting a frame without touching its page id keeps the bookkeeping,
    as long as the free list is the same and the replacer tracks nothing
    outside the pool. *)
Lemma consistent_same_page_ids s s2 f g :
  consistent s →
  pages_updated s s2 f g → in_pool s f →
  (∀ x, page_id_ (g x) = page_id_ x) →
  page_table_ s2 = page_table_ s →
  free_list_ s2 = free_list_ s →
  (∀ x, x ∈ LRU.lru_list_ (replacer_ s2) →
        x ∈ LRU.lru_list_ (replacer_ s) ∨ in_pool s x) →
  consistent s2.
Proof.
  intros (Hpt & Hnd & Hfree & Hrep) Hup Hf Hid Hpt2 Hfl2 Hrep2.
  unfold consistent. rewrite Hpt2, Hfl2.
  split; [|split; [done|split]].
  - intros p h Hph. destruct (Hpt p h Hph) as [Hin Hpid].
    split; [by apply (in_pool_updated s s2 f g)|].
    rewrite (frame_updated s s2 f g h Hup Hf) by apply Hin.
    destruct (decide (f = h)) as [<-|]; [by rewrite Hid | done].
  - intros h Hh. destruct (Hfree h Hh) as [Hin Hno].
    split; [by apply (in_pool_updated s s2 f g) | done].
  - intros x Hx. apply (in_pool_updated s s2 f g); [done|].
    destruct (Hrep2 x Hx) as [?|?]; [by apply Hrep | done].
Qed.

(** Installing page [pid] in a frame [f] that the page table does not name
    and that is not on the free list keeps the bookkeeping. *)
Lemma consistent_install s s2 f g pid :
  consistent s →
  pages_updated s s2 f g → in_pool s f →
  (∀ p, page_table_ s !! p ≠ Some f) →
  f ∉ free_list_ s →
  (∀ x, page_id_ (g x) = pid) →
  page_table_ s2 = <[pid := f]> (page_table_ s) →
  free_list_ s2 = free_list_ s →
  (∀ x, x ∈ LRU.lru_list_ (replacer_ s2) → x ∈ LRU.lru_list_ (replacer_ s)) →
  consistent s2.
Proof.
  intros (Hpt & Hnd & Hfree & Hrep) Hup Hf Hfresh Hnfl Hid Hpt2 Hfl2 Hrep2.
  unfold consistent. rewrite Hpt2, Hfl2.
  split; [|split; [done|split]].
  - intros p h. rewrite lookup_insert. case_decide as Hp.
    + intros [= <-]. subst p.
      split; [by apply (in_pool_updated s s2 f g)|].
      rewrite (frame_updated s s2 f g f Hup Hf) by apply Hf.
      destruct (decide (f = f)); [by rewrite Hid | done].
    + intros Hph. destruct (Hpt p h Hph) as [Hin Hpid].
      split; [by apply (in_pool_updated s s2 f g)|].
      rewrite (frame_updated s s2 f g h Hup Hf) by apply Hin.
      destruct (decide (f = h)) as [<-|]; [|done].
      by destruct (Hfresh p).
  - intros h Hh. destruct (Hfree h Hh) as [Hin Hno].
    split; [by apply (in_pool_updated s s2 f g)|].
    intros p. rewrite lookup_insert. case_decide; [|done].
    intros [= <-]. done.
  - intros x Hx. apply (in_pool_updated s s2 f g); [done|].
    by apply Hrep, Hrep2.
Qed.

Lemma page_table_FlushPageReally pid s :
  page_table_ (FlushPageReally pid s) = page_table_ s.
Proof.
  unfold FlushPageReally. case_decide; [done|]. by destruct (is_dirty_ _).
Qed.

Lemma free_list_FlushPageReally pid s :
  free_list_ (FlushPageReally pid s) = free_list_ s.
Proof.
  unfold FlushPageReally. case_decide; [done|]. by destruct (is_dirty_ _).
Qed.

Lemma replacer_FlushPageReally pid s :
  replacer_ (FlushPageReally pid s) = replacer_ s.
Proof.
  unfold FlushPageReally. case_decide; [done|]. by destruct (is_dirty_ _).
Qed.

Lemma consistent_FlushPageReally pid s :
  consistent s → consistent (FlushPageReally pid s).
Proof.
  unfold consistent, in_pool, frame.
  by rewrite page_table_FlushPageReally, free_list_FlushPageReally,
    replacer_FlushPageReally, pages_FlushPageReally.
Qed.

(** What [FindFreshPage] hands out: the bookkeeping still holds, and a
    frame that is returned belongs to the pool, is named by no entry of
    the page table and is not on the free list any more. *)
Lemma FindFreshPage_fresh s :
  consistent s →
  consistent (FindFreshPage s).2 ∧
  ((FindFreshPage s).1 ≠ INVALID_PAGE_ID →
   in_pool (FindFreshPage s).2 (FindFreshPage s).1 ∧
   (∀ p, page_table_ (FindFreshPage s).2 !! p ≠ Some (FindFreshPage s).1) ∧
   (FindFreshPage s).1 ∉ free_list_ (FindFreshPage s).2).
Proof.
  intros Hc. pose proof Hc as (Hpt & Hnd & Hfree & Hrep).
  unfold FindFreshPage.
  destruct (free_list_ s) as [|f rest] eqn:Efl.
  - destruct (LRU.Victim (replacer_ s)) as [[f|] r] eqn:Ev; [|by split].
    unfold LRU.Victim in Ev.
    destruct (LRU.lru_list_ (replacer_ s)) as [|f' l] eqn:El; [done|].
    injection Ev as -> <-.
    assert (Hf : in_pool s f) by (apply Hrep; by left).
    set (s1 := set_replacer s _).
    set (pid := page_id_ (frame s1 f)).
    set (s3 := set_page_table _ _).
    assert (Hc3 : consistent s3).
    { unfold consistent, in_pool, frame, s3. simpl.
      rewrite page_table_FlushPageReally, free_list_FlushPageReally,
        replacer_FlushPageReally, pages_FlushPageReally. simpl.
      rewrite Efl. split; [|split; [apply NoDup_nil_2|split]].
      - intros p h Hph. apply lookup_delete_Some in Hph as [_ Hph].
        by apply Hpt.
      - by intros h ?%elem_of_nil.
      - intros x Hx. apply Hrep. by right. }
    assert (Hf3 : in_pool s3 f).
    { unfold in_pool, s3. simpl. by rewrite pages_FlushPageReally. }
    assert (Hno3 : ∀ p, page_table_ s3 !! p ≠ Some f).
    { intros p Hp. unfold s3 in Hp. simpl in Hp.
      rewrite page_table_FlushPageReally in Hp. simpl in Hp.
      apply lookup_delete_Some in Hp as [Hne Hp].
      destruct (Hpt p f Hp) as [_ Hid]. apply Hne. by rewrite <- Hid. }
    simpl. split.
    + apply (consistent_same_page_ids s3 _ f
               (λ p, mkPage (data_ p) (page_id_ p) (pin_count_ p) false));
        try done.
      intros x Hx. by left.
    + intros _. split; [|split].
      * unfold in_pool, upd_frame in *. simpl. by rewrite length_alter.
      * done.
      * unfold s3. simpl. rewrite free_list_FlushPageReally. simpl.
        rewrite Efl. apply not_elem_of_nil.
  - simpl. apply NoDup_cons in Hnd as [Hf Hnd].
    assert (Hcr : consistent (set_free_list s rest)).
    { split; [done|]. split; [done|]. split; [|done].
      intros h Hh. apply Hfree. by right. }
    split; [done|]. intros _.
    destruct (Hfree f ltac:(by left)) as [Hin Hno]. done.
Qed.

Lemma erase_node_sub f l x : x ∈ LRU.erase_node f l → x ∈ l.
Proof.
  induction l as [|y l IH]; simpl; [done|].
  destruct (decide (y = f)).
  - by right.
  - intros [->|Hx]%elem_of_cons; [by left | right; by apply IH].
Qed.

Lemma Pin_list_sub f r x :
  x ∈ LRU.lru_list_ (LRU.Pin f r) → x ∈ LRU.lru_list_ r.
Proof.
  unfold LRU.Pin. case_decide; [|done]. simpl. apply erase_node_sub.
Qed.

Lemma Unpin_list_sub f r x :
  x ∈ LRU.lru_list_ (LRU.Unpin f r) → x ∈ LRU.lru_list_ r ∨ x = f.
Proof.
  unfold LRU.Unpin. case_decide; [by left|]. simpl.
  intros [?|?%list_elem_of_singleton]%elem_of_app; [by left | by right].
Qed.

Lemma consistent_NewPgImp s : consistent s → consistent (NewPgImp s).2.
Proof.
  intros Hc. destruct (FindFreshPage_fresh s Hc) as [Hc1 Hfresh].
  unfold NewPgImp. destruct (FindFreshPage s) as [f s1]. simpl in *.
  case_decide as Hf; [done|]. simpl.
  destruct (Hfresh Hf) as (Hin & Hno & Hnfl).
  by apply (consistent_install s1 _ f
              (λ p, mkPage zero_data (next_page_id_ s1) (pin_count_ p + 1) false)
              (next_page_id_ s1)).
Qed.

Lemma consistent_FetchPgImp pid s :
  consistent s → consistent (FetchPgImp pid s).2.
Proof.
  intros Hc. unfold FetchPgImp. case_decide as Hhit.
  - simpl. unfold FindPage in *.
    destruct (page_table_ s !! pid) as [f|] eqn:Hpt; [|done].
    destruct Hc as (Hc & ?). destruct (Hc pid f Hpt) as [Hin _].
    apply (consistent_same_page_ids s _ f
             (λ p, mkPage (data_ p) (page_id_ p) (pin_count_ p + 1) true));
      try done.
    simpl. intros x Hx. left. by apply (Pin_list_sub f).
  - destruct (FindFreshPage_fresh s Hc) as [Hc1 Hfresh].
    destruct (FindFreshPage s) as [f s1]. simpl in *.
    case_decide as Hf; [done|]. simpl.
    destruct (Hfresh Hf) as (Hin & Hno & Hnfl).
    apply (consistent_install s1 _ f
             (λ p, mkPage (ReadPage pid (disk_manager_ s1)) pid
                          (pin_count_ p + 1) false) pid); try done.
    simpl. intros x. apply Pin_list_sub.
Qed.

Lemma consistent_UnpinPgImp pid d s :
  consistent s → consistent (UnpinPgImp pid d s).2.
Proof.
  intros Hc. unfold UnpinPgImp. case_decide as Hgo; [done|].
  assert (Hf : FindPage s pid ≠ INVALID_PAGE_ID) by tauto.
  clear Hgo. unfold FindPage in *.
  destruct (page_table_ s !! pid) as [f|] eqn:Hpt; [|done].
  assert (Hin : in_pool s f) by (destruct Hc as (Hc & ?); by apply (Hc pid)).
  set (s1 := if d then _ else s).
  assert (consistent s1 ∧ in_pool s1 f) as [Hc1 Hin1].
  { unfold s1. destruct d; [|done]. split.
    - apply (consistent_same_page_ids s _ f
               (λ p, mkPage (data_ p) (page_id_ p) (pin_count_ p) true));
        try done.
      intros x Hx. by left.
    - unfold in_pool, upd_frame in *. simpl. by rewrite length_alter. }
  set (s2 := set_pages s1 _).
  assert (Hc2 : consistent s2).
  { apply (consistent_same_page_ids s1 _ f
             (λ p, mkPage (data_ p) (page_id_ p) (pin_count_ p - 1) (is_dirty_ p)));
      try done.
    intros x Hx. by left. }
  case_decide; [|done]. simpl.
  apply consistent_FlushPageReally.
  destruct Hc2 as (H1 & H2 & H3 & H4).
  split; [done|]. split; [done|]. split; [done|].
  simpl. intros x [Hx| ->]%Unpin_list_sub; [by apply H4|].
  unfold in_pool, s2, upd_frame in *. simpl. by rewrite length_alter.
Qed.

Lemma consistent_DeletePgImp pid s :
  consistent s → consistent (DeletePgImp pid s).2.
Proof.
  intros Hc.
  assert (Hc1 : consistent (DeallocatePage pid s)) by done.
  unfold DeletePgImp. set (s1 := DeallocatePage pid s) in *.
  case_decide as Hf; [done|]. case_decide; [done|]. simpl.
  unfold FindPage in *.
  destruct (page_table_ s1 !! pid) as [f|] eqn:Hpid; [|done].
  destruct Hc1 as (Hpt & Hnd & Hfree & Hrep).
  destruct (Hpt pid f Hpid) as [Hin Hidf].
  set (g := λ p, mkPage zero_data INVALID_PAGE_ID (pin_count_ p) false).
  assert (Hlen : ∀ h, in_pool s1 h →
            (Z.to_nat h < length (upd_frame f g (pages_ s1)))%nat).
  { intros h [_ Hh]. unfold upd_frame. by rewrite length_alter. }
  split; [|split; [|split]]; simpl.
  - intros p h Hph. apply lookup_delete_Some in Hph as [Hne Hph].
    destruct (Hpt p h Hph) as [Hinh Hidh].
    split; [split; [apply Hinh | by apply Hlen]|].
    assert (f ≠ h) by (intros ->; congruence).
    pose proof (frame_upd_other s1 f g h) as Hfr.
    unfold frame in *. simpl in *. rewrite Hfr; [done|apply Hin|apply Hinh|done].
  - apply NoDup_app. split; [done|]. split; [|apply NoDup_singleton].
    intros h Hh ->%list_elem_of_singleton.
    destruct (Hfree f Hh) as [_ Hno]. by destruct (Hno pid).
  - intros h [Hh| ->%list_elem_of_singleton]%elem_of_app.
    + destruct (Hfree h Hh) as [Hinh Hno].
      split; [split; [apply Hinh | by apply Hlen]|].
      intros p [_ Hp]%lookup_delete_Some. by destruct (Hno p).
    + split; [split; [apply Hin | by apply Hlen]|].
      intros p [Hne Hp]%lookup_delete_Some.
      destruct (Hpt p f Hp) as [_ Hidp]. congruence.
  - intros h Hh. split; [by apply Hrep | by apply Hlen, Hrep].
Qed.

Lemma consistent_FlushPgImp pid s :
  consistent s → consistent (FlushPgImp pid s).2.
Proof.
  intros Hc. unfold FlushPgImp. case_decide as Hf; [done|]. simpl.
  unfold FindPage in *.
  destruct (page_table_ s !! pid) as [f|] eqn:Hpid; [|done].
  assert (Hin : in_pool s f) by (destruct Hc as (Hc & ?); by apply (Hc pid)).
  apply (consistent_same_page_ids (FlushPageReally pid s) _ f
           (λ p, mkPage (data_ p) (page_id_ p) (pin_count_ p) false));
    try done.
  - by apply consistent_FlushPageReally.
  - unfold in_pool. by rewrite pages_FlushPageReally.
  - intros x Hx. by left.
Qed.

Lemma consistent_FlushAllPgsImp s :
  consistent s → consistent (FlushAllPgsImp s).
Proof.
  intros Hc. unfold FlushAllPgsImp.
  induction (map_to_list (page_table_ s)) as [|item l IH]; simpl; [done|].
  by apply consistent_FlushPgImp.
Qed.

Lemma to_int32_small x : - 2 ^ 31 ≤ x < 2 ^ 31 → to_int32 x = x.
Proof. intros Hx. unfold to_int32. rewrite Z.mod_small; lia. Qed.

Lemma to_uint32_to_int32 x : to_uint32 (to_int32 x) = x mod 2 ^ 32.
Proof.
  unfold to_uint32, to_int32.
  rewrite <- Zminus_mod_idemp_l, Z.mod_mod by lia.
  rewrite Zminus_mod_idemp_l. f_equal. lia.
Qed.

Lemma to_int32_add x y : to_int32 (to_int32 x + y) = to_int32 (x + y).
Proof.
  unfold to_int32. f_equal.
  replace ((x + 2 ^ 31) mod 2 ^ 32 - 2 ^ 31 + y + 2 ^ 31)
    with ((x + 2 ^ 31) mod 2 ^ 32 + y) by lia.
  rewrite Zplus_mod_idemp_l. f_equal. lia.
Qed.

Lemma to_int32_idem x : to_int32 (to_int32 x) = to_int32 x.
Proof. pose proof (to_int32_add x 0) as H. by rewrite !Z.add_0_r in H. Qed.

(** The frame ids of the constructor's free list, for a pool whose frame
    indices fit an [int]. *)
Lemma init_free_list n M k dm :
  Z.of_nat n ≤ 2 ^ 31 →
  free_list_ (init n M k dm) = Z.of_nat <$> seq 0 n.
Proof.
  intros Hn. unfold init. simpl. apply list_fmap_ext.
  intros i x Hx. apply lookup_seq in Hx as [-> Hlt].
  simpl. apply to_int32_small. lia.
Qed.

Lemma consistent_init n M k dm :
  Z.of_nat n ≤ 2 ^ 31 → consistent (init n M k dm).
Proof.
  intros Hn. unfold consistent. rewrite init_free_list by done.
  unfold init, in_pool. simpl. split; [|split; [|split]].
  - intros p f Hpf. by rewrite lookup_empty in Hpf.
  - apply NoDup_fmap; [intros x y; lia | apply NoDup_seq].
  - intros f Hf. apply list_elem_of_fmap in Hf as (i & -> & Hi).
    apply elem_of_seq in Hi. rewrite length_replicate.
    split; [lia|]. intros p. by rewrite lookup_empty.
  - by intros f ?%elem_of_nil.
Qed.

(** X5 (src/buffer/buffer_pool_manager_instance.cpp): the bookkeeping of
    the pool is an invariant of its public operations.  If every entry of
    the page table names a frame of the pool that holds that page, the
    free list has no frame twice and none the page table names, and the
    replacer tracks only frames of the pool, then the same holds after
    NewPgImp, FetchPgImp, UnpinPgImp, DeletePgImp, FlushPgImp and
    FlushAllPgsImp, whatever their arguments and whatever they return. *)
Theorem pool_operations_keep_consistent s :
  consistent s →
  consistent (NewPgImp s).2 ∧
  (∀ pid, consistent (FetchPgImp pid s).2) ∧
  (∀ pid is_dirty, consistent (UnpinPgImp pid is_dirty s).2) ∧
  (∀ pid, consistent (DeletePgImp pid s).2) ∧
  (∀ pid, consistent (FlushPgImp pid s).2) ∧
  consistent (FlushAllPgsImp s).
Proof.
  intros Hc. split; [by apply consistent_NewPgImp|].
  split; [intros; by apply consistent_FetchPgImp|].
  split; [intros; by apply consistent_UnpinPgImp|].
  split; [intros; by apply consistent_DeletePgImp|].
  split; [intros; by apply consistent_FlushPgImp|].
  by apply consistent_FlushAllPgsImp.
Qed.

Lemma pool_operations_keep_consistent_witness :
  consistent (init 3 1 0 (mkDisk [])) ∧
  consistent (NewPgImp (init 3 1 0 (mkDisk []))).2.
Proof.
  assert (Hc : consistent (init 3 1 0 (mkDisk [])))
    by (apply consistent_init; vm_compute; discriminate).
  split; [exact Hc|].
  exact (proj1 (pool_operations_keep_consistent _ Hc)).
Defined.

End BPMInvariant.

Section BPMBehaviour.
Import BPM.

Lemma next_page_id_FlushPageReally pid s :
  next_page_id_ (FlushPageReally pid s) = next_page_id_ s.
Proof.
  unfold FlushPageReally. case_decide; [done|]. by destruct (is_dirty_ _).
Qed.

Lemma num_instances_FlushPageReally pid s :
  num_instances_ (FlushPageReally pid s) = num_instances_ s.
Proof.
  unfold FlushPageReally. case_decide; [done|]. by destruct (is_dirty_ _).
Qed.

Lemma instance_index_FlushPageReally pid s :
  instance_index_ (FlushPageReally pid s) = instance_index_ s.
Proof.
  unfold FlushPageReally. case_decide; [done|]. by destruct (is_dirty_ _).
Qed.

(** The fields of the state after [FindFreshPage] took a frame from the
    free list, and after it took a victim from the replacer. *)
Lemma FindFreshPage_free s f rest :
  free_list_ s = f :: rest → FindFreshPage s = (f, set_free_list s rest).
Proof. unfold FindFreshPage. by intros ->. Qed.

Lemma FindFreshPage_victim s f rest :
  free_list_ s = [] → LRU.lru_list_ (replacer_ s) = f :: rest →
  (FindFreshPage s).1 = f ∧
  pages_ (FindFreshPage s).2 =
    upd_frame f (λ p, mkPage (data_ p) (page_id_ p) (pin_count_ p) false)
      (pages_ s) ∧
  page_table_ (FindFreshPage s).2 =
    delete (page_id_ (frame s f)) (page_table_ s) ∧
  free_list_ (FindFreshPage s).2 = [] ∧
  LRU.lru_list_ (replacer_ (FindFreshPage s).2) = rest ∧
  next_page_id_ (FindFreshPage s).2 = next_page_id_ s ∧
  num_instances_ (FindFreshPage s).2 = num_instances_ s ∧
  disk_manager_ (FindFreshPage s).2 =
    disk_manager_ (FlushPageReally (page_id_ (frame s f)) s).
Proof.
  intros Hfl Hlru. unfold FindFreshPage, LRU.Victim. rewrite Hfl, Hlru.
  simpl. rewrite pages_FlushPageReally, page_table_FlushPageReally,
    free_list_FlushPageReally, replacer_FlushPageReally,
    next_page_id_FlushPageReally, num_instances_FlushPageReally. simpl.
  repeat (split; [done|]).
  unfold FlushPageReally, FindPage. simpl.
  change (frame (set_replacer s ?r) ?x) with (frame s x).
  case_decide; [done|]. by destruct (is_dirty_ _).
Qed.

(** The fields of the state after a successful [NewPgImp], in terms of
    what [FindFreshPage] returned. *)
Lemma NewPgImp_fields s :
  (FindFreshPage s).1 ≠ INVALID_PAGE_ID →
  (NewPgImp s).1 =
    Some (next_page_id_ (FindFreshPage s).2, (FindFreshPage s).1) ∧
  pages_ (NewPgImp s).2 =
    upd_frame (FindFreshPage s).1
      (λ p, mkPage zero_data (next_page_id_ (FindFreshPage s).2)
                   (pin_count_ p + 1) false)
      (pages_ (FindFreshPage s).2) ∧
  page_table_ (NewPgImp s).2 =
    <[next_page_id_ (FindFreshPage s).2 := (FindFreshPage s).1]>
      (page_table_ (FindFreshPage s).2) ∧
  free_list_ (NewPgImp s).2 = free_list_ (FindFreshPage s).2 ∧
  replacer_ (NewPgImp s).2 = replacer_ (FindFreshPage s).2 ∧
  next_page_id_ (NewPgImp s).2 =
    to_int32
      (next_page_id_ (FindFreshPage s).2 + num_instances_ (FindFreshPage s).2) ∧
  num_instances_ (NewPgImp s).2 = num_instances_ (FindFreshPage s).2 ∧
  disk_manager_ (NewPgImp s).2 = disk_manager_ (FindFreshPage s).2.
Proof.
  intros Hf. unfold NewPgImp. destruct (FindFreshPage s) as [f s1].
  simpl in *. by rewrite decide_False.
Qed.

Lemma frame_alter s2 ps f g :
  pages_ s2 = upd_frame f g ps → (Z.to_nat f < length ps)%nat →
  frame s2 f = g (default empty_page (ps !! Z.to_nat f)).
Proof.
  intros Hp Hlen. unfold frame. rewrite Hp. unfold upd_frame.
  rewrite list_lookup_alter_eq.
  destruct (lookup_lt_is_Some_2 ps (Z.to_nat f) Hlen) as [p ->]. done.
Qed.

(** X6 (src/buffer/buffer_pool_manager_instance.cpp, DeletePgImp,
    NewPgImp, FindFreshPage): DeletePgImp puts the frame of an unpinned
    page on the free list but does not take it out of the replacer.  When
    the free list was empty and the frame is the replacer's oldest entry,
    the next NewPgImp hands the frame out from the free list, pinned once,
    and the NewPgImp after that takes the same frame again as a victim
    while its page is still pinned: the pin count becomes 2. *)
Theorem DeletePgImp_leaves_frame_in_replacer s pid f rest :
  page_table_ s !! pid = Some f →
  in_pool s f →
  pin_count_ (frame s f) = 0 →
  free_list_ s = [] →
  LRU.lru_list_ (replacer_ s) = f :: rest →
  (DeletePgImp pid s).1 = true ∧
  (NewPgImp (DeletePgImp pid s).2).1 = Some (next_page_id_ s, f) ∧
  pin_count_ (frame (NewPgImp (DeletePgImp pid s).2).2 f) = 1 ∧
  (NewPgImp (NewPgImp (DeletePgImp pid s).2).2).1
    = Some (to_int32 (next_page_id_ s + num_instances_ s), f) ∧
  pin_count_ (frame (NewPgImp (NewPgImp (DeletePgImp pid s).2).2).2 f) = 2.
Proof.
  intros Hpt [Hf0 Hlen] Hpin Hfl Hlru.
  assert (Hne : f ≠ INVALID_PAGE_ID) by (unfold INVALID_PAGE_ID; lia).
  assert (Hdel : DeletePgImp pid s =
    (true,
     set_free_list
       (set_pages
          (set_page_table (DeallocatePage pid s) (delete pid (page_table_ s)))
          (upd_frame f
             (λ p, mkPage zero_data INVALID_PAGE_ID (pin_count_ p) false)
             (pages_ s)))
       [f])).
  { unfold DeletePgImp, FindPage. simpl. rewrite Hpt.
    rewrite decide_False by done.
    change (frame (DeallocatePage pid s) f) with (frame s f).
    rewrite Hpin, decide_False by lia. simpl. by rewrite Hfl. }
  rewrite Hdel. simpl.
  set (s1 := set_free_list _ _).
  assert (Hfr1 : frame s1 f =
            mkPage zero_data INVALID_PAGE_ID (pin_count_ (frame s f)) false).
  { exact (frame_upd_same s f _ Hlen). }
  assert (Hlen1 : (Z.to_nat f < length (pages_ s1))%nat).
  { unfold s1, upd_frame. simpl. by rewrite length_alter. }
  assert (Hff1 : FindFreshPage s1 = (f, set_free_list s1 [])) by done.
  destruct (NewPgImp_fields s1) as (Hr1 & Hp1 & Hpt1 & Hfl1 & Hrep1 & Hn1 & Hm1 & _);
    [by rewrite Hff1|].
  rewrite Hff1 in *. simpl in Hr1, Hp1, Hpt1, Hfl1, Hrep1, Hn1, Hm1.
  set (s2 := (NewPgImp s1).2) in *.
  assert (Hfr2 : frame s2 f =
            mkPage zero_data (next_page_id_ s) (pin_count_ (frame s1 f) + 1) false).
  { by rewrite (frame_alter s2 _ f _ Hp1 Hlen1). }
  assert (Hlen2 : (Z.to_nat f < length (pages_ s2))%nat).
  { rewrite Hp1. unfold upd_frame. by rewrite length_alter. }
  split; [done|]. split; [done|].
  split; [rewrite Hfr2, Hfr1; simpl; lia|].
  destruct (FindFreshPage_victim s2 f rest) as (Hv & Hvp & _ & _ & _ & Hvn & Hvm & _);
    [done | by rewrite Hrep1 |].
  destruct (NewPgImp_fields s2) as (Hr2 & Hp2 & _); [by rewrite Hv|].
  rewrite Hv, Hvn, Hn1 in Hr2. rewrite Hv in Hp2. split; [done|].
  assert (Hlen3 : (Z.to_nat f < length (pages_ (FindFreshPage s2).2))%nat).
  { rewrite Hvp. unfold upd_frame. by rewrite length_alter. }
  rewrite (frame_alter _ _ f _ Hp2 Hlen3).
  change (default empty_page (pages_ (FindFreshPage s2).2 !! Z.to_nat f))
    with (frame (FindFreshPage s2).2 f).
  rewrite (frame_alter _ _ f _ Hvp Hlen2).
  change (default empty_page (pages_ s2 !! Z.to_nat f)) with (frame s2 f).
  rewrite Hfr2, Hfr1. simpl. lia.
Qed.

Lemma DeletePgImp_leaves_frame_in_replacer_witness :
  (DeletePgImp 0 pool_single_unpinned).1 = true ∧
  (NewPgImp (DeletePgImp 0 pool_single_unpinned).2).1 = Some (1, 0) ∧
  pin_count_ (frame (NewPgImp (DeletePgImp 0 pool_single_unpinned).2).2 0) = 1 ∧
  (NewPgImp (NewPgImp (DeletePgImp 0 pool_single_unpinned).2).2).1
    = Some (2, 0) ∧
  pin_count_
    (frame (NewPgImp (NewPgImp (DeletePgImp 0 pool_single_unpinned).2).2).2 0)
    = 2.
Proof.
  assert (H1 : page_table_ pool_single_unpinned !! 0 = Some 0)
    by (vm_compute; reflexivity).
  assert (H2 : in_pool pool_single_unpinned 0)
    by (split; [done | vm_compute; lia]).
  assert (H3 : pin_count_ (frame pool_single_unpinned 0) = 0)
    by (vm_compute; reflexivity).
  assert (H4 : free_list_ pool_single_unpinned = [])
    by (vm_compute; reflexivity).
  assert (H5 : LRU.lru_list_ (replacer_ pool_single_unpinned) = 0 :: [])
    by (vm_compute; reflexivity).
  exact (DeletePgImp_leaves_frame_in_replacer
           pool_single_unpinned 0 0 [] H1 H2 H3 H4 H5).
Defined.

(** With an empty replacer, [n] calls in a row serve one page per frame of
    the free list. *)
Lemma new_pages_free_list n : ∀ s,
  LRU.lru_list_ (replacer_ s) = [] →
  (∀ f, f ∈ free_list_ s → 0 ≤ f) →
  to_int32 (next_page_id_ s) = next_page_id_ s →
  (new_pages n s).1 =
    (λ i, to_int32 (next_page_id_ s + Z.of_nat i * num_instances_ s))
      <$> seq 0 (n `min` length (free_list_ s)).
Proof.
  induction n as [|n IH]; intros s Hlru Hfl Hnext; [done|].
  simpl. destruct (free_list_ s) as [|f rest] eqn:Efl.
  - assert (Hnone : NewPgImp s = (None, s)).
    { unfold NewPgImp, FindFreshPage, LRU.Victim. by rewrite Efl, Hlru. }
    rewrite Hnone, (IH s Hlru), Efl; [| by rewrite Efl | done].
    by rewrite Nat.min_0_r.
  - assert (Hf : (FindFreshPage s).1 ≠ INVALID_PAGE_ID).
    { rewrite (FindFreshPage_free s f rest Efl). simpl.
      pose proof (Hfl f ltac:(by left)). unfold INVALID_PAGE_ID. lia. }
    destruct (NewPgImp_fields s Hf) as (Hr & _ & _ & Hfl' & Hrep & Hn & Hm & _).
    rewrite (FindFreshPage_free s f rest Efl) in *. simpl in *.
    destruct (NewPgImp s) as [[[id g]|] s']; [|done]. simpl in *.
    injection Hr as -> ->.
    rewrite IH;
      [ | by rewrite Hrep
        | rewrite Hfl'; intros x Hx; apply Hfl; by right
        | rewrite Hn; apply to_int32_idem ].
    rewrite Hfl', Hn, Hm. f_equal.
    { rewrite <- Hnext at 1. f_equal. lia. }
    change (list_fmap nat Z ?g ?l) with (g <$> l).
    rewrite <- (fmap_S_seq 0), <- list_fmap_compose.
    apply list_fmap_ext. intros i x _. simpl.
    rewrite to_int32_add. f_equal. lia.
Qed.

(** X7 (src/buffer/buffer_pool_manager_instance.cpp, constructor,
    NewPgImp, AllocatePage, ValidatePageId): instance k of M, with a pool
    of N frames, serves exactly N NewPgImp calls in a row; the i-th page id
    is k + i * M held as a 32-bit [page_id_t], and every further call
    returns no page.  As long as these ids stay below 2^32 the condition
    that ValidatePageId asserts holds for each of them. *)
Theorem fresh_pool_serves_pool_size_pages n pool_size M k dm :
  0 ≤ k < M →
  M < 2 ^ 32 →
  Z.of_nat pool_size ≤ 2 ^ 31 →
  (new_pages n (init pool_size M k dm)).1 =
    (λ i, to_int32 (k + Z.of_nat i * M)) <$> seq 0 (n `min` pool_size) ∧
  (k + Z.of_nat (n `min` pool_size) * M ≤ 2 ^ 32 →
   Forall (λ page_id, ValidatePageId (init pool_size M k dm) page_id = true)
     (new_pages n (init pool_size M k dm)).1).
Proof.
  intros Hk HM Hsize.
  assert (Hids : (new_pages n (init pool_size M k dm)).1 =
            (λ i, to_int32 (k + Z.of_nat i * M)) <$> seq 0 (n `min` pool_size)).
  { rewrite new_pages_free_list.
    - rewrite init_free_list by done. rewrite length_fmap, length_seq.
      apply list_fmap_ext. intros i x _. simpl. apply to_int32_add.
    - done.
    - rewrite init_free_list by done.
      intros f (i & -> & _)%list_elem_of_fmap. lia.
    - simpl. apply to_int32_idem. }
  split; [done|]. intros Hfit. rewrite Hids.
  apply Forall_fmap, Forall_forall. intros i Hi%elem_of_seq. simpl.
  unfold ValidatePageId. simpl. apply bool_decide_eq_true_2.
  rewrite to_uint32_to_int32.
  assert (Hi' : Z.of_nat i * M ≤ (Z.of_nat (n `min` pool_size) - 1) * M)
    by (apply Z.mul_le_mono_nonneg_r; lia).
  rewrite (Z.mod_small _ (2 ^ 32)) by nia.
  rewrite Z.mod_add by lia. apply Z.mod_small. lia.
Qed.

Lemma fresh_pool_serves_pool_size_pages_witness :
  (new_pages 5 (init 3 4 1 (mkDisk []))).1 =
    (λ i, to_int32 (1 + Z.of_nat i * 4)) <$> seq 0 (5 `min` 3) ∧
  Forall (λ page_id, ValidatePageId (init 3 4 1 (mkDisk [])) page_id = true)
    (new_pages 5 (init 3 4 1 (mkDisk []))).1.
Proof.
  assert (Hk : 0 ≤ 1 < 4) by lia.
  assert (HM : 4 < 2 ^ 32) by (vm_compute; reflexivity).
  assert (Hsize : Z.of_nat 3 ≤ 2 ^ 31) by (vm_compute; discriminate).
  assert (Hfit : 1 + Z.of_nat (5 `min` 3) * 4 ≤ 2 ^ 32)
    by (vm_compute; discriminate).
  destruct (fresh_pool_serves_pool_size_pages 5 3 4 1 (mkDisk []) Hk HM Hsize)
    as [Hids Hvalid].
  split; [exact Hids | exact (Hvalid Hfit)].
Defined.

(** X8 (src/buffer/buffer_pool_manager_instance.cpp, NewPgImp,
    FetchPgImp, FindFreshPage): when the bookkeeping holds, NewPgImp
    returns no page exactly if the free list is empty and the replacer
    tracks no frame, FetchPgImp returns no page exactly if in addition the
    page is not resident, and in these cases neither changes anything
    (NewPgImp does not consume a page id). *)
Theorem pool_exhausted_iff s :
  consistent s →
  ((NewPgImp s).1 = None ↔
     free_list_ s = [] ∧ LRU.lru_list_ (replacer_ s) = []) ∧
  (∀ pid, (FetchPgImp pid s).1 = None ↔
     page_table_ s !! pid = None ∧
     free_list_ s = [] ∧ LRU.lru_list_ (replacer_ s) = []) ∧
  ((NewPgImp s).1 = None → (NewPgImp s).2 = s) ∧
  (∀ pid, (FetchPgImp pid s).1 = None → (FetchPgImp pid s).2 = s).
Proof.
  intros Hc. pose proof Hc as (Hpt & _ & Hfree & Hrep).
  assert (Hfresh : (FindFreshPage s).1 = INVALID_PAGE_ID ↔
            free_list_ s = [] ∧ LRU.lru_list_ (replacer_ s) = []).
  { unfold FindFreshPage, LRU.Victim.
    destruct (free_list_ s) as [|f rest] eqn:Efl.
    - destruct (LRU.lru_list_ (replacer_ s)) as [|f l] eqn:El; simpl.
      + done.
      + split; [|by intros [_ ?]]. intros ->.
        destruct (Hrep _ ltac:(by left)) as [? _].
        unfold INVALID_PAGE_ID in *. lia.
    - simpl. split; [|by intros [? _]]. intros ->.
      destruct (Hfree _ ltac:(by left)) as [[? _] _].
      unfold INVALID_PAGE_ID in *. lia. }
  assert (Hsame : (FindFreshPage s).1 = INVALID_PAGE_ID →
            (FindFreshPage s).2 = s).
  { intros [Hfl Hl]%Hfresh. unfold FindFreshPage, LRU.Victim.
    by rewrite Hfl, Hl. }
  assert (Hnew : (NewPgImp s).1 = None ↔ (FindFreshPage s).1 = INVALID_PAGE_ID).
  { unfold NewPgImp. destruct (FindFreshPage s) as [f s1]. simpl.
    case_decide; simpl; [done|]. split; [done|]. intros ?. done. }
  assert (Hfetch : ∀ pid, (FetchPgImp pid s).1 = None ↔
            page_table_ s !! pid = None ∧
            (FindFreshPage s).1 = INVALID_PAGE_ID).
  { intros pid. unfold FetchPgImp, FindPage.
    destruct (page_table_ s !! pid) as [f|] eqn:Hp.
    - destruct (Hpt pid f Hp) as [[? _] _].
      rewrite decide_True by (unfold INVALID_PAGE_ID; lia). simpl.
      split; [done | by intros [? _]].
    - rewrite decide_False by (intros H; by apply H).
      destruct (FindFreshPage s) as [f s1]. simpl.
      case_decide; simpl; [done|]. split; [done | by intros [_ ?]]. }
  split; [by rewrite Hnew|].
  split; [intros pid; by rewrite Hfetch, Hfresh|].
  split.
  - intros Hn. pose proof (proj1 Hnew Hn) as Hi. pose proof (Hsame Hi) as Hs.
    unfold NewPgImp. destruct (FindFreshPage s) as [f s1]. simpl in *.
    by rewrite decide_True.
  - intros pid Hn. destruct (proj1 (Hfetch pid) Hn) as [Hp Hi].
    pose proof (Hsame Hi) as Hs.
    unfold FetchPgImp, FindPage. rewrite Hp.
    rewrite decide_False by (intros H; by apply H).
    destruct (FindFreshPage s) as [f s1]. simpl in *.
    by rewrite decide_True.
Qed.

Lemma pool_exhausted_iff_witness :
  (NewPgImp (NewPgImp (init 1 1 0 (mkDisk []))).2).1 = None ∧
  (NewPgImp (NewPgImp (init 1 1 0 (mkDisk []))).2).2 =
    (NewPgImp (init 1 1 0 (mkDisk []))).2.
Proof.
  assert (Hc : consistent (NewPgImp (init 1 1 0 (mkDisk []))).2).
  { apply consistent_NewPgImp, consistent_init; vm_compute; discriminate. }
  destruct (pool_exhausted_iff _ Hc) as (Hnew & _ & Hsame & _).
  assert (Hn : (NewPgImp (NewPgImp (init 1 1 0 (mkDisk []))).2).1 = None).
  { apply Hnew. split; vm_compute; reflexivity. }
  split; [exact Hn | exact (Hsame Hn)].
Defined.

Lemma ReadPage_WritePage_same pid d dm :
  ReadPage pid (WritePage pid d dm) = d.
Proof. unfold ReadPage, WritePage. simpl. by rewrite decide_True. Qed.

Lemma ReadPage_WritePage_other pid q d dm :
  q ≠ pid → ReadPage pid (WritePage q d dm) = ReadPage pid dm.
Proof. intros. unfold ReadPage, WritePage. simpl. by rewrite decide_False. Qed.

(** [FlushPageReally] writes no page but the one it is given, and that one
    only when it is resident. *)
Lemma ReadPage_FlushPageReally_other pid q s :
  (q ≠ pid ∨ page_table_ s !! q = None) →
  ReadPage pid (disk_manager_ (FlushPageReally q s)) =
  ReadPage pid (disk_manager_ s).
Proof.
  intros Hq. unfold FlushPageReally, FindPage.
  case_decide as Hf; [done|]. destruct (is_dirty_ _); [|done]. simpl.
  destruct Hq as [Hq|Hq]; [by apply ReadPage_WritePage_other|].
  by rewrite Hq in Hf.
Qed.

Lemma FindFreshPage_disk_other s q :
  page_table_ s !! q = None →
  ReadPage q (disk_manager_ (FindFreshPage s).2) = ReadPage q (disk_manager_ s).
Proof.
  intros Hq. unfold FindFreshPage, LRU.Victim.
  destruct (free_list_ s); [|done].
  destruct (LRU.lru_list_ (replacer_ s)); [done|]. simpl.
  set (pid := page_id_ _).
  destruct (decide (pid = q)) as [->|Hne].
  - by rewrite ReadPage_FlushPageReally_other by (by right).
  - by rewrite ReadPage_FlushPageReally_other by (by left).
Qed.

(** The fields of the state after [FetchPgImp] missed and found a frame. *)
Lemma FetchPgImp_miss_fields pid s :
  page_table_ s !! pid = None →
  (FindFreshPage s).1 ≠ INVALID_PAGE_ID →
  (FetchPgImp pid s).1 = Some (FindFreshPage s).1 ∧
  pages_ (FetchPgImp pid s).2 =
    upd_frame (FindFreshPage s).1
      (λ p, mkPage (ReadPage pid (disk_manager_ (FindFreshPage s).2)) pid
                   (pin_count_ p + 1) false)
      (pages_ (FindFreshPage s).2) ∧
  page_table_ (FetchPgImp pid s).2 =
    <[pid := (FindFreshPage s).1]> (page_table_ (FindFreshPage s).2) ∧
  disk_manager_ (FetchPgImp pid s).2 = disk_manager_ (FindFreshPage s).2.
Proof.
  intros Hp Hf. unfold FetchPgImp, FindPage. rewrite Hp.
  rewrite decide_False by (intros H; by apply H).
  destruct (FindFreshPage s) as [f s1]. simpl in *.
  by rewrite decide_False.
Qed.

(** X9 (src/buffer/buffer_pool_manager_instance.cpp, FetchPgImp,
    FindFreshPage, FlushPageReally): a dirty page survives its eviction.
    When the free list is empty and the replacer's oldest frame holds the
    dirty page q, fetching a page p that is not resident takes that frame,
    writes q's data to disk and drops q from the page table; whenever q is
    fetched again, it comes back with the data it had, clean. *)
Theorem dirty_page_survives_eviction s p q f rest :
  consistent s →
  free_list_ s = [] →
  LRU.lru_list_ (replacer_ s) = f :: rest →
  page_table_ s !! q = Some f →
  is_dirty_ (frame s f) = true →
  page_table_ s !! p = None →
  (FetchPgImp p s).1 = Some f ∧
  page_table_ (FetchPgImp p s).2 !! q = None ∧
  ReadPage q (disk_manager_ (FetchPgImp p s).2) = data_ (frame s f) ∧
  ∀ g, (FetchPgImp q (FetchPgImp p s).2).1 = Some g →
       frame (FetchPgImp q (FetchPgImp p s).2).2 g =
         mkPage (data_ (frame s f)) q
                (pin_count_ (frame (FetchPgImp q (FetchPgImp p s).2).2 g))
                false.
Proof.
  intros Hc Hfl Hlru Hq Hdirty Hp.
  pose proof Hc as (Hpt & _ & _ & Hrep).
  destruct (Hpt q f Hq) as [Hin Hid].
  assert (Hpq : p ≠ q) by congruence.
  destruct (FindFreshPage_victim s f rest Hfl Hlru)
    as (Hv & _ & Hvpt & _ & _ & _ & _ & Hvd).
  assert (Hf : (FindFreshPage s).1 ≠ INVALID_PAGE_ID).
  { rewrite Hv. destruct Hin. unfold INVALID_PAGE_ID. lia. }
  destruct (FetchPgImp_miss_fields p s Hp Hf) as (Hr1 & _ & Hpt1 & Hd1).
  rewrite Hv in Hr1, Hpt1. rewrite Hid in Hvpt, Hvd.
  assert (Hq1 : page_table_ (FetchPgImp p s).2 !! q = None).
  { rewrite Hpt1, lookup_insert_ne, Hvpt by done. apply lookup_delete_eq. }
  assert (Hdisk : ReadPage q (disk_manager_ (FetchPgImp p s).2)
                  = data_ (frame s f)).
  { rewrite Hd1, Hvd. unfold FlushPageReally, FindPage. rewrite Hq.
    rewrite decide_False by (destruct Hin; unfold INVALID_PAGE_ID; lia).
    rewrite Hdirty. simpl. apply ReadPage_WritePage_same. }
  split; [done|]. split; [done|]. split; [done|].
  intros g Hg. set (s1 := (FetchPgImp p s).2) in *.
  assert (Hc1 : consistent s1) by (by apply consistent_FetchPgImp).
  destruct (FindFreshPage_fresh s1 Hc1) as [_ Hfresh].
  assert (Hg' : (FindFreshPage s1).1 ≠ INVALID_PAGE_ID).
  { intros Hi. revert Hg. unfold FetchPgImp, FindPage. rewrite Hq1.
    rewrite decide_False by (intros H; by apply H).
    destruct (FindFreshPage s1) as [h s2]. simpl in *.
    by rewrite decide_True. }
  destruct (FetchPgImp_miss_fields q s1 Hq1 Hg') as (Hr2 & Hp2 & _).
  rewrite Hr2 in Hg. injection Hg as <-.
  destruct (Hfresh Hg') as ([_ Hlen] & _).
  rewrite (frame_alter _ _ _ _ Hp2 Hlen) at 1.
  rewrite (frame_alter _ _ _ _ Hp2 Hlen). simpl.
  by rewrite FindFreshPage_disk_other, Hdisk.
Qed.

Lemma dirty_page_survives_eviction_witness :
  (FetchPgImp 5 pool_two_dirty).1 = Some 0 ∧
  page_table_ (FetchPgImp 5 pool_two_dirty).2 !! 0 = None ∧
  ReadPage 0 (disk_manager_ (FetchPgImp 5 pool_two_dirty).2)
    = data_ (frame pool_two_dirty 0) ∧
  ∀ g, (FetchPgImp 0 (FetchPgImp 5 pool_two_dirty).2).1 = Some g →
       frame (FetchPgImp 0 (FetchPgImp 5 pool_two_dirty).2).2 g =
         mkPage (data_ (frame pool_two_dirty 0)) 0
                (pin_count_ (frame (FetchPgImp 0 (FetchPgImp 5 pool_two_dirty).2).2 g))
                false.
Proof.
  assert (Hc : consistent pool_two_dirty).
  { unfold pool_two_dirty.
    apply consistent_UnpinPgImp, consistent_UnpinPgImp.
    apply (consistent_same_page_ids
             (NewPgImp (NewPgImp (init 2 1 0 (mkDisk []))).2).2 _ 0
             (λ p, mkPage (replicate PAGE_SIZE 7) (page_id_ p)
                          (pin_count_ p) (is_dirty_ p))); try done.
    - apply consistent_NewPgImp, consistent_NewPgImp, consistent_init;
        vm_compute; discriminate.
    - split; [done | vm_compute; lia].
    - intros x Hx. by left. }
  assert (H1 : free_list_ pool_two_dirty = []) by (vm_compute; reflexivity).
  assert (H2 : LRU.lru_list_ (replacer_ pool_two_dirty) = 0 :: [1])
    by (vm_compute; reflexivity).
  assert (H3 : page_table_ pool_two_dirty !! 0 = Some 0)
    by (vm_compute; reflexivity).
  assert (H4 : is_dirty_ (frame pool_two_dirty 0) = true)
    by (vm_compute; reflexivity).
  assert (H5 : page_table_ pool_two_dirty !! 5 = None)
    by (vm_compute; reflexivity).
  exact (dirty_page_survives_eviction pool_two_dirty 5 0 0 [1] Hc H1 H2 H3 H4 H5).
Defined.

(** [FlushPgImp] on a resident page. *)
Lemma FlushPgImp_resident s pid f :
  consistent s →
  page_table_ s !! pid = Some f →
  frame (FlushPgImp pid s).2 f =
    mkPage (data_ (frame s f)) pid (pin_count_ (frame s f)) false ∧
  disk_manager_ (FlushPgImp pid s).2 =
    (if is_dirty_ (frame s f)
     then WritePage pid (data_ (frame s f)) (disk_manager_ s)
     else disk_manager_ s).
Proof.
  intros (Hpt & _) Hp. unfold FlushPgImp, FindPage. rewrite Hp.
  destruct (Hpt pid f Hp) as [[Hf0 Hlen] Hid].
  rewrite decide_False by (unfold INVALID_PAGE_ID; lia). simpl. split.
  - rewrite frame_upd_same by (by rewrite pages_FlushPageReally).
    unfold frame. rewrite pages_FlushPageReally. fold (frame s f).
    simpl. by rewrite Hid.
  - unfold FlushPageReally, FindPage. rewrite Hp.
    rewrite decide_False by (unfold INVALID_PAGE_ID; lia).
    by destruct (is_dirty_ (frame s f)).
Qed.

(** X10 (src/buffer/buffer_pool_manager_instance.cpp, FlushPgImp,
    FlushPageReally, FindPage): FlushPgImp returns false, and changes
    nothing, exactly if the page is not resident.  For a resident page it
    writes the frame's data to disk only if the frame is dirty, and leaves
    the frame as it was but for the dirty flag, which is cleared. *)
Theorem FlushPgImp_writes_only_dirty s pid :
  consistent s →
  ((FlushPgImp pid s).1 = false ↔ page_table_ s !! pid = None) ∧
  (page_table_ s !! pid = None → (FlushPgImp pid s).2 = s) ∧
  (∀ f, page_table_ s !! pid = Some f →
     frame (FlushPgImp pid s).2 f =
       mkPage (data_ (frame s f)) pid (pin_count_ (frame s f)) false ∧
     disk_manager_ (FlushPgImp pid s).2 =
       (if is_dirty_ (frame s f)
        then WritePage pid (data_ (frame s f)) (disk_manager_ s)
        else disk_manager_ s)).
Proof.
  intros Hc. split; [|split].
  - unfold FlushPgImp, FindPage.
    destruct (page_table_ s !! pid) as [f|] eqn:Hp.
    + destruct Hc as (Hpt & _). destruct (Hpt pid f Hp) as [[Hf0 _] _].
      rewrite decide_False by (unfold INVALID_PAGE_ID; lia). done.
    + by rewrite decide_True.
  - intros Hp. unfold FlushPgImp, FindPage. rewrite Hp.
    by rewrite decide_True.
  - intros f Hp. by apply FlushPgImp_resident.
Qed.

Lemma FlushPgImp_writes_only_dirty_witness :
  frame (FlushPgImp 1 pool_two_dirty).2 1 =
    mkPage (data_ (frame pool_two_dirty 1)) 1
           (pin_count_ (frame pool_two_dirty 1)) false ∧
  disk_manager_ (FlushPgImp 1 pool_two_dirty).2 =
    (if is_dirty_ (frame pool_two_dirty 1)
     then WritePage 1 (data_ (frame pool_two_dirty 1))
            (disk_manager_ pool_two_dirty)
     else disk_manager_ pool_two_dirty).
Proof.
  assert (Hc : consistent pool_two_dirty).
  { unfold pool_two_dirty.
    apply consistent_UnpinPgImp, consistent_UnpinPgImp.
    apply (consistent_same_page_ids
             (NewPgImp (NewPgImp (init 2 1 0 (mkDisk []))).2).2 _ 0
             (λ p, mkPage (replicate PAGE_SIZE 7) (page_id_ p)
                          (pin_count_ p) (is_dirty_ p))); try done.
    - apply consistent_NewPgImp, consistent_NewPgImp, consistent_init;
        vm_compute; discriminate.
    - split; [done | vm_compute; lia].
    - intros x Hx. by left. }
  assert (H1 : page_table_ pool_two_dirty !! 1 = Some 1)
    by (vm_compute; reflexivity).
  exact (proj2 (proj2 (FlushPgImp_writes_only_dirty pool_two_dirty 1 Hc)) 1 H1).
Defined.

(** What a run of [FlushPgImp] over some entries of the page table has
    done, entry by entry. *)
Lemma flush_entries s l :
  consistent s →
  NoDup l.*1 →
  (∀ p f, (p, f) ∈ l → page_table_ s !! p = Some f) →
  let acc := foldr (λ item acc, snd (FlushPgImp item.1 acc)) s l in
  page_table_ acc = page_table_ s ∧
  consistent acc ∧
  ∀ p f, page_table_ s !! p = Some f →
    data_ (frame acc f) = data_ (frame s f) ∧
    pin_count_ (frame acc f) = pin_count_ (frame s f) ∧
    (p ∈ l.*1 →
       is_dirty_ (frame acc f) = false ∧
       (is_dirty_ (frame s f) = true →
        ReadPage p (disk_manager_ acc) = data_ (frame s f))) ∧
    (p ∉ l.*1 → is_dirty_ (frame acc f) = is_dirty_ (frame s f)).
Proof.
  intros Hc. induction l as [|[p0 f0] l IH]; intros Hnd Hin; simpl.
  - split; [done|]. split; [done|]. intros p f Hp.
    split; [done|]. split; [done|]. split; [by intros ?%elem_of_nil | done].
  - apply NoDup_cons in Hnd as [Hp0 Hnd].
    destruct IH as (Hpt & Hca & IH);
      [done | intros p f Hpf; apply Hin; by right |].
    set (acc := foldr _ s l) in *.
    assert (Hp0s : page_table_ s !! p0 = Some f0) by (apply Hin; by left).
    assert (Hp0a : page_table_ acc !! p0 = Some f0) by (by rewrite Hpt).
    destruct (FlushPgImp_resident acc p0 f0 Hca Hp0a) as [Hfr Hd].
    assert (Hpages : pages_ (FlushPgImp p0 acc).2 =
              upd_frame f0
                (λ p, mkPage (data_ p) (page_id_ p) (pin_count_ p) false)
                (pages_ acc)).
    { unfold FlushPgImp, FindPage. rewrite Hp0a.
      pose proof Hca as (Hpta & _). destruct (Hpta p0 f0 Hp0a) as [[? _] _].
      rewrite decide_False by (unfold INVALID_PAGE_ID; lia). simpl.
      by rewrite pages_FlushPageReally. }
    assert (Hpt' : page_table_ (FlushPgImp p0 acc).2 = page_table_ s).
    { rewrite <- Hpt. unfold FlushPgImp, FindPage. rewrite Hp0a.
      case_decide; [done|]. simpl. apply page_table_FlushPageReally. }
    split; [done|]. split; [by apply consistent_FlushPgImp|].
    intros p f Hp. destruct (IH p f Hp) as (Hdat & Hpin & Hyes & Hno).
    pose proof Hc as (Hpts & _).
    destruct (Hpts p f Hp) as [[Hf0 _] Hidf].
    destruct (Hpts p0 f0 Hp0s) as [[Hf00 _] Hidf0].
    pose proof Hca as (Hpta & _).
    destruct (Hpta p0 f0 Hp0a) as [[_ Hlen0] _].
    destruct (decide (p = p0)) as [->|Hne].
    + assert (f = f0) as -> by congruence.
      rewrite Hfr. simpl. split; [done|]. split; [done|]. split.
      * intros _. split; [done|]. intros Hdirty. rewrite Hd.
        rewrite (Hno Hp0), Hdirty, Hdat. apply ReadPage_WritePage_same.
      * intros Hn. destruct Hn. by left.
    + assert (Hff : f0 ≠ f) by (intros ->; congruence).
      assert (Hsame : frame (FlushPgImp p0 acc).2 f = frame acc f).
      { unfold frame. rewrite Hpages. unfold upd_frame.
        by rewrite list_lookup_alter_ne by lia. }
      rewrite Hsame. split; [done|]. split; [done|]. split.
      * intros [?|Hl]%elem_of_cons; [done|].
        destruct (Hyes Hl) as [Hcl Hrd]. split; [done|].
        intros Hdirty. rewrite Hd.
        destruct (is_dirty_ (frame acc f0)); [|by apply Hrd].
        rewrite ReadPage_WritePage_other by done. by apply Hrd.
      * intros Hn. apply Hno. intros Hl. apply Hn. by right.
Qed.

(** X11 (src/buffer/buffer_pool_manager_instance.cpp, FlushAllPgsImp,
    FlushPgImp): when the bookkeeping holds, FlushAllPgsImp leaves every
    resident page clean with its data and pin count as they were, keeps
    the page table, and the disk then holds the data of every page that
    was dirty. *)
Theorem FlushAllPgsImp_cleans_every_resident_page s :
  consistent s →
  page_table_ (FlushAllPgsImp s) = page_table_ s ∧
  ∀ p f, page_table_ s !! p = Some f →
    is_dirty_ (frame (FlushAllPgsImp s) f) = false ∧
    data_ (frame (FlushAllPgsImp s) f) = data_ (frame s f) ∧
    pin_count_ (frame (FlushAllPgsImp s) f) = pin_count_ (frame s f) ∧
    (is_dirty_ (frame s f) = true →
     ReadPage p (disk_manager_ (FlushAllPgsImp s)) = data_ (frame s f)).
Proof.
  intros Hc.
  destruct (flush_entries s (map_to_list (page_table_ s)) Hc) as (Hpt & _ & H).
  - apply NoDup_fst_map_to_list.
  - intros p f. by rewrite elem_of_map_to_list.
  - split; [done|]. intros p f Hp.
    destruct (H p f Hp) as (Hdat & Hpin & Hyes & _).
    destruct Hyes as [Hcl Hrd].
    { apply list_elem_of_fmap. exists (p, f). split; [done|].
      by apply elem_of_map_to_list. }
    done.
Qed.

Lemma FlushAllPgsImp_cleans_every_resident_page_witness :
  page_table_ (FlushAllPgsImp pool_two_dirty) = page_table_ pool_two_dirty ∧
  ∀ p f, page_table_ pool_two_dirty !! p = Some f →
    is_dirty_ (frame (FlushAllPgsImp pool_two_dirty) f) = false ∧
    data_ (frame (FlushAllPgsImp pool_two_dirty) f)
      = data_ (frame pool_two_dirty f) ∧
    pin_count_ (frame (FlushAllPgsImp pool_two_dirty) f)
      = pin_count_ (frame pool_two_dirty f) ∧
    (is_dirty_ (frame pool_two_dirty f) = true →
     ReadPage p (disk_manager_ (FlushAllPgsImp pool_two_dirty))
       = data_ (frame pool_two_dirty f)).
Proof.
  apply FlushAllPgsImp_cleans_every_resident_page.
  unfold pool_two_dirty.
  apply consistent_UnpinPgImp, consistent_UnpinPgImp.
  apply (consistent_same_page_ids
           (NewPgImp (NewPgImp (init 2 1 0 (mkDisk []))).2).2 _ 0
           (λ p, mkPage (replicate PAGE_SIZE 7) (page_id_ p)
                        (pin_count_ p) (is_dirty_ p))); try done.
  - apply consistent_NewPgImp, consistent_NewPgImp, consistent_init;
        vm_compute; discriminate.
  - split; [done | vm_compute; lia].
  - intros x Hx. by left.
Defined.

Lemma erase_node_length_elem f l :
  f ∈ l → S (length (LRU.erase_node f l)) = length l.
Proof.
  induction l as [|y l IH]; simpl; [by intros ?%elem_of_nil|].
  destruct (decide (y = f)); [done|].
  intros [?|Hf]%elem_of_cons; [congruence|]. simpl. by rewrite IH.
Qed.

(** X12 (src/buffer/buffer_pool_manager_instance.cpp, FetchPgImp,
    UnpinPgImp; src/buffer/lru_replacer.cpp, Pin, Unpin): touching a
    resident, unpinned page moves its frame to the back of the eviction
    order.  FetchPgImp followed by UnpinPgImp on such a page leaves the
    page table, the frame's data and its pin count of 0 as they were, and
    the replacer lists the other frames in their old order, then this
    frame. *)
Theorem fetch_unpin_moves_frame_to_back s pid f d :
  consistent s →
  LRU.wf (replacer_ s) →
  page_table_ s !! pid = Some f →
  pin_count_ (frame s f) = 0 →
  f ∈ LRU.lru_list_ (replacer_ s) →
  (FetchPgImp pid s).1 = Some f ∧
  (UnpinPgImp pid d (FetchPgImp pid s).2).1 = true ∧
  LRU.lru_list_ (replacer_ (UnpinPgImp pid d (FetchPgImp pid s).2).2) =
    LRU.erase_node f (LRU.lru_list_ (replacer_ s)) ++ [f] ∧
  page_table_ (UnpinPgImp pid d (FetchPgImp pid s).2).2 = page_table_ s ∧
  data_ (frame (UnpinPgImp pid d (FetchPgImp pid s).2).2 f) = data_ (frame s f) ∧
  pin_count_ (frame (UnpinPgImp pid d (FetchPgImp pid s).2).2 f) = 0.
Proof.
  intros (Hpts & _) (Hnd & Hmap & Hsz) Hpt Hpin Hf.
  destruct (Hpts pid f Hpt) as [[Hf0 Hlen] Hid].
  assert (Hne : f ≠ INVALID_PAGE_ID) by (unfold INVALID_PAGE_ID; lia).
  assert (Hfetch : FetchPgImp pid s =
    (Some f,
     set_pages (set_replacer s (LRU.Pin f (replacer_ s)))
       (upd_frame f
          (λ p, mkPage (data_ p) (page_id_ p) (pin_count_ p + 1) true)
          (pages_ s)))).
  { unfold FetchPgImp, FindPage. rewrite Hpt. by rewrite decide_True. }
  rewrite Hfetch. simpl. set (s1 := set_pages _ _).
  assert (Hfr1 : frame s1 f = mkPage (data_ (frame s f)) pid 1 true).
  { unfold s1. rewrite (frame_upd_same (set_replacer s _) f _ Hlen).
    change (frame (set_replacer s ?r) f) with (frame s f).
    by rewrite Hid, Hpin. }
  assert (Hlen1 : (Z.to_nat f < length (pages_ s1))%nat).
  { unfold s1, upd_frame. simpl. by rewrite length_alter. }
  assert (Hrep : LRU.Unpin f (LRU.Pin f (replacer_ s)) =
            LRU.mkLRU (LRU.lru_size_ (replacer_ s))
              (LRU.erase_node f (LRU.lru_list_ (replacer_ s)) ++ [f])
              (LRU.lru_map_ (replacer_ s) ∖ {[f]} ∪ {[f]})).
  { unfold LRU.Pin. rewrite decide_True by (by apply Hmap).
    apply Unpin_room; simpl.
    - rewrite elem_of_difference, elem_of_singleton. by intros [_ ?].
    - pose proof (erase_node_length_elem f _ Hf). lia. }
  unfold UnpinPgImp, FindPage.
  change (page_table_ s1) with (page_table_ s). rewrite Hpt.
  rewrite decide_False by (rewrite Hfr1; simpl; intros [?|?]; [done|lia]).
  set (s1' := if d then _ else s1).
  assert (Hfr1' : frame s1' f = mkPage (data_ (frame s f)) pid 1 true).
  { unfold s1'. destruct d; [|done].
    rewrite (frame_upd_same s1 f _ Hlen1). by rewrite Hfr1. }
  assert (Hlen1' : (Z.to_nat f < length (pages_ s1'))%nat).
  { unfold s1'. destruct d; [|done]. unfold upd_frame. simpl.
    by rewrite length_alter. }
  assert (Hrep1' : replacer_ s1' = LRU.Pin f (replacer_ s))
    by (unfold s1'; by destruct d).
  assert (Hpt1' : page_table_ s1' = page_table_ s)
    by (unfold s1'; by destruct d).
  set (s2 := set_pages s1' _).
  assert (Hfr2 : frame s2 f = mkPage (data_ (frame s f)) pid 0 true).
  { unfold s2. rewrite (frame_upd_same s1' f _ Hlen1'). by rewrite Hfr1'. }
  rewrite decide_True by (by rewrite Hfr2). simpl.
  rewrite replacer_FlushPageReally, page_table_FlushPageReally. simpl.
  rewrite Hrep1', Hrep, Hpt1'. simpl.
  split; [done|]. split; [done|]. split; [done|]. split; [done|].
  unfold frame at 1 3. rewrite pages_FlushPageReally.
  change (default empty_page (pages_ (set_replacer s2 ?r) !! Z.to_nat f))
    with (frame s2 f).
  by rewrite Hfr2.
Qed.

Lemma fetch_unpin_moves_frame_to_back_witness :
  (FetchPgImp 0 pool_two_dirty).1 = Some 0 ∧
  (UnpinPgImp 0 false (FetchPgImp 0 pool_two_dirty).2).1 = true ∧
  LRU.lru_list_ (replacer_ (UnpinPgImp 0 false (FetchPgImp 0 pool_two_dirty).2).2) =
    LRU.erase_node 0 (LRU.lru_list_ (replacer_ pool_two_dirty)) ++ [0] ∧
  page_table_ (UnpinPgImp 0 false (FetchPgImp 0 pool_two_dirty).2).2
    = page_table_ pool_two_dirty ∧
  data_ (frame (UnpinPgImp 0 false (FetchPgImp 0 pool_two_dirty).2).2 0)
    = data_ (frame pool_two_dirty 0) ∧
  pin_count_ (frame (UnpinPgImp 0 false (FetchPgImp 0 pool_two_dirty).2).2 0) = 0.
Proof.
  assert (Hc : consistent pool_two_dirty).
  { unfold pool_two_dirty.
    apply consistent_UnpinPgImp, consistent_UnpinPgImp.
    apply (consistent_same_page_ids
             (NewPgImp (NewPgImp (init 2 1 0 (mkDisk []))).2).2 _ 0
             (λ p, mkPage (replicate PAGE_SIZE 7) (page_id_ p)
                          (pin_count_ p) (is_dirty_ p))); try done.
    - apply consistent_NewPgImp, consistent_NewPgImp, consistent_init;
        vm_compute; discriminate.
    - split; [done | vm_compute; lia].
    - intros x Hx. by left. }
  assert (Hl : LRU.lru_list_ (replacer_ pool_two_dirty) = [0; 1])
    by (vm_compute; reflexivity).
  assert (Hm : LRU.lru_map_ (replacer_ pool_two_dirty) = {[0; 1]})
    by (vm_compute; reflexivity).
  assert (Hz : LRU.lru_size_ (replacer_ pool_two_dirty) = 2%nat)
    by (vm_compute; reflexivity).
  assert (Hwf : LRU.wf (replacer_ pool_two_dirty)).
  { unfold LRU.wf. rewrite Hl, Hm, Hz. split; [|split].
    - apply (bool_decide_unpack _). vm_compute. exact I.
    - intros x. rewrite !elem_of_cons, elem_of_nil, elem_of_union,
        !elem_of_singleton. tauto.
    - simpl. lia. }
  assert (H1 : page_table_ pool_two_dirty !! 0 = Some 0)
    by (vm_compute; reflexivity).
  assert (H2 : pin_count_ (frame pool_two_dirty 0) = 0)
    by (vm_compute; reflexivity).
  assert (H3 : 0 ∈ LRU.lru_list_ (replacer_ pool_two_dirty))
    by (rewrite Hl; by left).
  exact (fetch_unpin_moves_frame_to_back pool_two_dirty 0 0 false Hc Hwf H1 H2 H3).
Defined.

End BPMBehaviour.

(** ** Buffer pool: the dirty flag and the replacer *)

Section BPMDirty.
Import BPM.

Lemma NewPgImp_none s :
  (FindFreshPage s).1 = INVALID_PAGE_ID → NewPgImp s = (None, (FindFreshPage s).2).
Proof.
  intros Hf. unfold NewPgImp. destruct (FindFreshPage s) as [f s1].
  simpl in *. by rewrite decide_True.
Qed.

Lemma FetchPgImp_hit s pid f :
  page_table_ s !! pid = Some f → f ≠ INVALID_PAGE_ID →
  pages_ (FetchPgImp pid s).2 =
    upd_frame f (λ p, mkPage (data_ p) (page_id_ p) (pin_count_ p + 1) true)
      (pages_ s) ∧
  free_list_ (FetchPgImp pid s).2 = free_list_ s ∧
  replacer_ (FetchPgImp pid s).2 = LRU.Pin f (replacer_ s).
Proof.
  intros Hp Hf. unfold FetchPgImp. rewrite (FindPage_Some _ _ _ Hp).
  by rewrite decide_True.
Qed.

Lemma FetchPgImp_miss_none s pid :
  FindPage s pid = INVALID_PAGE_ID → (FindFreshPage s).1 = INVALID_PAGE_ID →
  (FetchPgImp pid s).2 = (FindFreshPage s).2.
Proof.
  intros Hp Hf. unfold FetchPgImp. rewrite Hp.
  rewrite decide_False by (intros H; by apply H).
  destruct (FindFreshPage s) as [f s1]. simpl in *. by rewrite decide_True.
Qed.

Lemma FetchPgImp_miss s pid :
  FindPage s pid = INVALID_PAGE_ID → (FindFreshPage s).1 ≠ INVALID_PAGE_ID →
  pages_ (FetchPgImp pid s).2 =
    upd_frame (FindFreshPage s).1
      (λ p, mkPage (ReadPage pid (disk_manager_ (FindFreshPage s).2)) pid
                   (pin_count_ p + 1) false)
      (pages_ (FindFreshPage s).2) ∧
  free_list_ (FetchPgImp pid s).2 = free_list_ (FindFreshPage s).2 ∧
  replacer_ (FetchPgImp pid s).2 =
    LRU.Pin (FindFreshPage s).1 (replacer_ (FindFreshPage s).2).
Proof.
  intros Hp Hf. unfold FetchPgImp. rewrite Hp.
  rewrite decide_False by (intros H; by apply H).
  destruct (FindFreshPage s) as [f s1]. simpl in *. by rewrite decide_False.
Qed.

(** Where the frame of [FindFreshPage] comes from. *)
Lemma FindFreshPage_source s :
  ((FindFreshPage s).1 = INVALID_PAGE_ID ∧ (FindFreshPage s).2 = s) ∨
  (∃ rest, free_list_ s = (FindFreshPage s).1 :: rest ∧
           (FindFreshPage s).2 = set_free_list s rest) ∨
  (evicts s (FindFreshPage s).1 ∧
   replacer_ (FindFreshPage s).2 = (LRU.Victim (replacer_ s)).2).
Proof.
  destruct (free_list_ s) as [|f0 rest] eqn:Efl.
  - destruct (LRU.lru_list_ (replacer_ s)) as [|f0 l] eqn:El.
    + left. unfold FindFreshPage, LRU.Victim. by rewrite Efl, El.
    + right. right. unfold evicts, FindFreshPage, LRU.Victim.
      rewrite Efl, El. simpl. rewrite replacer_FlushPageReally. done.
  - right. left. exists rest. by rewrite (FindFreshPage_free s f0 rest Efl).
Qed.

Lemma FindFreshPage_frames s h :
  consistent s → 0 ≤ h →
  frame (FindFreshPage s).2 h = frame s h ∨
  (evicts s h ∧ (FindFreshPage s).1 = h ∧
   is_dirty_ (frame (FindFreshPage s).2 h) = false).
Proof.
  intros Hc Hh.
  destruct (free_list_ s) as [|f0 rest] eqn:Efl.
  2: { rewrite (FindFreshPage_free s f0 rest Efl). by left. }
  destruct (LRU.lru_list_ (replacer_ s)) as [|f0 l] eqn:El.
  { left. unfold FindFreshPage, LRU.Victim. by rewrite Efl, El. }
  destruct (FindFreshPage_victim s f0 l Efl El) as (H1 & H2 & _).
  assert (Hin : in_pool s f0).
  { destruct Hc as (_ & _ & _ & Hrep). apply Hrep. rewrite El. by left. }
  rewrite (frame_updated s _ f0 _ h H2 Hin Hh).
  destruct (decide (f0 = h)) as [->|]; [right | by left].
  split; [|done]. split; [done|]. unfold LRU.Victim. by rewrite El.
Qed.

Lemma FindFreshPage_free_list_sub s h :
  h ∈ free_list_ (FindFreshPage s).2 → h ∈ free_list_ s.
Proof.
  destruct (FindFreshPage_source s) as [[_ ->]|[(rest & Hfl & ->)|[[Hfl Hv] _]]].
  - done.
  - simpl. rewrite Hfl. by right.
  - destruct (LRU.lru_list_ (replacer_ s)) as [|f0 l] eqn:El.
    + unfold LRU.Victim in Hv. by rewrite El in Hv.
    + destruct (FindFreshPage_victim s f0 l Hfl El) as (_ & _ & _ & -> & _).
      by intros ?%elem_of_nil.
Qed.

Lemma FindFreshPage_length s :
  length (pages_ (FindFreshPage s).2) = length (pages_ s).
Proof.
  destruct (FindFreshPage_source s) as [[_ ->]|[(rest & Hfl & ->)|[[Hfl Hv] _]]];
    [done | done |].
  destruct (LRU.lru_list_ (replacer_ s)) as [|f0 l] eqn:El.
  - unfold LRU.Victim in Hv. by rewrite El in Hv.
  - destruct (FindFreshPage_victim s f0 l Hfl El) as (_ & -> & _).
    unfold upd_frame. by rewrite length_alter.
Qed.

(** The frames after each operation: a frame is as before, or it is the
    frame the operation works on. *)
Lemma NewPgImp_frames s h :
  consistent s → 0 ≤ h →
  frame (NewPgImp s).2 h = frame (FindFreshPage s).2 h ∨
  ((FindFreshPage s).1 = h ∧ is_dirty_ (frame (NewPgImp s).2 h) = false).
Proof.
  intros Hc Hh. destruct (FindFreshPage_fresh s Hc) as [Hc1 Hfresh].
  destruct (decide ((FindFreshPage s).1 = INVALID_PAGE_ID)) as [Hf|Hf].
  - left. by rewrite (NewPgImp_none s Hf).
  - destruct (NewPgImp_fields s Hf) as (_ & Hp & _).
    destruct (Hfresh Hf) as (Hin & _).
    rewrite (frame_updated _ _ _ _ h Hp Hin Hh).
    destruct (decide ((FindFreshPage s).1 = h)); [by right | by left].
Qed.

Lemma FetchPgImp_frames s pid h :
  consistent s → 0 ≤ h →
  (frame (FetchPgImp pid s).2 h = frame s h) ∨
  (page_table_ s !! pid = Some h ∧
   is_dirty_ (frame (FetchPgImp pid s).2 h) = true) ∨
  (FindPage s pid = INVALID_PAGE_ID ∧
   (frame (FetchPgImp pid s).2 h = frame (FindFreshPage s).2 h ∨
    ((FindFreshPage s).1 = h ∧
     is_dirty_ (frame (FetchPgImp pid s).2 h) = false))).
Proof.
  intros Hc Hh.
  destruct (decide (FindPage s pid = INVALID_PAGE_ID)) as [Hmiss|Hhit].
  - right. right. split; [done|].
    destruct (FindFreshPage_fresh s Hc) as [Hc1 Hfresh].
    destruct (decide ((FindFreshPage s).1 = INVALID_PAGE_ID)) as [Hf|Hf].
    + left. by rewrite (FetchPgImp_miss_none s pid Hmiss Hf).
    + destruct (FetchPgImp_miss s pid Hmiss Hf) as (Hp & _).
      destruct (Hfresh Hf) as (Hin & _).
      rewrite (frame_updated _ _ _ _ h Hp Hin Hh).
      destruct (decide ((FindFreshPage s).1 = h)); [by right | by left].
  - unfold FindPage in Hhit.
    destruct (page_table_ s !! pid) as [f|] eqn:Hpt; [|done].
    destruct (FetchPgImp_hit s pid f Hpt Hhit) as (Hp & _).
    assert (Hin : in_pool s f) by (destruct Hc as (Hc & _); by apply (Hc pid)).
    rewrite (frame_updated _ _ _ _ h Hp Hin Hh).
    destruct (decide (f = h)) as [->|]; [right; left; by split | by left].
Qed.

Lemma UnpinPgImp_frames s pid d h :
  consistent s → 0 ≤ h →
  frame (UnpinPgImp pid d s).2 h = frame s h ∨
  (page_table_ s !! pid = Some h ∧
   is_dirty_ (frame (UnpinPgImp pid d s).2 h) = is_dirty_ (frame s h) || d).
Proof.
  intros Hc Hh. unfold UnpinPgImp. case_decide as Hgo; [by left|].
  assert (Hf : FindPage s pid ≠ INVALID_PAGE_ID) by tauto.
  clear Hgo. unfold FindPage in *.
  destruct (page_table_ s !! pid) as [f|] eqn:Hpt; [|done].
  assert (Hin : in_pool s f) by (destruct Hc as (Hc & _); by apply (Hc pid)).
  set (s1 := if d then _ else s).
  assert (Hs1 : in_pool s1 f ∧
                frame s1 h = if decide (f = h)
                             then mkPage (data_ (frame s f)) (page_id_ (frame s f))
                                    (pin_count_ (frame s f))
                                    (is_dirty_ (frame s f) || d)
                             else frame s h).
  { unfold s1. destruct d.
    - split; [unfold in_pool, upd_frame in *; simpl; by rewrite length_alter|].
      rewrite frame_upd by (done || apply Hin).
      destruct (decide (f = h)); [by rewrite orb_true_r | done].
    - split; [done|]. destruct (decide (f = h)) as [->|]; [|done].
      rewrite orb_false_r. by destruct (frame s h). }
  destruct Hs1 as [Hin1 Hfr1].
  set (s2 := set_pages s1 _).
  assert (Hfr2 : frame s2 h =
                 if decide (f = h)
                 then mkPage (data_ (frame s f)) (page_id_ (frame s f))
                        (pin_count_ (frame s f) - 1)
                        (is_dirty_ (frame s f) || d)
                 else frame s h).
  { unfold s2. rewrite frame_upd by (done || apply Hin1).
    destruct (decide (f = h)) as [->|Hne]; by rewrite Hfr1. }
  assert (Hfin : ∀ s3, pages_ s3 = pages_ s2 → frame s3 h = frame s2 h)
    by (intros s3 H3; unfold frame; by rewrite H3).
  match goal with |- context [(if ?c then ?a else ?b)] =>
    assert (Hres : frame (if c then a else b).2 h = frame s2 h)
  end.
  { destruct (decide (pin_count_ (frame s2 f) = 0)); simpl; [|done].
    apply Hfin. by rewrite pages_FlushPageReally. }
  rewrite Hres, Hfr2.
  destruct (decide (f = h)) as [->|]; [right; by split | by left].
Qed.

Lemma FlushPgImp_frames s pid h :
  consistent s → 0 ≤ h →
  frame (FlushPgImp pid s).2 h = frame s h ∨
  (page_table_ s !! pid = Some h ∧
   is_dirty_ (frame (FlushPgImp pid s).2 h) = false).
Proof.
  intros Hc Hh. unfold FlushPgImp. case_decide as Hf; [by left|]. simpl.
  unfold FindPage in *.
  destruct (page_table_ s !! pid) as [f|] eqn:Hpt; [|done].
  assert (Hin : in_pool s f) by (destruct Hc as (Hc & _); by apply (Hc pid)).
  assert (Hin1 : in_pool (FlushPageReally pid s) f)
    by (unfold in_pool; by rewrite pages_FlushPageReally).
  rewrite frame_upd by (done || apply Hin1).
  destruct (decide (f = h)) as [->|]; [right; by split | left].
  unfold frame. by rewrite pages_FlushPageReally.
Qed.

Lemma DeletePgImp_frames s pid h :
  consistent s → 0 ≤ h →
  (frame (DeletePgImp pid s).2 h = frame s h ∧
   (h ∈ free_list_ (DeletePgImp pid s).2 → h ∈ free_list_ s)) ∨
  (page_table_ s !! pid = Some h ∧ pin_count_ (frame s h) ≤ 0 ∧
   is_dirty_ (frame (DeletePgImp pid s).2 h) = false).
Proof.
  intros Hc Hh. unfold DeletePgImp.
  change (frame (DeallocatePage pid s)) with (frame s).
  change (FindPage (DeallocatePage pid s) pid) with (FindPage s pid).
  case_decide as Hf; [by left|]. case_decide as Hpin; [by left|]. simpl.
  unfold FindPage in *.
  destruct (page_table_ s !! pid) as [f|] eqn:Hpt; [|done].
  assert (Hin : in_pool s f) by (destruct Hc as (Hc & _); by apply (Hc pid)).
  pose proof (frame_upd (DeallocatePage pid s) f
                (λ p, mkPage zero_data INVALID_PAGE_ID (pin_count_ p) false) h
                (proj1 Hin) Hh (proj2 Hin)) as Hfr.
  unfold frame in *. simpl in *. rewrite Hfr.
  destruct (decide (f = h)) as [->|Hne].
  - right. split; [done|]. split; [lia | done].
  - left. split; [done|].
    intros [?|?%list_elem_of_singleton]%elem_of_app; [done | congruence].
Qed.

(** [FlushAllPgsImp] over any list of entries. *)
Lemma flush_entries_frames (l : list (Z * Z)) s h :
  consistent s → 0 ≤ h →
  let s' := foldr (λ item acc, snd (FlushPgImp item.1 acc)) s l in
  consistent s' ∧ page_table_ s' = page_table_ s ∧
  free_list_ s' = free_list_ s ∧ replacer_ s' = replacer_ s ∧
  length (pages_ s') = length (pages_ s) ∧
  (frame s' h = frame s h ∨
   ((∃ item, item ∈ l ∧ page_table_ s !! item.1 = Some h) ∧
    is_dirty_ (frame s' h) = false)).
Proof.
  intros Hc Hh. induction l as [|item l IH]; simpl.
  { repeat (split; [done|]). by left. }
  destruct IH as (Hc' & Hpt' & Hfl' & Hrep' & Hlen' & Hfr').
  set (acc := foldr _ s l) in *.
  split; [by apply consistent_FlushPgImp|].
  assert (Hfields : page_table_ (FlushPgImp item.1 acc).2 = page_table_ acc ∧
                    free_list_ (FlushPgImp item.1 acc).2 = free_list_ acc ∧
                    replacer_ (FlushPgImp item.1 acc).2 = replacer_ acc ∧
                    length (pages_ (FlushPgImp item.1 acc).2) = length (pages_ acc)).
  { unfold FlushPgImp. case_decide; [done|]. simpl.
    rewrite page_table_FlushPageReally, free_list_FlushPageReally,
      replacer_FlushPageReally. unfold upd_frame.
    by rewrite length_alter, pages_FlushPageReally. }
  destruct Hfields as (H1 & H2 & H3 & H4).
  split; [by rewrite H1|]. split; [by rewrite H2|]. split; [by rewrite H3|].
  split; [by rewrite H4|].
  destruct (FlushPgImp_frames acc item.1 h Hc' Hh) as [Hsame|[Hp Hclean]].
  - rewrite Hsame. destruct Hfr' as [?|[(it & Hit & Hp) Hclean]]; [by left|].
    right. split; [|done]. exists it. split; [by right | done].
  - right. split; [|done]. exists item. split; [by left|]. by rewrite <- Hpt'.
Qed.

(** A call clears a dirty flag only by a flush of the page in the frame, by
    evicting the frame, or by deleting its page; and it sets the dirty flag
    only of a frame that the page table names. *)
Lemma call_dirty_flag c s h :
  consistent s → free_frames_clean s → 0 ≤ h →
  (is_dirty_ (frame s h) = true → is_dirty_ (frame (call c s) h) = false →
   flushes_or_evicts c s h ∨ deletes c s h) ∧
  (is_dirty_ (frame s h) = false → is_dirty_ (frame (call c s) h) = true →
   ∃ p, page_table_ s !! p = Some h).
Proof.
  intros Hc Hclean Hh.
  assert (Hfresh : (∃ rest, free_list_ s = h :: rest ∧ (FindFreshPage s).1 = h) →
                   is_dirty_ (frame s h) = false).
  { intros (rest & Hfl & _). apply Hclean. rewrite Hfl. by left. }
  assert (Hffp : (FindFreshPage s).1 = h → is_dirty_ (frame s h) = true →
                 evicts s h).
  { intros Hf Hd.
    destruct (FindFreshPage_source s) as [[Hinv _]|[(rest & Hfl & _)|[Hev _]]].
    - rewrite Hf in Hinv. unfold INVALID_PAGE_ID in Hinv. lia.
    - rewrite Hf in Hfl. rewrite Hclean in Hd; [done|]. rewrite Hfl. by left.
    - by rewrite Hf in Hev. }
  destruct c as [|pid|pid d|pid| |pid]; simpl.
  - destruct (NewPgImp_frames s h Hc Hh) as [->|[Hf Hcl]];
      (destruct (FindFreshPage_frames s h Hc Hh) as [Hs|(Hev & _ & Hcl')]).
    + rewrite Hs. split; congruence.
    + split; [intros; by left | congruence].
    + split; [intros Hd _; left; by apply Hffp | congruence].
    + split; [intros; by left | congruence].
  - destruct (FetchPgImp_frames s pid h Hc Hh)
      as [->|[[Hp Hd]|[Hmiss [->|[Hf Hcl]]]]];
      try (split; congruence).
    + split; [congruence | intros; by exists pid].
    + destruct (FindFreshPage_frames s h Hc Hh) as [Hs|(Hev & _ & Hcl')].
      * rewrite Hs. split; congruence.
      * split; [intros; left; by split | congruence].
    + split; [intros Hd _; left; split; [done | by apply Hffp] | congruence].
  - destruct (UnpinPgImp_frames s pid d h Hc Hh) as [->|[Hp Hd]];
      [split; congruence|].
    rewrite Hd. split.
    + intros ->. done.
    + intros; by exists pid.
  - destruct (FlushPgImp_frames s pid h Hc Hh) as [->|[Hp Hd]];
      [split; congruence|].
    split; [intros; by left | congruence].
  - destruct (flush_entries_frames (map_to_list (page_table_ s)) s h Hc Hh)
      as (_ & _ & _ & _ & _ & [Hs|[(item & _ & Hp) Hd]]).
    + unfold FlushAllPgsImp. rewrite Hs. split; congruence.
    + unfold FlushAllPgsImp. split; [|congruence].
      intros _ _. left. by exists item.1.
  - destruct (DeletePgImp_frames s pid h Hc Hh) as [[-> _]|(Hp & Hpin & Hd)];
      [split; congruence|].
    split; [intros; right; by split | congruence].
Qed.

(** The free list after a call: its frames were there before, or the call
    has just reset them. *)
Lemma call_free_list c s h :
  consistent s → 0 ≤ h →
  h ∈ free_list_ (call c s) →
  h ∈ free_list_ s ∨ is_dirty_ (frame (call c s) h) = false.
Proof.
  intros Hc Hh. destruct c as [|pid|pid d|pid| |pid]; simpl.
  - destruct (decide ((FindFreshPage s).1 = INVALID_PAGE_ID)) as [Hf|Hf].
    + rewrite (NewPgImp_none s Hf). simpl. left.
      by apply FindFreshPage_free_list_sub.
    + destruct (NewPgImp_fields s Hf) as (_ & _ & _ & -> & _). left.
      by apply FindFreshPage_free_list_sub.
  - destruct (decide (FindPage s pid = INVALID_PAGE_ID)) as [Hmiss|Hhit].
    + destruct (decide ((FindFreshPage s).1 = INVALID_PAGE_ID)) as [Hf|Hf].
      * rewrite (FetchPgImp_miss_none s pid Hmiss Hf). left.
        by apply FindFreshPage_free_list_sub.
      * destruct (FetchPgImp_miss s pid Hmiss Hf) as (_ & -> & _). left.
        by apply FindFreshPage_free_list_sub.
    + unfold FindPage in Hhit.
      destruct (page_table_ s !! pid) as [f|] eqn:Hpt; [|done].
      destruct (FetchPgImp_hit s pid f Hpt Hhit) as (_ & -> & _). by left.
  - assert (free_list_ (UnpinPgImp pid d s).2 = free_list_ s) as ->; [|by left].
    unfold UnpinPgImp. case_decide; [done|]. case_decide; simpl.
    + rewrite free_list_FlushPageReally. simpl. by destruct d.
    + by destruct d.
  - assert (free_list_ (FlushPgImp pid s).2 = free_list_ s) as ->; [|by left].
    unfold FlushPgImp. case_decide; [done|]. simpl.
    by rewrite free_list_FlushPageReally.
  - destruct (flush_entries_frames (map_to_list (page_table_ s)) s h Hc Hh)
      as (_ & _ & Hfl & _).
    unfold FlushAllPgsImp. rewrite Hfl. by left.
  - destruct (DeletePgImp_frames s pid h Hc Hh) as [[_ Hsub]|(_ & _ & Hd)];
      [intros; left; by apply Hsub | by right].
Qed.

Lemma free_frames_clean_call c s :
  consistent s → free_frames_clean s → free_frames_clean (call c s).
Proof.
  intros Hc Hclean h Hin.
  assert (Hc' : consistent (call c s)).
  { destruct c; simpl;
      [ by apply consistent_NewPgImp | by apply consistent_FetchPgImp
      | by apply consistent_UnpinPgImp | by apply consistent_FlushPgImp
      | by apply consistent_FlushAllPgsImp | by apply consistent_DeletePgImp ]. }
  assert (Hh : 0 ≤ h).
  { destruct Hc' as (_ & _ & Hfree & _). by destruct (Hfree h Hin) as [[? _] _]. }
  destruct (call_free_list c s h Hc Hh Hin) as [Hold|Hnew]; [|done].
  destruct (is_dirty_ (frame (call c s) h)) eqn:Hd; [|done].
  destruct (call_dirty_flag c s h Hc Hclean Hh) as [_ Hset].
  destruct (Hset (Hclean h Hold) Hd) as [p Hp].
  destruct Hc as (_ & _ & Hfree & _). destruct (Hfree h Hold) as [_ Hno].
  by destruct (Hno p).
Qed.

(** The replacer has room for every frame of the pool that it does not
    track yet. *)
Lemma Unpin_fits s f :
  consistent s → replacer_fits s → in_pool s f →
  LRU.Unpin_overflows f (replacer_ s) = false.
Proof.
  intros (_ & _ & _ & Hrep) [(Hnd & Hmap & _) Hsize] [Hf0 Hflen].
  apply not_true_is_false. rewrite Unpin_overflows_true.
  intros [Hnin Hfull]. rewrite <- Hmap in Hnin.
  assert (Hsub : f :: LRU.lru_list_ (replacer_ s) ⊆+
                 (Z.of_nat <$> seq 0 (length (pages_ s)))).
  { apply NoDup_submseteq; [by apply NoDup_cons|].
    intros x Hx.
    assert (Hx' : 0 ≤ x ∧ (Z.to_nat x < length (pages_ s))%nat).
    { apply elem_of_cons in Hx as [->|Hx]; [done | by apply Hrep]. }
    apply list_elem_of_fmap. exists (Z.to_nat x).
    split; [lia | apply elem_of_seq; lia]. }
  apply submseteq_length in Hsub.
  rewrite length_fmap, length_seq in Hsub. simpl in Hsub. lia.
Qed.

Lemma replacer_fits_call c s :
  consistent s → replacer_fits s → replacer_fits (call c s).
Proof.
  intros Hc [Hwf Hsize].
  assert (Hffp : replacer_fits (FindFreshPage s).2).
  { split; [|rewrite FindFreshPage_length];
      (destruct (FindFreshPage_source s) as [[_ ->]|[(rest & _ & ->)|[_ ->]]];
       [done | done |]).
    - by apply wf_Victim.
    - rewrite <- Hsize. unfold LRU.Victim.
      by destruct (LRU.lru_list_ (replacer_ s)). }
  assert (Hpin : ∀ f r n, LRU.wf r → LRU.lru_size_ r = n →
            LRU.wf (LRU.Pin f r) ∧ LRU.lru_size_ (LRU.Pin f r) = n).
  { intros f r n Hr Hn. split; [by apply wf_Pin|].
    unfold LRU.Pin. by case_decide. }
  destruct c as [|pid|pid d|pid| |pid]; simpl.
  - destruct (decide ((FindFreshPage s).1 = INVALID_PAGE_ID)) as [Hf|Hf].
    + by rewrite (NewPgImp_none s Hf).
    + destruct (NewPgImp_fields s Hf) as (_ & Hp & _ & _ & Hr & _).
      unfold replacer_fits. rewrite Hr, Hp. unfold upd_frame.
      by rewrite length_alter.
  - destruct (decide (FindPage s pid = INVALID_PAGE_ID)) as [Hmiss|Hhit].
    + destruct (decide ((FindFreshPage s).1 = INVALID_PAGE_ID)) as [Hf|Hf].
      * by rewrite (FetchPgImp_miss_none s pid Hmiss Hf).
      * destruct (FetchPgImp_miss s pid Hmiss Hf) as (Hp & _ & Hr).
        unfold replacer_fits. rewrite Hr, Hp. unfold upd_frame.
        rewrite length_alter. apply Hpin; apply Hffp.
    + unfold FindPage in Hhit.
      destruct (page_table_ s !! pid) as [f|] eqn:Hpt; [|done].
      destruct (FetchPgImp_hit s pid f Hpt Hhit) as (Hp & _ & Hr).
      unfold replacer_fits. rewrite Hr, Hp. unfold upd_frame.
      rewrite length_alter. by apply Hpin.
  - unfold UnpinPgImp. case_decide as Hgo; [done|].
    assert (Hf : FindPage s pid ≠ INVALID_PAGE_ID) by tauto.
    clear Hgo. unfold FindPage in *.
    destruct (page_table_ s !! pid) as [f|] eqn:Hpt; [|done].
    assert (Hin : in_pool s f) by (destruct Hc as (Hc & _); by apply (Hc pid)).
    set (s1 := if d then _ else s).
    assert (Hs1 : replacer_ s1 = replacer_ s ∧
                  length (pages_ s1) = length (pages_ s)).
    { unfold s1. destruct d; [|done]. simpl. unfold upd_frame.
      by rewrite length_alter. }
    destruct Hs1 as [Hr1 Hl1].
    case_decide; simpl.
    + unfold replacer_fits.
      rewrite replacer_FlushPageReally, pages_FlushPageReally. simpl.
      unfold upd_frame. rewrite length_alter, Hr1, Hl1. split.
      * apply wf_Unpin; [done|]. by apply (Unpin_fits s).
      * unfold LRU.Unpin. by case_decide.
    + unfold replacer_fits. simpl. unfold upd_frame.
      by rewrite length_alter, Hr1, Hl1.
  - unfold FlushPgImp. case_decide; [done|]. unfold replacer_fits. simpl.
    rewrite replacer_FlushPageReally. unfold upd_frame.
    by rewrite length_alter, pages_FlushPageReally.
  - destruct (flush_entries_frames (map_to_list (page_table_ s)) s 0 Hc)
      as (_ & _ & _ & Hr & Hl & _); [lia|].
    unfold FlushAllPgsImp, replacer_fits. by rewrite Hr, Hl.
  - unfold DeletePgImp. case_decide; [done|]. case_decide; [done|].
    unfold replacer_fits. simpl. unfold upd_frame. by rewrite length_alter.
Qed.

Lemma pool_invariant_call c s : pool_invariant s → pool_invariant (call c s).
Proof.
  intros (Hc & Hfit & Hclean).
  split; [|split].
  - destruct c; simpl;
      [ by apply consistent_NewPgImp | by apply consistent_FetchPgImp
      | by apply consistent_UnpinPgImp | by apply consistent_FlushPgImp
      | by apply consistent_FlushAllPgsImp | by apply consistent_DeletePgImp ].
  - by apply replacer_fits_call.
  - by apply free_frames_clean_call.
Qed.

Lemma pool_invariant_calls cs s : pool_invariant s → pool_invariant (calls cs s).
Proof.
  revert s. induction cs as [|c cs IH]; intros s Hs; [done|].
  simpl. by apply IH, pool_invariant_call.
Qed.

Lemma pool_invariant_init n M k dm :
  Z.of_nat n ≤ 2 ^ 31 → pool_invariant (init n M k dm).
Proof.
  intros Hn. split; [by apply consistent_init|]. split.
  - split; [apply wf_init|]. simpl. by rewrite length_replicate.
  - intros f Hf. rewrite init_free_list in Hf by done.
    apply list_elem_of_fmap in Hf as (i & -> & Hi). apply elem_of_seq in Hi.
    unfold frame, init. simpl. rewrite Nat2Z.id.
    rewrite lookup_replicate_2 by lia. done.
Qed.

(** C10, as the code has it: when [UnpinPgImp] brings the pin count of a
    resident page from 1 to 0, in a pool whose bookkeeping holds, the call
    of the replacer's [Unpin] returns, with assertions as without, and the
    frame is in the replacer's list afterwards; the page is written to disk
    at once exactly when its dirty flag (after or-ing in [is_dirty]) is
    set, and that flag is still set afterwards.  After any later calls, a
    call that finds the flag set and leaves it clear is a flush of the page
    in the frame, the eviction of the frame as a victim, or a [DeletePage]
    of the page in the frame with no pin left. *)
Theorem UnpinPgImp_last_pin_flushes s pid is_dirty f :
  pool_invariant s →
  page_table_ s !! pid = Some f →
  pin_count_ (frame s f) = 1 →
  let dirty := is_dirty_ (frame s f) || is_dirty in
  let s' := (UnpinPgImp pid is_dirty s).2 in
  (UnpinPgImp pid is_dirty s).1 = true ∧
  pin_count_ (frame s' f) = 0 ∧
  (∀ assertions,
     LRU.Unpin_call assertions f (replacer_ s) = Some (replacer_ s')) ∧
  f ∈ LRU.lru_list_ (replacer_ s') ∧
  is_dirty_ (frame s' f) = dirty ∧
  data_ (frame s' f) = data_ (frame s f) ∧
  disk_manager_ s' =
    (if dirty then WritePage pid (data_ (frame s f)) (disk_manager_ s)
     else disk_manager_ s) ∧
  ∀ later c,
    is_dirty_ (frame (calls later s') f) = true →
    is_dirty_ (frame (call c (calls later s')) f) = false →
    flushes_or_evicts c (calls later s') f ∨ deletes c (calls later s') f.
Proof.
  intros Hinv Hpt Hpin dirty s'.
  pose proof Hinv as (Hc & Hfit & Hclean).
  assert (Hin : in_pool s f) by (destruct Hc as (Hc & _); by apply (Hc pid)).
  assert (Hne : f ≠ INVALID_PAGE_ID)
    by (destruct Hin as [? _]; unfold INVALID_PAGE_ID; lia).
  destruct (UnpinPgImp_last_pin s pid is_dirty f Hpt Hne (proj2 Hin) Hpin)
    as (H1 & H2 & H3 & H4 & H5 & H6).
  fold s' in H2, H3, H4, H5, H6. fold dirty in H4, H6.
  pose proof (Unpin_fits s f Hc Hfit Hin) as Hroom.
  assert (Hinv' : pool_invariant s')
    by exact (pool_invariant_call (UnpinPage pid is_dirty) s Hinv).
  split; [exact H1|]. split; [exact H2|]. split.
  { intros assertions. rewrite Unpin_call_cases, Hroom, andb_false_r.
    by rewrite H3. }
  split.
  { destruct Hinv' as (_ & [(_ & Hmap & _) _] & _). apply Hmap.
    rewrite H3. apply LRU_Unpin_elem. }
  split; [exact H4|]. split; [exact H5|]. split; [exact H6|].
  intros later c Hset Hclear.
  destruct (pool_invariant_calls later s' Hinv') as (Hc1 & _ & Hclean1).
  exact (proj1 (call_dirty_flag c _ f Hc1 Hclean1 (proj1 Hin)) Hset Hclear).
Qed.

Lemma UnpinPgImp_last_pin_flushes_witness :
  (UnpinPgImp 0 true pool_one_pinned).1 = true ∧
  pin_count_ (frame pool_dirty_unpinned 0) = 0 ∧
  (∀ assertions,
     LRU.Unpin_call assertions 0 (replacer_ pool_one_pinned)
       = Some (replacer_ pool_dirty_unpinned)) ∧
  0 ∈ LRU.lru_list_ (replacer_ pool_dirty_unpinned) ∧
  is_dirty_ (frame pool_dirty_unpinned 0) = true ∧
  disk_manager_ pool_dirty_unpinned = mkDisk [(0, zero_data)] ∧
  is_dirty_ (frame (call (FlushPage 0) pool_dirty_unpinned) 0) = false ∧
  (flushes_or_evicts (FlushPage 0) pool_dirty_unpinned 0 ∨
   deletes (FlushPage 0) pool_dirty_unpinned 0).
Proof.
  assert (Hinv : pool_invariant pool_one_pinned).
  { apply (pool_invariant_call NewPage), pool_invariant_init.
    vm_compute. discriminate. }
  assert (Hpt : page_table_ pool_one_pinned !! 0 = Some 0)
    by (vm_compute; reflexivity).
  assert (Hpin : pin_count_ (frame pool_one_pinned 0) = 1)
    by (vm_compute; reflexivity).
  assert (Hclear : is_dirty_ (frame (call (FlushPage 0) pool_dirty_unpinned) 0)
                   = false) by (vm_compute; reflexivity).
  destruct (UnpinPgImp_last_pin_flushes pool_one_pinned 0 true 0 Hinv Hpt Hpin)
    as (H1 & H2 & H3 & H4 & H5 & _ & H7 & H8).
  split; [exact H1|]. split; [exact H2|]. split; [exact H3|].
  split; [exact H4|]. split; [exact H5|]. split; [exact H7|].
  split; [exact Hclear|].
  exact (H8 [] (FlushPage 0) H5 Hclear).
Defined.

(** C10 as stated fails: the flag is not cleared by [FlushPage] or by a
    victim eviction only.  After [UnpinPage(0, true)] has brought the pin
    count of page 0 to 0, with the flag set, [DeletePage(0)] returns true
    and leaves the flag of the frame clear; it writes nothing and takes
    nothing from the replacer. *)
Lemma DeletePgImp_clears_dirty_flag_counterexample :
  (UnpinPgImp 0 true pool_one_pinned).1 = true ∧
  pin_count_ (frame pool_dirty_unpinned 0) = 0 ∧
  is_dirty_ (frame pool_dirty_unpinned 0) = true ∧
  (DeletePgImp 0 pool_dirty_unpinned).1 = true ∧
  is_dirty_ (frame (call (DeletePage 0) pool_dirty_unpinned) 0) = false ∧
  disk_manager_ (call (DeletePage 0) pool_dirty_unpinned)
    = disk_manager_ pool_dirty_unpinned ∧
  replacer_ (call (DeletePage 0) pool_dirty_unpinned)
    = replacer_ pool_dirty_unpinned ∧
  ¬ flushes_or_evicts (DeletePage 0) pool_dirty_unpinned 0.
Proof.
  split; [vm_compute; reflexivity|]. split; [vm_compute; reflexivity|].
  split; [vm_compute; reflexivity|]. split; [vm_compute; reflexivity|].
  split; [vm_compute; reflexivity|]. split; [vm_compute; reflexivity|].
  split; [vm_compute; reflexivity|]. intros [].
Qed.

(** X26 (src/buffer/buffer_pool_manager_instance.cpp, constructor and the
    six operations; src/buffer/lru_replacer.cpp, Unpin): the pool never
    makes its replacer overflow.  After any sequence of calls on a pool
    fresh from the constructor, the bookkeeping holds, the replacer's two
    containers agree and its capacity is the number of frames, no frame of
    the free list is dirty, and for the frame of every resident page the
    replacer's Unpin does not reach its overflow branch: the call returns,
    with assertions as without. *)
Theorem pool_never_overflows_replacer pool_size M k dm cs :
  Z.of_nat pool_size ≤ 2 ^ 31 →
  pool_invariant (calls cs (init pool_size M k dm)) ∧
  (LRU.Size (replacer_ (calls cs (init pool_size M k dm)))
     ≤ length (pages_ (calls cs (init pool_size M k dm))))%nat ∧
  ∀ page_id f,
    page_table_ (calls cs (init pool_size M k dm)) !! page_id = Some f →
    LRU.Unpin_overflows f (replacer_ (calls cs (init pool_size M k dm)))
      = false ∧
    ∀ assertions,
      LRU.Unpin_call assertions f (replacer_ (calls cs (init pool_size M k dm)))
      = Some (LRU.Unpin f (replacer_ (calls cs (init pool_size M k dm)))).
Proof.
  intros Hn.
  pose proof (pool_invariant_calls cs _ (pool_invariant_init pool_size M k dm Hn))
    as Hinv.
  split; [exact Hinv|].
  destruct Hinv as (Hc & Hfit & _). split.
  { destruct Hfit as [(_ & _ & Hlen) Hsize]. unfold LRU.Size. lia. }
  intros page_id f Hpt.
  assert (Hin : in_pool (calls cs (init pool_size M k dm)) f)
    by (destruct Hc as (Hc & _); by apply (Hc page_id)).
  pose proof (Unpin_fits _ f Hc Hfit Hin) as Hroom.
  split; [exact Hroom|]. intros assertions.
  by rewrite Unpin_call_cases, Hroom, andb_false_r.
Qed.

Lemma pool_never_overflows_replacer_witness :
  pool_invariant pool_after_three_calls ∧
  (LRU.Size (replacer_ pool_after_three_calls)
     ≤ length (pages_ pool_after_three_calls))%nat ∧
  page_table_ pool_after_three_calls !! 1 = Some 1 ∧
  LRU.lru_list_ (replacer_ pool_after_three_calls) = [0] ∧
  LRU.Unpin_overflows 1 (replacer_ pool_after_three_calls) = false ∧
  ∀ assertions,
    LRU.Unpin_call assertions 1 (replacer_ pool_after_three_calls)
    = Some (LRU.Unpin 1 (replacer_ pool_after_three_calls)).
Proof.
  unfold pool_after_three_calls.
  assert (Hn : Z.of_nat 3 ≤ 2 ^ 31) by (vm_compute; discriminate).
  assert (Hpt : page_table_ (calls [NewPage; NewPage; UnpinPage 0 true]
                               (init 3 1 0 (mkDisk []))) !! 1 = Some 1)
    by (vm_compute; reflexivity).
  destruct (pool_never_overflows_replacer 3 1 0 (mkDisk [])
              [NewPage; NewPage; UnpinPage 0 true] Hn)
    as (Hinv & Hsize & Hall).
  destruct (Hall 1 1 Hpt) as [Hroom Hret].
  split; [exact Hinv|]. split; [exact Hsize|]. split; [exact Hpt|].
  split; [vm_compute; reflexivity|]. split; [exact Hroom | exact Hret].
Defined.

End BPMDirty.

(** ** Bucket page as a set of pairs *)

Section BucketSpec.
Import Bucket.

Variable B : nat.

Lemma sized_byte b m :
  sized B b → (m < B)%nat →
  (m / 8 < length (occupied_ b))%nat ∧ (m / 8 < length (readable_ b))%nat.
Proof.
  intros (_ & Ho & Hr) Hm. rewrite Ho, Hr. split; by apply byte_index_lt.
Qed.

Lemma IsOccupied_lt b j : IsOccupied B b j = true → (j < B)%nat.
Proof.
  unfold IsOccupied. destruct (B <=? j)%nat eqn:E; [done|].
  intros _. by apply Nat.leb_gt.
Qed.

(** The slots of a bucket after [Insert] has written slot [m]. *)
Lemma stored_slot_reads b m k v j :
  sized B b → (m < B)%nat →
  let b' := mkBucket (set_bit (occupied_ b) m) (set_bit (readable_ b) m)
                     (<[m := (k, v)]> (array_ b)) in
  sized B b' ∧
  IsOccupied B b' j = (if decide (m = j) then true else IsOccupied B b j) ∧
  IsReadable B b' j = (if decide (m = j) then true else IsReadable B b j) ∧
  KeyAt B b' j = (if decide (m = j) then k else KeyAt B b j) ∧
  ValueAt B b' j = (if decide (m = j) then v else ValueAt B b j).
Proof.
  intros Hs Hm b'. destruct (sized_byte b m Hs Hm) as [Hbo Hbr].
  pose proof Hs as (Ha & Ho & Hr).
  assert (Hocc : IsOccupied B b' j =
                 if decide (m = j) then true else IsOccupied B b j).
  { unfold IsOccupied. simpl. destruct (B <=? j)%nat eqn:E.
    - apply Nat.leb_le in E. destruct (decide (m = j)); [lia | done].
    - by rewrite get_bit_set_bit. }
  assert (Hrd : IsReadable B b' j =
                if decide (m = j) then true else IsReadable B b j).
  { unfold IsReadable. rewrite Hocc. unfold IsOccupied. simpl.
    destruct (B <=? j)%nat eqn:E.
    - apply Nat.leb_le in E. destruct (decide (m = j)); [lia | done].
    - rewrite get_bit_set_bit by done. destruct (decide (m = j)); done. }
  split.
  { unfold sized, b', set_bit. simpl.
    by rewrite length_insert, !length_alter. }
  split; [done|]. split; [done|].
  unfold KeyAt, ValueAt. rewrite Hrd. simpl.
  destruct (decide (m = j)) as [<-|Hne]; simpl.
  - rewrite list_lookup_insert_eq by lia. done.
  - rewrite list_lookup_insert_ne by done. done.
Qed.

Lemma well_formed_readable_lt b m j :
  well_formed B b m → IsReadable B b j = true → (j < m)%nat.
Proof.
  intros (_ & _ & _ & Hno & _) Hr.
  destruct (le_lt_dec m j) as [Hle|]; [|done].
  apply IsReadable_occupied in Hr. rewrite Hno in Hr; done.
Qed.

Lemma well_formed_GetValue b m k v :
  well_formed B b m → (v ∈ (GetValue B b k []).2 ↔ holds B b k v).
Proof.
  intros Hw. unfold GetValue; simpl. split.
  - intros [Hin|?]%GetValue_loop_sound; [|done]. by apply elem_of_nil in Hin.
  - intros (j & Hr & Hk & Hv). subst v.
    pose proof (well_formed_readable_lt _ _ _ Hw Hr) as Hjm.
    destruct Hw as (Hm & _ & Hocc & _).
    apply GetValue_loop_complete; [lia | | done | done].
    intros j' Hj'. apply Hocc. lia.
Qed.

Lemma first_unoccupied_well_formed n i b m :
  well_formed B b m → (n + i = B)%nat → (i ≤ m)%nat →
  first_unoccupied B n i b = m.
Proof.
  intros (Hm & _ & Hocc & Hno & _).
  revert i. induction n as [|n IH]; intros i Hni Him; simpl; [lia|].
  destruct (IsOccupied B b i) eqn:Eo.
  - apply IH; [lia|].
    destruct (le_lt_dec m i) as [Hle|]; [|lia].
    rewrite Hno in Eo; done.
  - destruct (decide (i = m)) as [|Hne]; [done|].
    rewrite Hocc in Eo by lia. done.
Qed.

Lemma duplicate_check b m k v :
  well_formed B b m →
  existsb (λ v', v =? v') (GetValue B b k []).2 = true ↔ holds B b k v.
Proof.
  intros Hw. rewrite <- (well_formed_GetValue b m k v Hw).
  rewrite existsb_exists. split.
  - intros (x & Hin & ->%Z.eqb_eq). by apply list_elem_of_In.
  - intros Hin. exists v. split; [by apply list_elem_of_In | apply Z.eqb_refl].
Qed.

(** [Insert], case by case. *)
Lemma Insert_cases b m k v :
  well_formed B b m →
  (holds B b k v ∧ Insert B b k v = (false, b)) ∨
  (¬ holds B b k v ∧ m = B ∧ Insert B b k v = (false, b)) ∨
  (¬ holds B b k v ∧ (m < B)%nat ∧
   Insert B b k v =
     (true, mkBucket (set_bit (occupied_ b) m) (set_bit (readable_ b) m)
                     (<[m := (k, v)]> (array_ b)))).
Proof.
  intros Hw. pose proof (duplicate_check b m k v Hw) as Hdup.
  pose proof Hw as (Hm & Hs & _).
  unfold Insert.
  destruct (existsb _ _) eqn:E.
  - left. split; [by apply Hdup | done].
  - right. assert (Hnh : ¬ holds B b k v).
    { intros Hh. apply Hdup in Hh. congruence. }
    rewrite (first_unoccupied_well_formed B 0 b m Hw) by lia.
    destruct (m =? B)%nat eqn:Em.
    + left. apply Nat.eqb_eq in Em. done.
    + right. apply Nat.eqb_neq in Em. assert (m < B)%nat by lia.
      split; [done|]. split; [done|]. f_equal.
      destruct (sized_byte b m Hs) as [Hbo Hbr]; [done|].
      unfold SetReadable, SetOccupied, IsOccupied.
      assert ((B <=? m)%nat = false) as -> by (apply Nat.leb_gt; lia).
      simpl. rewrite get_bit_set_bit by done.
      destruct (decide (m = m)); done.
Qed.

Lemma holds_stored b m k v k' v' :
  well_formed B b m → (m < B)%nat →
  holds B (mkBucket (set_bit (occupied_ b) m) (set_bit (readable_ b) m)
                    (<[m := (k, v)]> (array_ b))) k' v' ↔
  holds B b k' v' ∨ (k' = k ∧ v' = v).
Proof.
  intros Hw Hm. pose proof Hw as (_ & Hs & _ & Hno & _). split.
  - intros (j & Hr & Hk & Hv).
    destruct (stored_slot_reads b m k v j Hs Hm) as (_ & _ & Hr' & Hk' & Hv').
    rewrite Hr' in Hr. rewrite Hk' in Hk. rewrite Hv' in Hv.
    destruct (decide (m = j)); [by right|]. left. by exists j.
  - intros [(j & Hr & Hk & Hv)|[-> ->]].
    + exists j.
      destruct (stored_slot_reads b m k v j Hs Hm) as (_ & _ & Hr' & Hk' & Hv').
      rewrite Hr', Hk', Hv'.
      pose proof (well_formed_readable_lt _ _ _ Hw Hr).
      destruct (decide (m = j)); [lia | done].
    + exists m.
      destruct (stored_slot_reads b m k v m Hs Hm) as (_ & _ & Hr' & Hk' & Hv').
      rewrite Hr', Hk', Hv'. by destruct (decide (m = m)).
Qed.

Lemma well_formed_stored b m k v :
  well_formed B b m → (m < B)%nat → ¬ holds B b k v →
  well_formed B (mkBucket (set_bit (occupied_ b) m) (set_bit (readable_ b) m)
                          (<[m := (k, v)]> (array_ b))) (S m).
Proof.
  intros Hw Hm Hnh. pose proof Hw as (_ & Hs & Hocc & Hno & Hdist).
  set (b' := mkBucket _ _ _).
  assert (Hslot := λ j, stored_slot_reads b m k v j Hs Hm).
  fold b' in Hslot.
  split; [lia|]. split; [apply (Hslot 0%nat)|].
  split; [|split].
  - intros j Hj. destruct (Hslot j) as (_ & -> & _).
    destruct (decide (m = j)); [done | apply Hocc; lia].
  - intros j Hj. destruct (Hslot j) as (_ & -> & _).
    destruct (decide (m = j)); [lia | apply Hno; lia].
  - intros i j.
    destruct (Hslot i) as (_ & _ & -> & -> & ->).
    destruct (Hslot j) as (_ & _ & -> & -> & ->).
    destruct (decide (m = i)) as [<-|Hi], (decide (m = j)) as [<-|Hj];
      intros Hri Hrj Hk Hv.
    + done.
    + destruct Hnh. exists j. done.
    + destruct Hnh. exists i. done.
    + by apply Hdist.
Qed.

Lemma holds_Insert b m k v k' v' :
  well_formed B b m →
  holds B (Insert B b k v).2 k' v' ↔
  holds B b k' v' ∨ ((Insert B b k v).1 = true ∧ k' = k ∧ v' = v).
Proof.
  intros Hw.
  destruct (Insert_cases b m k v Hw)
    as [[Hh ->]|[(Hnh & Hm & ->)|(Hnh & Hm & ->)]]; simpl.
  - split; [by left|]. by intros [?|[? _]].
  - split; [by left|]. by intros [?|[? _]].
  - rewrite holds_stored by done. tauto.
Qed.

Lemma Insert_true_iff b m k v :
  well_formed B b m →
  (Insert B b k v).1 = true ↔ ¬ holds B b k v ∧ (m < B)%nat.
Proof.
  intros Hw.
  destruct (Insert_cases b m k v Hw)
    as [[Hh ->]|[(Hnh & Hm & ->)|(Hnh & Hm & ->)]]; simpl.
  - split; [done | by intros [? _]].
  - split; [done | intros [_ ?]; lia].
  - done.
Qed.

(** X13 (src/storage/page/hash_table_bucket_page.cpp, Insert, GetValue,
    SetOccupied, SetReadable): Insert on a bucket page whose first m slots
    are occupied.  It returns true exactly if the pair is not live in the
    bucket and m is less than BUCKET_ARRAY_SIZE; then the bucket has one
    more occupied slot and holds the old pairs and the new one.  When it
    returns false the bucket is unchanged. *)
Theorem bucket_Insert_adds_the_pair b m k v :
  well_formed B b m →
  ((Insert B b k v).1 = true ↔ ¬ holds B b k v ∧ (m < B)%nat) ∧
  ((Insert B b k v).1 = false → (Insert B b k v).2 = b) ∧
  well_formed B (Insert B b k v).2 (if (Insert B b k v).1 then S m else m) ∧
  (∀ k' v', holds B (Insert B b k v).2 k' v' ↔
            holds B b k' v' ∨ ((Insert B b k v).1 = true ∧ k' = k ∧ v' = v)).
Proof.
  intros Hw.
  destruct (Insert_cases b m k v Hw)
    as [[Hh ->]|[(Hnh & Hm & ->)|(Hnh & Hm & ->)]]; simpl.
  - split; [split; [done | by intros [? _]]|]. split; [done|].
    split; [done|]. intros k' v'. split; [by left|]. by intros [?|[? _]].
  - split; [split; [done | intros [_ ?]; lia]|]. split; [done|].
    split; [done|]. intros k' v'. split; [by left|]. by intros [?|[? _]].
  - split; [done|]. split; [done|].
    split; [by apply well_formed_stored|].
    intros k' v'. rewrite holds_stored by done. tauto.
Qed.

(** [Remove_loop] removes the first slot that holds the pair. *)
Lemma Remove_loop_cases b m k v n : ∀ i,
  well_formed B b m → (n + i = B)%nat →
  (∃ j, (i ≤ j)%nat ∧ IsReadable B b j = true ∧ KeyAt B b j = k ∧
        ValueAt B b j = v ∧
        Remove_loop B n i b k v = (true, UnsetReadable B b j)) ∨
  ((∀ j, (i ≤ j)%nat → IsReadable B b j = true → KeyAt B b j = k →
         ValueAt B b j = v → False) ∧
   Remove_loop B n i b k v = (false, b)).
Proof.
  induction n as [|n IH]; intros i Hw Hni; simpl.
  - right. split; [|done]. intros j Hj Hr%IsReadable_lt. lia.
  - destruct (IsOccupied B b i) eqn:Eo.
    + destruct (IsReadable B b i && (KeyAt B b i =? k) && (ValueAt B b i =? v))
        eqn:Em.
      * left. apply andb_prop in Em as [[Hr Hk]%andb_prop Hv].
        apply Z.eqb_eq in Hk, Hv. exists i. done.
      * destruct (IH (S i) Hw ltac:(lia)) as [(j & Hj & H)|[Hnone Heq]].
        -- left. exists j. split; [lia | done].
        -- right. split; [|done]. intros j Hj Hr Hk Hv.
           destruct (decide (j = i)) as [->|Hne].
           ++ rewrite Hr, Hk, Hv, !Z.eqb_refl in Em. done.
           ++ apply (Hnone j); [lia | done..].
    + right. split; [|done]. intros j Hj Hr.
      pose proof (well_formed_readable_lt _ _ _ Hw Hr) as Hjm.
      destruct Hw as (_ & _ & Hocc & _). rewrite Hocc in Eo by lia. done.
Qed.

Lemma UnsetReadable_reads b i j :
  (i < B)%nat →
  IsOccupied B (UnsetReadable B b i) j = IsOccupied B b j ∧
  IsReadable B (UnsetReadable B b i) j =
    (if decide (i = j) then false else IsReadable B b j) ∧
  (i ≠ j → KeyAt B (UnsetReadable B b i) j = KeyAt B b j ∧
           ValueAt B (UnsetReadable B b i) j = ValueAt B b j).
Proof.
  intros Hi. pose proof (IsReadable_UnsetReadable B b i j) as Hr.
  split; [|split; [done|]].
  - unfold UnsetReadable. by destruct (B <=? i)%nat.
  - intros Hne. unfold KeyAt, ValueAt. rewrite Hr.
    destruct (decide (i = j)); [done|].
    unfold UnsetReadable. by destruct (B <=? i)%nat.
Qed.

Lemma well_formed_UnsetReadable b m i :
  well_formed B b m → (i < B)%nat → well_formed B (UnsetReadable B b i) m.
Proof.
  intros (Hm & Hs & Hocc & Hno & Hdist) Hi.
  assert (Hreads := λ j, UnsetReadable_reads b i j Hi).
  split; [done|]. split; [|split; [|split]].
  - destruct Hs as (Ha & Ho & Hr). unfold sized, UnsetReadable, clear_bit.
    destruct (B <=? i)%nat; simpl; [done|]. by rewrite length_alter.
  - intros j Hj. destruct (Hreads j) as (-> & _). by apply Hocc.
  - intros j Hj. destruct (Hreads j) as (-> & _). by apply Hno.
  - intros x y.
    destruct (Hreads x) as (_ & -> & Hx). destruct (Hreads y) as (_ & -> & Hy).
    destruct (decide (i = x)); [done|]. destruct (decide (i = y)); [done|].
    destruct (Hx ltac:(done)) as [-> ->]. destruct (Hy ltac:(done)) as [-> ->].
    apply Hdist.
Qed.

Lemma Remove_true_iff b m k v :
  well_formed B b m → (Remove B b k v).1 = true ↔ holds B b k v.
Proof.
  intros Hw. unfold Remove.
  destruct (Remove_loop_cases b m k v B 0 Hw ltac:(lia))
    as [(j & _ & Hr & Hk & Hv & ->)|[Hnone ->]]; simpl.
  - split; [intros _; by exists j | done].
  - split; [done|]. intros (j & Hr & Hk & Hv).
    destruct (Hnone j); [lia | done..].
Qed.

Lemma Remove_false_same b m k v :
  well_formed B b m → ¬ holds B b k v → Remove B b k v = (false, b).
Proof.
  intros Hw Hnh. unfold Remove.
  destruct (Remove_loop_cases b m k v B 0 Hw ltac:(lia))
    as [(j & _ & Hr & Hk & Hv & _)|[_ ->]]; [|done].
  destruct Hnh. by exists j.
Qed.

(** X14 (src/storage/page/hash_table_bucket_page.cpp, Remove,
    UnsetReadable): Remove returns true exactly if the pair is live in the
    bucket; afterwards the bucket holds the other pairs and not this one,
    and the number of occupied slots is what it was: the slot is left
    behind as a tombstone. *)
Theorem bucket_Remove_deletes_the_pair b m k v :
  well_formed B b m →
  ((Remove B b k v).1 = true ↔ holds B b k v) ∧
  well_formed B (Remove B b k v).2 m ∧
  (∀ k' v', holds B (Remove B b k v).2 k' v' ↔
            holds B b k' v' ∧ ¬ (k' = k ∧ v' = v)).
Proof.
  intros Hw. pose proof Hw as (_ & _ & _ & _ & Hdist). unfold Remove.
  destruct (Remove_loop_cases b m k v B 0 Hw ltac:(lia))
    as [(j & _ & Hr & Hk & Hv & ->)|[Hnone ->]]; simpl.
  - pose proof (IsReadable_lt B b j Hr) as Hj.
    assert (Hreads := λ x, UnsetReadable_reads b j x Hj).
    split; [split; [intros _; by exists j | done]|].
    split; [by apply well_formed_UnsetReadable|].
    intros k' v'. split.
    + intros (x & Hrx & Hkx & Hvx).
      destruct (Hreads x) as (_ & Hrx' & Hkv). rewrite Hrx' in Hrx.
      destruct (decide (j = x)) as [|Hne]; [done|].
      destruct (Hkv Hne) as [Hk' Hv']. rewrite Hk' in Hkx. rewrite Hv' in Hvx.
      split; [by exists x|]. intros [-> ->].
      apply Hne. apply Hdist; congruence.
    + intros [(x & Hrx & Hkx & Hvx) Hother]. exists x.
      destruct (Hreads x) as (_ & -> & Hkv).
      destruct (decide (j = x)) as [<-|Hne]; [destruct Hother; by subst|].
      destruct (Hkv Hne) as [-> ->]. done.
  - split; [split; [done|]|].
    + intros (j & Hr & Hk & Hv). destruct (Hnone j); [lia | done..].
    + split; [done|]. intros k' v'. split; [|by intros [? _]].
      intros Hh. split; [done|]. intros [-> ->].
      destruct Hh as (j & Hr & Hk & Hv). destruct (Hnone j); [lia | done..].
Qed.

Lemma well_formed_empty : well_formed B (empty_bucket B) 0.
Proof.
  assert (Hocc : ∀ j, IsOccupied B (empty_bucket B) j = false).
  { intros j. unfold IsOccupied; simpl.
    destruct (B <=? j)%nat; [done|]. apply get_bit_zeros. }
  split; [lia|]. split; [|split; [|split]].
  - unfold sized, empty_bucket. simpl. by rewrite !length_replicate.
  - intros j Hj. lia.
  - intros j _. apply Hocc.
  - intros i j Hi%IsReadable_occupied. by rewrite Hocc in Hi.
Qed.

Lemma well_formed_Insert b m k v :
  well_formed B b m →
  well_formed B (Insert B b k v).2 (if (Insert B b k v).1 then S m else m).
Proof.
  intros Hw.
  destruct (Insert_cases b m k v Hw)
    as [[Hh ->]|[(Hnh & Hm & ->)|(Hnh & Hm & ->)]]; simpl; try done.
  by apply well_formed_stored.
Qed.

Lemma GetValue_loop_app b k n : ∀ i r,
  GetValue_loop B n i b k r = r ++ GetValue_loop B n i b k [].
Proof.
  induction n as [|n IH]; intros i r; simpl; [by rewrite app_nil_r|].
  destruct (IsOccupied B b i); [|by rewrite app_nil_r].
  destruct (IsReadable B b i && (KeyAt B b i =? k)).
  - rewrite (IH _ (r ++ _)), (IH _ [_]). by rewrite <- app_assoc.
  - apply IH.
Qed.


(** X15 (src/storage/page/hash_table_bucket_page.cpp, GetValue): GetValue
    appends to the vector it is given exactly the values live under the
    key, and so its result only says whether that vector is non-empty in
    the end: it is true for an absent key when the vector already had an
    element.  Called with an empty vector, it returns true exactly if the
    key is live in the bucket. *)
Theorem bucket_GetValue_returns_the_values b m k result :
  well_formed B b m →
  (GetValue B b k result).2 = result ++ (GetValue B b k []).2 ∧
  (∀ v, v ∈ (GetValue B b k []).2 ↔ holds B b k v) ∧
  ((GetValue B b k result).1 = true ↔ result ≠ [] ∨ ∃ v, holds B b k v).
Proof.
  intros Hw.
  assert (Happ : (GetValue B b k result).2 = result ++ (GetValue B b k []).2).
  { unfold GetValue. simpl. apply GetValue_loop_app. }
  assert (Hval : ∀ v, v ∈ (GetValue B b k []).2 ↔ holds B b k v).
  { intros v. by apply well_formed_GetValue with m. }
  split; [done|]. split; [done|].
  assert (Hres : (GetValue B b k result).1 = true ↔ (GetValue B b k result).2 ≠ []).
  { unfold GetValue. simpl. by destruct (GetValue_loop _ _ _ _ _ _). }
  rewrite Hres, Happ. split.
  - intros Hne. destruct result as [|x r]; [|by left]. right.
    simpl in Hne. destruct ((GetValue B b k []).2) as [|v l] eqn:E; [done|].
    exists v. apply Hval. by left.
  - intros [Hr|[v Hv]].
    + by destruct result.
    + apply Hval in Hv. intros [_ Hnil]%app_eq_nil.
      rewrite Hnil in Hv. by apply elem_of_nil in Hv.
Qed.

(** X16 (src/storage/page/hash_table_bucket_page.cpp, Insert, Remove,
    IsFull): a tombstone is never used again.  Once every slot of a bucket
    is occupied, removing a pair makes IsFull false, yet Insert of any pair
    still returns false and stores nothing, because Insert looks for a slot
    that is not occupied and Remove only clears the readable bit. *)
Theorem tombstone_is_never_reused b k v k' v' :
  well_formed B b B →
  holds B b k v →
  (Remove B b k v).1 = true ∧
  IsFull B (Remove B b k v).2 = false ∧
  Insert B (Remove B b k v).2 k' v' = (false, (Remove B b k v).2).
Proof.
  intros Hw Hh. unfold Remove.
  destruct (Remove_loop_cases b B k v B 0 Hw ltac:(lia))
    as [(j & _ & Hr & Hk & Hv & ->)|[Hnone _]]; simpl.
  - pose proof (IsReadable_lt B b j Hr) as Hj.
    pose proof (well_formed_UnsetReadable b B j Hw Hj) as Hw'.
    split; [done|]. split.
    + destruct (IsFull B (UnsetReadable B b j)) eqn:Ef; [|done].
      pose proof (IsFull_all_readable B _ Ef j Hj) as Hrj.
      destruct (UnsetReadable_reads b j j Hj) as (_ & Hrj' & _).
      rewrite Hrj' in Hrj. by destruct (decide (j = j)).
    + destruct (Insert_cases _ B k' v' Hw')
        as [[_ ->]|[(_ & _ & ->)|(_ & Hlt & _)]]; [done | done | lia].
  - destruct Hh as (j & Hr & Hk' & Hv'). destruct (Hnone j); [lia | done..].
Qed.

Lemma live_slots_from b m i :
  well_formed B b m → (i ≤ m)%nat →
  ∀ n cnt, (n + i = B)%nat →
  NumReadable_loop B n i b cnt =
    (cnt + length (filter (λ j, IsReadable B b j = true) (seq i (m - i))))%nat.
Proof.
  intros Hw Him n. revert i Him.
  pose proof Hw as (Hm & _ & Hocc & Hno & _).
  induction n as [|n IH]; intros i Him cnt Hni; simpl.
  - replace (m - i)%nat with 0%nat by lia. simpl. lia.
  - destruct (IsOccupied B b i) eqn:Eo.
    + assert (i < m)%nat.
      { destruct (le_lt_dec m i) as [Hle|]; [|lia]. rewrite Hno in Eo; done. }
      replace (m - i)%nat with (S (m - S i)) by lia. simpl.
      rewrite IH by lia. rewrite filter_cons.
      destruct (IsReadable B b i) eqn:Er.
      * rewrite decide_True by done. simpl. lia.
      * rewrite decide_False by done. lia.
    + assert (i = m) as ->.
      { destruct (decide (i = m)); [done|]. rewrite Hocc in Eo by lia. done. }
      rewrite Nat.sub_diag. simpl. lia.
Qed.

Lemma live_slots_prefix b m :
  well_formed B b m →
  live_slots B b = filter (λ j, IsReadable B b j = true) (seq 0 m).
Proof.
  intros Hw. pose proof Hw as (Hm & _). unfold live_slots.
  assert (Hseq : seq 0 B = seq 0 m ++ seq m (B - m)).
  { replace B with (m + (B - m))%nat at 1 by lia. apply seq_app. }
  rewrite Hseq, filter_app.
  assert (filter (λ j, IsReadable B b j = true) (seq m (B - m)) = [])
    as ->; [|by rewrite app_nil_r].
  destruct (filter _ _) as [|x l] eqn:E; [done|].
  assert (Hx : x ∈ filter (λ j, IsReadable B b j = true) (seq m (B - m)))
    by (rewrite E; by left).
  apply list_elem_of_filter in Hx as [Hr Hx%elem_of_seq].
  pose proof (well_formed_readable_lt _ _ _ Hw Hr). lia.
Qed.

(** X17 (src/storage/page/hash_table_bucket_page.cpp, NumReadable,
    IsEmpty, IsFull): NumReadable counts the slots that hold a live pair,
    tombstones excluded; IsEmpty is true exactly if no pair is live, and
    IsFull exactly if every slot of the page holds a live pair. *)
Theorem NumReadable_counts_live_slots b m :
  well_formed B b m →
  NumReadable B b = length (live_slots B b) ∧
  (IsEmpty B b = true ↔ ∀ k v, ¬ holds B b k v) ∧
  (IsFull B b = true ↔ ∀ j, (j < B)%nat → IsReadable B b j = true).
Proof.
  intros Hw.
  assert (Hnum : NumReadable B b = length (live_slots B b)).
  { unfold NumReadable. rewrite (live_slots_from b m 0 Hw) by lia.
    rewrite (live_slots_prefix b m Hw). by rewrite Nat.sub_0_r. }
  split; [done|]. split.
  - unfold IsEmpty. rewrite Hnum, Nat.eqb_eq. split.
    + intros Hlen k v (j & Hr & _).
      assert (Hj : j ∈ live_slots B b).
      { apply list_elem_of_filter. split; [done|].
        apply elem_of_seq. pose proof (IsReadable_lt B b j Hr). lia. }
      destruct (live_slots B b); [by apply elem_of_nil in Hj | done].
    + intros Hnone. destruct (live_slots B b) as [|j l] eqn:E; [done|].
      assert (Hj : j ∈ live_slots B b) by (rewrite E; by left).
      apply list_elem_of_filter in Hj as [Hr _].
      destruct (Hnone (KeyAt B b j) (ValueAt B b j)). by exists j.
  - split; [apply IsFull_all_readable|].
    intros Hall. unfold IsFull. rewrite Hnum, Nat.eqb_eq.
    unfold live_slots.
    assert (Hsame : ∀ l : list nat, (∀ j, j ∈ l → (j < B)%nat) →
              filter (λ j, IsReadable B b j = true) l = l).
    { induction l as [|x l IH]; intros Hl; [done|].
      rewrite filter_cons_True by (apply Hall, Hl; by left).
      rewrite IH; [done|]. intros j Hj. apply Hl. by right. }
    rewrite Hsame; [apply length_seq|].
    intros j Hj%elem_of_seq. lia.
Qed.

End BucketSpec.

Section BucketExamples.
Import Bucket.

Lemma bucket_Insert_adds_the_pair_witness :
  ((Insert 4 (empty_bucket 4) 1 2).1 = true ↔
     ¬ holds 4 (empty_bucket 4) 1 2 ∧ (0 < 4)%nat) ∧
  ((Insert 4 (empty_bucket 4) 1 2).1 = false →
     (Insert 4 (empty_bucket 4) 1 2).2 = empty_bucket 4) ∧
  well_formed 4 (Insert 4 (empty_bucket 4) 1 2).2
    (if (Insert 4 (empty_bucket 4) 1 2).1 then 1%nat else 0%nat) ∧
  (∀ k' v', holds 4 (Insert 4 (empty_bucket 4) 1 2).2 k' v' ↔
            holds 4 (empty_bucket 4) k' v' ∨
            ((Insert 4 (empty_bucket 4) 1 2).1 = true ∧ k' = 1 ∧ v' = 2)).
Proof.
  exact (bucket_Insert_adds_the_pair 4 (empty_bucket 4) 0 1 2
           (well_formed_empty 4)).
Defined.

Lemma bucket_Remove_deletes_the_pair_witness :
  ((Remove 4 (Insert 4 (empty_bucket 4) 1 2).2 1 2).1 = true ↔
     holds 4 (Insert 4 (empty_bucket 4) 1 2).2 1 2) ∧
  well_formed 4 (Remove 4 (Insert 4 (empty_bucket 4) 1 2).2 1 2).2 1 ∧
  (∀ k' v', holds 4 (Remove 4 (Insert 4 (empty_bucket 4) 1 2).2 1 2).2 k' v' ↔
            holds 4 (Insert 4 (empty_bucket 4) 1 2).2 k' v' ∧
            ¬ (k' = 1 ∧ v' = 2)).
Proof.
  pose proof (well_formed_Insert 4 (empty_bucket 4) 0 1 2 (well_formed_empty 4))
    as Hw.
  assert (Hi : (Insert 4 (empty_bucket 4) 1 2).1 = true)
    by (vm_compute; reflexivity).
  rewrite Hi in Hw.
  exact (bucket_Remove_deletes_the_pair 4 _ 1 1 2 Hw).
Defined.

Lemma bucket_GetValue_returns_the_values_witness :
  (GetValue 4 (empty_bucket 4) 1 [9]).2 = [9] ++ (GetValue 4 (empty_bucket 4) 1 []).2 ∧
  (∀ v, v ∈ (GetValue 4 (empty_bucket 4) 1 []).2 ↔ holds 4 (empty_bucket 4) 1 v) ∧
  ((GetValue 4 (empty_bucket 4) 1 [9]).1 = true ↔
     [9] ≠ [] ∨ ∃ v, holds 4 (empty_bucket 4) 1 v).
Proof.
  exact (bucket_GetValue_returns_the_values 4 (empty_bucket 4) 0 1 [9]
           (well_formed_empty 4)).
Defined.

Lemma NumReadable_counts_live_slots_witness :
  NumReadable 4 (empty_bucket 4) = length (live_slots 4 (empty_bucket 4)) ∧
  (IsEmpty 4 (empty_bucket 4) = true ↔ ∀ k v, ¬ holds 4 (empty_bucket 4) k v) ∧
  (IsFull 4 (empty_bucket 4) = true ↔
     ∀ j, (j < 4)%nat → IsReadable 4 (empty_bucket 4) j = true).
Proof.
  exact (NumReadable_counts_live_slots 4 (empty_bucket 4) 0 (well_formed_empty 4)).
Defined.

Lemma tombstone_is_never_reused_witness :
  (Remove 2 (Insert 2 (Insert 2 (empty_bucket 2) 1 1).2 2 2).2 1 1).1 = true ∧
  IsFull 2 (Remove 2 (Insert 2 (Insert 2 (empty_bucket 2) 1 1).2 2 2).2 1 1).2
    = false ∧
  Insert 2 (Remove 2 (Insert 2 (Insert 2 (empty_bucket 2) 1 1).2 2 2).2 1 1).2 3 3
    = (false, (Remove 2 (Insert 2 (Insert 2 (empty_bucket 2) 1 1).2 2 2).2 1 1).2).
Proof.
  pose proof (well_formed_Insert 2 (empty_bucket 2) 0 1 1 (well_formed_empty 2))
    as Hw1.
  assert (H1 : (Insert 2 (empty_bucket 2) 1 1).1 = true)
    by (vm_compute; reflexivity).
  rewrite H1 in Hw1.
  pose proof (well_formed_Insert 2 _ 1 2 2 Hw1) as Hw2.
  assert (H2 : (Insert 2 (Insert 2 (empty_bucket 2) 1 1).2 2 2).1 = true)
    by (vm_compute; reflexivity).
  rewrite H2 in Hw2.
  assert (Hh : holds 2 (Insert 2 (Insert 2 (empty_bucket 2) 1 1).2 2 2).2 1 1).
  { exists 0%nat. vm_compute. done. }
  exact (tombstone_is_never_reused 2 _ 1 1 3 3 Hw2 Hh).
Defined.

End BucketExamples.

(** ** Extendible hash table over its bucket pages *)

Section TableSpec.
Import Bucket Directory ExtHash.

Variable B : nat.
Variable GetHash : Z → Z.

(** [Merge] rewrites the directory only. *)
Lemma Merge_loop_buckets n : ∀ i t t',
  Merge_loop B n i t = Some t' →
  buckets_ t' = buckets_ t ∧ next_page_id_ t' = next_page_id_ t ∧
  directory_page_id_ t' = directory_page_id_ t.
Proof.
  induction n as [|n IH]; intros i t t'; simpl.
  - by intros [= <-].
  - case_decide; [|by intros [= <-]].
    destruct (FetchBucketPage t _); simpl; [|done].
    intros Hm. by apply IH in Hm.
Qed.

Lemma Insert_without_split_eq fuel t k v b :
  FetchBucketPage t (KeyToPageId GetHash k (dir_ t)) = Some b →
  IsFull B b = false →
  Insert B GetHash fuel t k v =
    Some ((Bucket.Insert B b k v).1,
          set_bucket t (KeyToPageId GetHash k (dir_ t)) (Bucket.Insert B b k v).2).
Proof.
  intros Hb Hnf. unfold Insert. cbv zeta.
  fold (KeyToPageId GetHash k (dir_ t)). rewrite Hb. simpl. rewrite Hnf. simpl.
  by destruct (Bucket.Insert B b k v).
Qed.

Lemma table_holds_GetValue t k v b m :
  FetchBucketPage t (KeyToPageId GetHash k (dir_ t)) = Some b →
  well_formed B b m → holds B b k v →
  ∃ vs, GetValue B GetHash t k [] = Some (true, vs) ∧ v ∈ vs.
Proof.
  intros Hb Hw Hh. unfold GetValue. rewrite Hb. simpl.
  assert (Hv : v ∈ (Bucket.GetValue B b k []).2)
    by (by eapply well_formed_GetValue).
  destruct (Bucket.GetValue B b k []) as [found vs] eqn:E. simpl in Hv.
  exists vs. split; [|done]. f_equal. f_equal.
  unfold Bucket.GetValue in E. injection E as <- Hvs.
  rewrite Hvs. destruct vs; [by apply elem_of_nil in Hv | done].
Qed.

Lemma not_full_below b m :
  well_formed B b m → (m < B)%nat → IsFull B b = false.
Proof.
  intros Hw Hm. destruct (IsFull B b) eqn:Ef; [|done].
  pose proof (IsFull_all_readable B b Ef m Hm) as Hr.
  pose proof (well_formed_readable_lt B b m m Hw Hr). lia.
Qed.

(** X18 (src/container/hash/extendible_hash_table.cpp, Insert, GetValue,
    KeyToPageId, FetchBucketPage): Insert without a split.  When the
    bucket page of the key is not full, Insert leaves the directory alone,
    returns true exactly if the pair was not in the table and the page
    still has a slot that was never occupied, and afterwards the table
    holds what it held plus, on success, the new pair; a successful Insert
    is seen by GetValue. *)
Theorem table_Insert_without_split fuel t k v b m :
  FetchBucketPage t (KeyToPageId GetHash k (dir_ t)) = Some b →
  well_formed B b m →
  IsFull B b = false →
  ∃ ok t',
    Insert B GetHash fuel t k v = Some (ok, t') ∧
    dir_ t' = dir_ t ∧
    (ok = true ↔ ¬ table_holds B GetHash t k v ∧ (m < B)%nat) ∧
    (∀ k' v', table_holds B GetHash t' k' v' ↔
              table_holds B GetHash t k' v' ∨ (ok = true ∧ k' = k ∧ v' = v)) ∧
    (ok = true →
     ∃ vs, GetValue B GetHash t' k [] = Some (true, vs) ∧ v ∈ vs).
Proof.
  intros Hb Hw Hnf.
  set (pid := KeyToPageId GetHash k (dir_ t)) in *.
  exists (Bucket.Insert B b k v).1,
         (set_bucket t pid (Bucket.Insert B b k v).2).
  assert (Hth : ∀ v0, table_holds B GetHash t k v0 ↔ holds B b k v0).
  { intros v0. unfold table_holds. fold pid. rewrite Hb. split.
    - by intros (? & [= <-] & ?).
    - intros ?. by exists b. }
  split.
  { unfold Insert. cbv zeta. fold (KeyToPageId GetHash k (dir_ t)). fold pid.
    rewrite Hb. simpl. rewrite Hnf. simpl.
    by destruct (Bucket.Insert B b k v). }
  split; [done|].
  split; [by rewrite Hth; apply Insert_true_iff|].
  split.
  - intros k' v'. unfold table_holds, FetchBucketPage. simpl.
    destruct (decide (KeyToPageId GetHash k' (dir_ t) = pid)) as [->|Hne].
    + rewrite lookup_insert_eq. unfold FetchBucketPage in Hb. rewrite Hb.
      split.
      * intros (? & [= <-] & Hh). apply (holds_Insert B b m) in Hh; [|done].
        destruct Hh as [?|?]; [left; by exists b | by right].
      * intros Hh. eexists. split; [done|].
        apply (holds_Insert B b m); [done|].
        destruct Hh as [(? & [= <-] & ?)|?]; [by left | by right].
    + rewrite lookup_insert_ne by done.
      split; [by left|]. intros [?|(_ & -> & _)]; done.
  - intros Hok. unfold GetValue. simpl. fold pid.
    unfold FetchBucketPage. simpl. rewrite lookup_insert_eq. simpl.
    pose proof (well_formed_Insert B b m k v Hw) as Hw'.
    assert (Hv : v ∈ (Bucket.GetValue B (Bucket.Insert B b k v).2 k []).2).
    { eapply well_formed_GetValue; [done|].
      apply (holds_Insert B b m); [done|]. by right. }
    destruct (Bucket.GetValue B _ k []) as [found vs] eqn:E. simpl in Hv.
    exists vs. split; [|done]. f_equal. f_equal.
    unfold Bucket.GetValue in E. injection E as <- Hvs.
    rewrite Hvs. destruct vs; [by apply elem_of_nil in Hv | done].
Qed.

(** X19 (src/container/hash/extendible_hash_table.cpp, Remove, Merge):
    Remove at the table.  A pair that is not in the table makes Remove
    return false and leave every page as it was.  Whenever Remove returns,
    it returns true exactly if the pair was in the table, the bucket page
    of the key holds the result of the bucket's Remove, and no other
    bucket page has changed or been freed: Merge only rewrites the
    directory. *)
Theorem table_Remove_changes_one_bucket t k v b m :
  FetchBucketPage t (KeyToPageId GetHash k (dir_ t)) = Some b →
  well_formed B b m →
  (¬ table_holds B GetHash t k v →
   Remove B GetHash t k v =
     Some (false, set_bucket t (KeyToPageId GetHash k (dir_ t)) b)) ∧
  (table_holds B GetHash t k v → IsEmpty B (Bucket.Remove B b k v).2 = false →
   Remove B GetHash t k v =
     Some (true, set_bucket t (KeyToPageId GetHash k (dir_ t))
                   (Bucket.Remove B b k v).2)) ∧
  (∀ ok t', Remove B GetHash t k v = Some (ok, t') →
     (ok = true ↔ table_holds B GetHash t k v) ∧
     buckets_ t' = <[KeyToPageId GetHash k (dir_ t) :=
                      (Bucket.Remove B b k v).2]> (buckets_ t) ∧
     next_page_id_ t' = next_page_id_ t).
Proof.
  intros Hb Hw.
  set (pid := KeyToPageId GetHash k (dir_ t)) in *.
  assert (Hth : table_holds B GetHash t k v ↔ holds B b k v).
  { unfold table_holds. fold pid. rewrite Hb. split.
    - by intros (? & [= <-] & ?).
    - intros ?. by exists b. }
  pose proof (Remove_true_iff B b m k v Hw) as Hok.
  split; [|split].
  - intros Hnh. unfold Remove. fold pid. rewrite Hb. simpl.
    rewrite (Remove_false_same B b m k v Hw) by (by rewrite <- Hth). done.
  - intros Hh Hne. unfold Remove. fold pid. rewrite Hb. simpl.
    destruct (Bucket.Remove B b k v) as [ok b1] eqn:E. simpl in *.
    assert (ok = true) as -> by (apply Hok; by apply Hth).
    by rewrite Hne.
  - intros ok t'. unfold Remove. fold pid. rewrite Hb. simpl.
    destruct (Bucket.Remove B b k v) as [ok1 b1] eqn:E. simpl in *.
    rewrite Hth, <- Hok.
    destruct (ok1 && IsEmpty B b1).
    + destruct (Merge B (set_bucket t pid b1)) as [t2|] eqn:Em; simpl; [|done].
      intros [= <- <-]. split; [done|].
      unfold Merge in Em. apply Merge_loop_buckets in Em as (-> & -> & _).
      done.
    + intros [= <- <-]. done.
Qed.

(** Every key of a new table is looked up in the first bucket page. *)
Lemma new_table_page p k :
  KeyToPageId GetHash k (dir_ (ExtendibleHashTable_new B p)) = p + 1.
Proof.
  unfold KeyToPageId, KeyToDirectoryIndex.
  assert (GetGlobalDepthMask (dir_ (ExtendibleHashTable_new B p)) = 1) as ->
    by reflexivity.
  destruct (land_1_cases (Hash GetHash k)) as [-> | ->]; reflexivity.
Qed.

Lemma insert_all_one_page fuel p kvs : ∀ t b m,
  dir_ t = dir_ (ExtendibleHashTable_new B p) →
  buckets_ t !! (p + 1) = Some b →
  well_formed B b m →
  NoDup kvs →
  (∀ k v, (k, v) ∈ kvs → ¬ holds B b k v) →
  (m + length kvs ≤ B)%nat →
  ∃ t' b',
    insert_all B GetHash fuel kvs t = Some (replicate (length kvs) true, t') ∧
    dir_ t' = dir_ t ∧
    buckets_ t' !! (p + 1) = Some b' ∧
    well_formed B b' (m + length kvs) ∧
    (∀ k v, holds B b' k v ↔ holds B b k v ∨ (k, v) ∈ kvs).
Proof.
  induction kvs as [|[k v] kvs IH]; intros t b m Hd Hb Hw Hnd Hnew Hlen; simpl.
  - exists t, b. rewrite Nat.add_0_r. split; [done|]. split; [done|].
    split; [done|]. split; [done|]. intros k v. split; [by left|].
    by intros [?|?%elem_of_nil].
  - simpl in Hlen. apply NoDup_cons in Hnd as [Hkv Hnd].
    assert (Hpid : KeyToPageId GetHash k (dir_ t) = p + 1)
      by (rewrite Hd; apply new_table_page).
    assert (Hfetch : FetchBucketPage t (KeyToPageId GetHash k (dir_ t)) = Some b)
      by (by rewrite Hpid).
    rewrite (Insert_without_split_eq fuel t k v b Hfetch)
      by (apply (not_full_below b m); [done | lia]).
    assert (Hok : (Bucket.Insert B b k v).1 = true).
    { apply (Insert_true_iff B b m); [done|]. split; [|lia].
      apply Hnew. by left. }
    pose proof (well_formed_Insert B b m k v Hw) as Hw1. rewrite Hok in Hw1.
    rewrite Hok, Hpid. simpl.
    destruct (IH (set_bucket t (p + 1) (Bucket.Insert B b k v).2)
                 (Bucket.Insert B b k v).2 (S m))
      as (t' & b' & -> & Hd' & Hb' & Hw' & Hh'); try done.
    + simpl. apply lookup_insert_eq.
    + intros k' v' Hin Hh. apply (holds_Insert B b m) in Hh; [|done].
      destruct Hh as [Hh|(_ & -> & ->)]; [|done].
      apply (Hnew k' v'); [by right | done].
    + lia.
    + simpl. exists t', b'. split; [done|]. split; [done|]. split; [done|].
      split; [by rewrite <- Nat.add_succ_comm|].
      intros k' v'. rewrite Hh', (holds_Insert B b m) by done.
      rewrite elem_of_cons. rewrite Hok. split.
      * intros [[?|(_ & -> & ->)]|?]; [by left | right; by left | right; by right].
      * intros [?|[[= -> ->]|?]]; [left; by left | left; by right | by right].
Qed.

(** X20 (src/container/hash/extendible_hash_table.cpp, constructor,
    Insert, GetValue, KeyToPageId, KeyToDirectoryIndex, Hash): a new table
    accepts as many pairs as one bucket page has slots.  Whatever the hash
    function, Insert of up to BUCKET_ARRAY_SIZE pairwise distinct pairs in
    a row returns true every time, afterwards the table holds exactly
    these pairs, and GetValue finds each of them. *)
Theorem new_table_accepts_one_page_of_pairs fuel p kvs :
  NoDup kvs →
  (length kvs ≤ B)%nat →
  ∃ t',
    insert_all B GetHash fuel kvs (ExtendibleHashTable_new B p) =
      Some (replicate (length kvs) true, t') ∧
    (∀ k v, table_holds B GetHash t' k v ↔ (k, v) ∈ kvs) ∧
    (∀ k v, (k, v) ∈ kvs →
       ∃ vs, GetValue B GetHash t' k [] = Some (true, vs) ∧ v ∈ vs).
Proof.
  intros Hnd Hlen.
  assert (Hnone : ∀ k v, ¬ holds B (empty_bucket B) k v).
  { intros k v (j & Hr%IsReadable_occupied & _).
    destruct (well_formed_empty B) as (_ & _ & _ & Hno & _).
    rewrite Hno in Hr by lia. done. }
  destruct (insert_all_one_page fuel p kvs (ExtendibleHashTable_new B p)
              (empty_bucket B) 0)
    as (t' & b' & Hins & Hd & Hb & Hw & Hh);
    [ done
    | unfold ExtendibleHashTable_new, NewBucketPage; simpl;
      rewrite lookup_insert_ne by lia; apply lookup_insert_eq
    | apply well_formed_empty
    | done
    | intros k v _; apply Hnone
    | simpl; lia
    | ].
  assert (Hfetch : ∀ k, FetchBucketPage t' (KeyToPageId GetHash k (dir_ t')) = Some b').
  { intros k. by rewrite Hd, new_table_page. }
  assert (Hth : ∀ k v, table_holds B GetHash t' k v ↔ (k, v) ∈ kvs).
  { intros k v. unfold table_holds. rewrite Hfetch. split.
    - intros (? & [= <-] & Hhb). apply Hh in Hhb as [Hhb|?]; [|done].
      by apply Hnone in Hhb.
    - intros Hin. exists b'. split; [done|]. apply Hh. by right. }
  exists t'. split; [done|]. split; [done|].
  intros k v Hin. apply (table_holds_GetValue t' k v b' (0 + length kvs));
    [done | done |]. apply Hh. by right.
Qed.

(** X25 (src/container/hash/extendible_hash_table.cpp, SplitInsert;
    src/storage/page/hash_table_bucket_page.cpp, RemoveAt, Insert, IsFull):
    a split closes the old bucket page for good.  After the migration loop
    of SplitInsert has run over a full bucket, every slot of that bucket is
    still occupied, so Insert of any pair into it returns false and stores
    nothing; and as soon as one pair has moved to the image bucket the old
    bucket is no longer full, so the table does not split it again. *)
Theorem split_closes_the_old_bucket bucket local_mask high_bits :
  IsFull B bucket = true →
  (∀ k v,
     Bucket.Insert B
       (migrate B GetHash (NumReadable B bucket) 0 local_mask high_bits
          bucket (empty_bucket B) 0).1.1.1 k v =
     (false,
      (migrate B GetHash (NumReadable B bucket) 0 local_mask high_bits
         bucket (empty_bucket B) 0).1.1.1)) ∧
  (∀ j, (j < B)%nat →
     Z.land (Hash GetHash (KeyAt B bucket j)) local_mask = high_bits →
     IsFull B
       (migrate B GetHash (NumReadable B bucket) 0 local_mask high_bits
          bucket (empty_bucket B) 0).1.1.1 = false).
Proof.
  intros Hfull.
  pose proof (IsFull_all_readable B bucket Hfull) as Hlive.
  assert (Hnum : NumReadable B bucket = B)
    by (unfold IsFull in Hfull; by apply Nat.eqb_eq in Hfull).
  rewrite Hnum.
  destruct (migrate B GetHash B 0 local_mask high_bits bucket (empty_bucket B) 0)
    as [[[b' img'] cnt'] stop] eqn:Em. simpl.
  split.
  - intros k v. apply Insert_all_occupied. intros j Hj.
    rewrite (migrate_occupied B GetHash _ _ _ _ _ _ _ _ _ _ _ Em).
    by apply IsReadable_occupied, Hlive.
  - intros j Hj Hmatch.
    destruct (migrate_live_suffix B GetHash local_mask high_bits B 0 bucket
                (empty_bucket B) 0 0 b' img' cnt' stop)
      as (_ & _ & _ & _ & _ & _ & Hslots);
      [lia | lia | apply packed_empty_bucket | intros; apply Hlive; lia | done |].
    specialize (Hslots j ltac:(lia)).
    rewrite Hmatch, Z.eqb_refl in Hslots. destruct Hslots as [Hr _].
    destruct (IsFull B b') eqn:Ef; [|done].
    by rewrite (IsFull_all_readable B b' Ef j Hj) in Hr.
Qed.

End TableSpec.

Section TableExamples.
Import Bucket Directory ExtHash.

Lemma table_Insert_without_split_witness :
  ∃ ok t',
    Insert 4 id_hash 1 (ExtendibleHashTable_new 4 0) 5 6 = Some (ok, t') ∧
    dir_ t' = dir_ (ExtendibleHashTable_new 4 0) ∧
    (ok = true ↔
       ¬ table_holds 4 id_hash (ExtendibleHashTable_new 4 0) 5 6 ∧ (0 < 4)%nat) ∧
    (∀ k' v', table_holds 4 id_hash t' k' v' ↔
              table_holds 4 id_hash (ExtendibleHashTable_new 4 0) k' v' ∨
              (ok = true ∧ k' = 5 ∧ v' = 6)) ∧
    (ok = true →
     ∃ vs, GetValue 4 id_hash t' 5 [] = Some (true, vs) ∧ 6 ∈ vs).
Proof.
  assert (H1 : FetchBucketPage (ExtendibleHashTable_new 4 0)
                 (KeyToPageId id_hash 5 (dir_ (ExtendibleHashTable_new 4 0)))
               = Some (empty_bucket 4)) by (vm_compute; reflexivity).
  assert (H2 : IsFull 4 (empty_bucket 4) = false) by (vm_compute; reflexivity).
  exact (table_Insert_without_split 4 id_hash 1 (ExtendibleHashTable_new 4 0)
           5 6 (empty_bucket 4) 0 H1 (well_formed_empty 4) H2).
Defined.

Lemma table_Remove_changes_one_bucket_witness :
  (Insert 4 id_hash 1 (ExtendibleHashTable_new 4 0) 5 6
     = Some (true, table_one_pair) ∧
   Insert 4 id_hash 1 table_one_pair 7 8 = Some (true, table_two_pairs)) ∧
  (table_holds 4 id_hash table_one_pair 5 6 ∧
   IsEmpty 4 (Bucket.Remove 4 bucket_one_pair 5 6).2 = true ∧
   ∃ t', Remove 4 id_hash table_one_pair 5 6 = Some (true, t') ∧
         buckets_ t' =
           <[KeyToPageId id_hash 5 (dir_ table_one_pair) :=
               (Bucket.Remove 4 bucket_one_pair 5 6).2]>
             (buckets_ table_one_pair) ∧
         next_page_id_ t' = next_page_id_ table_one_pair) ∧
  (table_holds 4 id_hash table_two_pairs 5 6 ∧
   Remove 4 id_hash table_two_pairs 5 6 =
     Some (true,
           set_bucket table_two_pairs
             (KeyToPageId id_hash 5 (dir_ table_two_pairs))
             (Bucket.Remove 4 bucket_two_pairs 5 6).2)) ∧
  (¬ table_holds 4 id_hash table_one_pair 5 7 ∧
   Remove 4 id_hash table_one_pair 5 7 =
     Some (false,
           set_bucket table_one_pair
             (KeyToPageId id_hash 5 (dir_ table_one_pair)) bucket_one_pair)).
Proof.
  assert (Hw1 : well_formed 4 bucket_one_pair 1)
    by exact (well_formed_Insert 4 _ 0 5 6 (well_formed_empty 4)).
  assert (Hw2 : well_formed 4 bucket_two_pairs 2)
    by exact (well_formed_Insert 4 _ 1 7 8 Hw1).
  assert (Hb1 : FetchBucketPage table_one_pair
                  (KeyToPageId id_hash 5 (dir_ table_one_pair))
                = Some bucket_one_pair) by (vm_compute; reflexivity).
  assert (Hb2 : FetchBucketPage table_two_pairs
                  (KeyToPageId id_hash 5 (dir_ table_two_pairs))
                = Some bucket_two_pairs) by (vm_compute; reflexivity).
  destruct (table_Remove_changes_one_bucket 4 id_hash table_one_pair 5 6
              bucket_one_pair 1 Hb1 Hw1) as (_ & _ & Hall1).
  destruct (table_Remove_changes_one_bucket 4 id_hash table_two_pairs 5 6
              bucket_two_pairs 2 Hb2 Hw2) as (_ & Hstay2 & Hall2).
  destruct (table_Remove_changes_one_bucket 4 id_hash table_one_pair 5 7
              bucket_one_pair 1 Hb1 Hw1) as (Habsent3 & _ & Hall3).
  assert (E1 : ∃ t', Remove 4 id_hash table_one_pair 5 6 = Some (true, t'))
    by (vm_compute; eexists; reflexivity).
  assert (E2 : ∃ t', Remove 4 id_hash table_two_pairs 5 6 = Some (true, t'))
    by (vm_compute; eexists; reflexivity).
  assert (E3 : ∃ t', Remove 4 id_hash table_one_pair 5 7 = Some (false, t'))
    by (vm_compute; eexists; reflexivity).
  destruct E1 as [t1 E1]. destruct E2 as [t2 E2]. destruct E3 as [t3 E3].
  destruct (Hall1 _ _ E1) as (Hok1 & Hbk1 & Hnx1).
  destruct (Hall2 _ _ E2) as (Hok2 & _).
  destruct (Hall3 _ _ E3) as (Hok3 & _).
  assert (Hh1 : table_holds 4 id_hash table_one_pair 5 6)
    by (by apply Hok1).
  assert (Hh2 : table_holds 4 id_hash table_two_pairs 5 6)
    by (by apply Hok2).
  assert (Hh3 : ¬ table_holds 4 id_hash table_one_pair 5 7)
    by (intros Hh; apply Hok3 in Hh; discriminate Hh).
  split; [split; vm_compute; reflexivity|].
  split.
  { split; [exact Hh1|]. split; [vm_compute; reflexivity|].
    exists t1. split; [exact E1|]. split; [exact Hbk1 | exact Hnx1]. }
  split.
  { split; [exact Hh2|]. apply (Hstay2 Hh2). vm_compute. reflexivity. }
  split; [exact Hh3 | exact (Habsent3 Hh3)].
Defined.

Lemma new_table_accepts_one_page_of_pairs_witness :
  ∃ t',
    insert_all 4 id_hash 1 [(5, 6); (7, 8)] (ExtendibleHashTable_new 4 0) =
      Some (replicate (length [(5, 6); (7, 8)]) true, t') ∧
    (∀ k v, table_holds 4 id_hash t' k v ↔ (k, v) ∈ [(5, 6); (7, 8)]) ∧
    (∀ k v, (k, v) ∈ [(5, 6); (7, 8)] →
       ∃ vs, GetValue 4 id_hash t' k [] = Some (true, vs) ∧ v ∈ vs).
Proof.
  apply (new_table_accepts_one_page_of_pairs 4 id_hash 1 0 [(5, 6); (7, 8)]).
  - apply (bool_decide_unpack _). vm_compute. exact I.
  - simpl. lia.
Defined.

Lemma split_closes_the_old_bucket_witness :
  (∀ k v,
     Bucket.Insert 4
       (migrate 4 id_hash (NumReadable 4 full_bucket4) 0 1 1
          full_bucket4 (empty_bucket 4) 0).1.1.1 k v =
     (false,
      (migrate 4 id_hash (NumReadable 4 full_bucket4) 0 1 1
         full_bucket4 (empty_bucket 4) 0).1.1.1)) ∧
  (∀ j, (j < 4)%nat →
     Z.land (Hash id_hash (KeyAt 4 full_bucket4 j)) 1 = 1 →
     IsFull 4
       (migrate 4 id_hash (NumReadable 4 full_bucket4) 0 1 1
          full_bucket4 (empty_bucket 4) 0).1.1.1 = false).
Proof.
  assert (Hfull : IsFull 4 full_bucket4 = true) by (vm_compute; reflexivity).
  exact (split_closes_the_old_bucket 4 id_hash full_bucket4 1 1 Hfull).
Defined.

End TableExamples.

(** ** Lock manager: admission and release *)

Section LockSpec.
Import LM.

(** When the requester's id names the requester, [Prevent] either changes
    nothing or leaves the requester ABORTED. *)
Lemma Prevent_loop_self txn txn_id reqs : ∀ rq w rq1 w1,
  id_txn_ w !! txn_id = Some txn →
  Prevent_loop txn_id reqs rq w = Some (rq1, w1) →
  (GetState txn w = Some ABORTED → GetState txn w1 = Some ABORTED) ∧
  ((rq1 = rq ∧ w1 = w) ∨ GetState txn w1 = Some ABORTED).
Proof.
  induction reqs as [|r reqs IH]; intros rq w rq1 w1 Hid; simpl.
  - intros [= <- <-]. split; [done | by left].
  - destruct (granted_ r && bool_decide (req_txn_id_ r = txn_id)) eqn:E.
    + apply andb_prop in E as [_ Heq%bool_decide_eq_true_1].
      rewrite Heq, Hid. destruct (heap w !! txn) as [t|] eqn:Ht; [|done].
      intros Hp. apply IH in Hp as [Hkeep _]; [|done].
      assert (Ha : GetState txn w1 = Some ABORTED)
        by (apply Hkeep; by apply (GetState_SetState txn ABORTED w t)).
      split; [done | by right].
    + by apply IH.
Qed.

Lemma emplace_txn_names txn_id txn w :
  (∀ a, id_txn_ w !! txn_id = Some a → a = txn) →
  id_txn_ (emplace_txn txn_id txn w) !! txn_id = Some txn.
Proof.
  intros Hid. unfold emplace_txn.
  destruct (id_txn_ w !! txn_id) as [a|] eqn:E.
  - by rewrite E, (Hid a).
  - simpl. apply lookup_insert_eq.
Qed.

Lemma is_aborted_true txn w :
  is_aborted txn w = true ↔ GetState txn w = Some ABORTED.
Proof. unfold is_aborted. apply bool_decide_eq_true. Qed.

(** X21 (src/concurrency/lock_manager.cpp, LockShared, LockExclusive,
    Prevent): no grant over a holder.  While the queue of a row records an
    exclusive holder (waiting_), LockShared does not return true, and
    while it records any holder (waiting_ or a positive refcount_),
    LockExclusive does not return true: the call is suspended, throws, or
    is undefined.  The transaction id of the requester is assumed to name
    the requester in id_txn_, if it names anything. *)
Theorem lock_not_granted_over_a_holder w txn t rid rq :
  heap w !! txn = Some t →
  (∀ a, id_txn_ w !! txn_id_ t = Some a → a = txn) →
  lock_table_ w !! rid = Some rq →
  (waiting_ rq = true → (LockShared txn rid w).1 ≠ Returned true) ∧
  (waiting_ rq = true ∨ 0 < refcount_ rq →
   (LockExclusive txn rid w).1 ≠ Returned true).
Proof.
  intros Ht Hid Hrq.
  pose proof (emplace_txn_names _ _ _ Hid) as Hname.
  split.
  - intros Hw. unfold LockShared. rewrite Ht.
    case_decide; [done|]. case_decide; [done|].
    rewrite lock_table_emplace, Hrq. simpl. rewrite Hw.
    destruct (Prevent _ _ _) as [[rq1 w1]|] eqn:Ep; [|done].
    unfold Prevent in Ep.
    apply (Prevent_loop_self txn) in Ep as [_ Hp]; [|done].
    unfold LockShared_wait, LockShared_grant.
    destruct (is_aborted txn w1) eqn:Ea; simpl; [done|].
    destruct Hp as [[-> ->]|Hab]; [|apply is_aborted_true in Hab; congruence].
    simpl. by rewrite Hw.
  - intros Hheld. unfold LockExclusive. rewrite Ht.
    case_decide; [done|].
    rewrite lock_table_emplace, Hrq. simpl.
    assert (Hcond : waiting_ rq || bool_decide (0 < refcount_ rq) = true).
    { destruct Hheld as [->|Hr]; [done|].
      rewrite (bool_decide_eq_true_2 _ Hr). apply orb_true_r. }
    rewrite Hcond.
    destruct (Prevent _ _ _) as [[rq1 w1]|] eqn:Ep; [|done].
    unfold Prevent in Ep.
    apply (Prevent_loop_self txn) in Ep as [_ Hp]; [|done].
    unfold LockExclusive_wait, LockExclusive_grant.
    destruct (is_aborted txn w1) eqn:Ea; simpl; [done|].
    destruct Hp as [[-> ->]|Hab]; [|apply is_aborted_true in Hab; congruence].
    simpl.
    assert (negb (waiting_ rq) && bool_decide (refcount_ rq = 0) = false) as ->.
    { destruct Hheld as [->|Hr]; [done|].
      rewrite bool_decide_eq_false_2 by lia. apply andb_false_r. }
    done.
Qed.

Lemma lock_not_granted_over_a_holder_witness :
  (waiting_ (mkRQ [mkReq 1 SHARED true] 1 false false) = true →
   (LockShared 102 r0 world_T1_shared_T2_idle).1 ≠ Returned true) ∧
  (waiting_ (mkRQ [mkReq 1 SHARED true] 1 false false) = true ∨
   0 < refcount_ (mkRQ [mkReq 1 SHARED true] 1 false false) →
   (LockExclusive 102 r0 world_T1_shared_T2_idle).1 ≠ Returned true).
Proof.
  assert (Ht : heap world_T1_shared_T2_idle !! 102 =
               Some (fresh_txn 2 REPEATABLE_READ))
    by (vm_compute; reflexivity).
  assert (Hid : ∀ a, id_txn_ world_T1_shared_T2_idle
                       !! txn_id_ (fresh_txn 2 REPEATABLE_READ) = Some a →
                     a = 102)
    by (vm_compute; intros a Ha; discriminate Ha).
  assert (Hrq : lock_table_ world_T1_shared_T2_idle !! r0 =
                Some (mkRQ [mkReq 1 SHARED true] 1 false false))
    by (vm_compute; reflexivity).
  exact (lock_not_granted_over_a_holder _ 102 _ r0 _ Ht Hid Hrq).
Defined.

(** One granted [LockShared], one granted [LockExclusive] and one [Unlock],
    as seen from the transaction and the queue of the row. *)
Lemma LockShared_step w txn t rid :
  heap w !! txn = Some t →
  isolation_level_ t ≠ READ_UNCOMMITTED →
  state_ t = GROWING →
  waiting_ (default empty_rq (lock_table_ w !! rid)) = false →
  (LockShared txn rid w).1 = Returned true ∧
  heap (LockShared txn rid w).2 !! txn =
    Some (mkTxn (txn_id_ t) GROWING (isolation_level_ t)
                (shared_lock_set_ t ∪ {[rid]}) (exclusive_lock_set_ t)) ∧
  lock_table_ (LockShared txn rid w).2 !! rid =
    Some (grant_found (txn_id_ t)
            (set_refcount (refcount_ (default empty_rq (lock_table_ w !! rid)) + 1)
               (rq_insert (mkReq (txn_id_ t) SHARED false)
                  (default empty_rq (lock_table_ w !! rid))))).
Proof.
  intros Ht Hiso Hst Hw. unfold LockShared. rewrite Ht.
  rewrite decide_False by done. rewrite decide_False by congruence.
  rewrite lock_table_emplace. simpl. rewrite Hw.
  unfold LockShared_grant.
  assert (is_aborted txn (emplace_txn (txn_id_ t) txn w) = false) as ->.
  { unfold is_aborted. apply bool_decide_eq_false_2.
    rewrite GetState_emplace. unfold GetState. rewrite Ht. simpl. congruence. }
  simpl. split; [done|]. split.
  - rewrite lookup_alter_eq, heap_emplace, Ht. simpl. by rewrite Hst.
  - by rewrite lookup_insert_eq.
Qed.

Lemma LockExclusive_step w txn t rid :
  heap w !! txn = Some t →
  state_ t = GROWING →
  waiting_ (default empty_rq (lock_table_ w !! rid)) = false →
  refcount_ (default empty_rq (lock_table_ w !! rid)) ≤ 0 →
  (LockExclusive txn rid w).1 = Returned true ∧
  heap (LockExclusive txn rid w).2 !! txn =
    Some (mkTxn (txn_id_ t) GROWING (isolation_level_ t)
                (shared_lock_set_ t) (exclusive_lock_set_ t ∪ {[rid]})) ∧
  lock_table_ (LockExclusive txn rid w).2 !! rid =
    Some (grant_found (txn_id_ t)
            (set_waiting true
               (rq_insert (mkReq (txn_id_ t) EXCLUSIVE false)
                  (default empty_rq (lock_table_ w !! rid))))).
Proof.
  intros Ht Hst Hw Hr. unfold LockExclusive. rewrite Ht.
  rewrite decide_False by congruence.
  rewrite lock_table_emplace. simpl. rewrite Hw.
  rewrite bool_decide_eq_false_2 by lia. simpl.
  unfold LockExclusive_grant.
  assert (is_aborted txn (emplace_txn (txn_id_ t) txn w) = false) as ->.
  { unfold is_aborted. apply bool_decide_eq_false_2.
    rewrite GetState_emplace. unfold GetState. rewrite Ht. simpl. congruence. }
  simpl. split; [done|]. split.
  - rewrite lookup_alter_eq, heap_emplace, Ht. simpl. by rewrite Hst.
  - by rewrite lookup_insert_eq.
Qed.

Lemma Unlock_step w txn t rid rq :
  heap w !! txn = Some t →
  lock_table_ w !! rid = Some rq →
  (Unlock txn rid w).1 = Returned true ∧
  heap (Unlock txn rid w).2 !! txn =
    Some (mkTxn (txn_id_ t)
            (if negb (bool_decide (lock_mode_ (rq_remove (txn_id_ t) rq) = SHARED) &&
                      bool_decide (isolation_level_ t = READ_COMMITTED)) &&
                bool_decide (state_ t = GROWING)
             then SHRINKING else state_ t)
            (isolation_level_ t)
            (shared_lock_set_ t ∖ {[rid]}) (exclusive_lock_set_ t ∖ {[rid]})) ∧
  lock_table_ (Unlock txn rid w).2 !! rid =
    Some (released (lock_mode_ (rq_remove (txn_id_ t) rq)) rq).
Proof.
  intros Ht Hrq. unfold Unlock. rewrite Ht, Hrq. simpl.
  split; [done|]. split; [|by rewrite lookup_insert_eq].
  destruct (negb _ && _); simpl.
  - by rewrite !lookup_alter_eq, Ht.
  - by rewrite lookup_alter_eq, Ht.
Qed.

Lemma find_index_app_fresh txn_id l r :
  find_index txn_id l = None → req_txn_id_ r = txn_id →
  find_index txn_id (l ++ [r]) = Some (length l).
Proof.
  intros Hn Hr. induction l as [|x l IH]; simpl in *.
  - by rewrite decide_True.
  - destruct (decide (req_txn_id_ x = txn_id)); [done|].
    destruct (find_index txn_id l); [done|]. by rewrite IH.
Qed.

Lemma remove_scan_app_fresh txn_id l r :
  find_index txn_id l = None → req_txn_id_ r = txn_id →
  remove_scan txn_id (l ++ [r]) = r.
Proof.
  intros Hn Hr. induction l as [|x l IH]; simpl in *.
  - by rewrite decide_True.
  - destruct (decide (req_txn_id_ x = txn_id)); [done|].
    destruct (find_index txn_id l); [done|]. by apply IH.
Qed.

Lemma grant_found_fresh txn_id m l c wt up :
  find_index txn_id l = None →
  grant_found txn_id (mkRQ (l ++ [mkReq txn_id m false]) c wt up) =
  mkRQ (l ++ [mkReq txn_id m true]) c wt up.
Proof.
  intros Hn. unfold grant_found, rq_find. simpl.
  rewrite (find_index_app_fresh txn_id l _ Hn) by done.
  unfold set_granted. simpl. f_equal.
  rewrite alter_app_r_alt by lia. by rewrite Nat.sub_diag.
Qed.

(** X22 (src/concurrency/lock_manager.cpp, LockShared, LockExclusive,
    Unlock, LockRequestQueue::find, LockRequestQueue::remove): locking and
    unlocking a row restores the counters of its queue.  For a GROWING
    transaction that has no request in the queue yet, on a queue with no
    exclusive holder: if its isolation level is not READ_UNCOMMITTED,
    LockShared followed by Unlock both return true and leave refcount_ and
    waiting_ as they were; if refcount_ is 0, LockExclusive followed by
    Unlock both return true and leave refcount_ 0 and waiting_ false.  In
    both cases the request stays in the queue, marked granted, the row
    leaves the lock sets, and the transaction is SHRINKING afterwards,
    except after a shared lock under READ_COMMITTED. *)
Theorem lock_then_unlock_restores_counters w txn t rid rq :
  heap w !! txn = Some t →
  state_ t = GROWING →
  lock_table_ w !! rid = Some rq →
  rq_find (txn_id_ t) rq = None →
  waiting_ rq = false →
  (isolation_level_ t ≠ READ_UNCOMMITTED →
   (LockShared txn rid w).1 = Returned true ∧
   (Unlock txn rid (LockShared txn rid w).2).1 = Returned true ∧
   lock_table_ (Unlock txn rid (LockShared txn rid w).2).2 !! rid =
     Some (mkRQ (request_queue_ rq ++ [mkReq (txn_id_ t) SHARED true])
                (refcount_ rq) false (upgrading_ rq)) ∧
   heap (Unlock txn rid (LockShared txn rid w).2).2 !! txn =
     Some (mkTxn (txn_id_ t)
             (if decide (isolation_level_ t = READ_COMMITTED)
              then GROWING else SHRINKING)
             (isolation_level_ t)
             ((shared_lock_set_ t ∪ {[rid]}) ∖ {[rid]})
             (exclusive_lock_set_ t ∖ {[rid]}))) ∧
  (refcount_ rq = 0 →
   (LockExclusive txn rid w).1 = Returned true ∧
   (Unlock txn rid (LockExclusive txn rid w).2).1 = Returned true ∧
   lock_table_ (Unlock txn rid (LockExclusive txn rid w).2).2 !! rid =
     Some (mkRQ (request_queue_ rq ++ [mkReq (txn_id_ t) EXCLUSIVE true])
                0 false (upgrading_ rq)) ∧
   heap (Unlock txn rid (LockExclusive txn rid w).2).2 !! txn =
     Some (mkTxn (txn_id_ t) SHRINKING (isolation_level_ t)
             (shared_lock_set_ t ∖ {[rid]})
             ((exclusive_lock_set_ t ∪ {[rid]}) ∖ {[rid]}))).
Proof.
  intros Ht Hst Hrq Hfind Hw. unfold rq_find in Hfind.
  destruct rq as [l c wt up]. simpl in *. subst wt. split.
  - intros Hiso.
    destruct (LockShared_step w txn t rid Ht Hiso Hst) as (Hr1 & Hh1 & Hq1);
      [by rewrite Hrq|].
    rewrite Hrq in Hq1. simpl in Hq1.
    unfold rq_insert, set_refcount in Hq1. simpl in Hq1.
    rewrite grant_found_fresh in Hq1 by done.
    destruct (Unlock_step _ txn _ rid _ Hh1 Hq1) as (Hr2 & Hh2 & Hq2).
    unfold rq_remove in Hh2, Hq2. simpl in Hh2, Hq2.
    rewrite remove_scan_app_fresh in Hh2, Hq2 by done.
    simpl in Hh2, Hq2.
    split; [done|]. split; [done|]. split.
    + rewrite Hq2. unfold set_refcount. simpl. f_equal. f_equal. lia.
    + rewrite Hh2. f_equal. f_equal.
      destruct (decide (isolation_level_ t = READ_COMMITTED)) as [Hrc|Hrc].
      * by rewrite (bool_decide_eq_true_2 _ Hrc).
      * by rewrite (bool_decide_eq_false_2 _ Hrc).
  - intros ->.
    destruct (LockExclusive_step w txn t rid Ht Hst) as (Hr1 & Hh1 & Hq1);
      [by rewrite Hrq | by rewrite Hrq |].
    rewrite Hrq in Hq1. simpl in Hq1.
    unfold rq_insert, set_waiting in Hq1. simpl in Hq1.
    rewrite grant_found_fresh in Hq1 by done.
    destruct (Unlock_step _ txn _ rid _ Hh1 Hq1) as (Hr2 & Hh2 & Hq2).
    unfold rq_remove in Hh2, Hq2. simpl in Hh2, Hq2.
    rewrite remove_scan_app_fresh in Hh2, Hq2 by done.
    simpl in Hh2, Hq2.
    split; [done|]. split; [done|]. split; done.
Qed.

(** X23 (src/concurrency/lock_manager.cpp, LockShared, LockExclusive,
    Unlock, LockRequestQueue::find, LockRequestQueue::remove): a request
    left behind by Unlock makes a later exclusive lock impossible to
    release.  A READ_COMMITTED transaction that locks a new row shared,
    unlocks it, locks it exclusive and unlocks it again gets true from all
    four calls, but the second Unlock finds the old shared request first:
    it takes one off refcount_, which becomes -1, and leaves waiting_ set,
    although the transaction holds no lock on the row any more. *)
Theorem stale_request_leaves_row_locked w txn t rid :
  heap w !! txn = Some t →
  state_ t = GROWING →
  isolation_level_ t = READ_COMMITTED →
  lock_table_ w !! rid = None →
  let w1 := (LockShared txn rid w).2 in
  let w2 := (Unlock txn rid w1).2 in
  let w3 := (LockExclusive txn rid w2).2 in
  let w4 := (Unlock txn rid w3).2 in
  (LockShared txn rid w).1 = Returned true ∧
  (Unlock txn rid w1).1 = Returned true ∧
  (LockExclusive txn rid w2).1 = Returned true ∧
  (Unlock txn rid w3).1 = Returned true ∧
  lock_table_ w4 !! rid =
    Some (mkRQ [mkReq (txn_id_ t) SHARED true; mkReq (txn_id_ t) EXCLUSIVE false]
               (-1) true false) ∧
  heap w4 !! txn =
    Some (mkTxn (txn_id_ t) GROWING READ_COMMITTED
            ((shared_lock_set_ t ∪ {[rid]}) ∖ {[rid]} ∖ {[rid]})
            ((exclusive_lock_set_ t ∖ {[rid]} ∪ {[rid]}) ∖ {[rid]})).
Proof.
  intros Ht Hst Hiso Hrq w1 w2 w3 w4.
  destruct (LockShared_step w txn t rid Ht) as (Hr1 & Hh1 & Hq1);
    [congruence | done | by rewrite Hrq |].
  rewrite Hrq in Hq1. simpl in Hq1.
  unfold grant_found, rq_find in Hq1. simpl in Hq1.
  rewrite decide_True in Hq1 by done.
  unfold set_granted in Hq1. simpl in Hq1. fold w1 in Hh1, Hq1.
  destruct (Unlock_step w1 txn _ rid _ Hh1 Hq1) as (Hr2 & Hh2 & Hq2).
  unfold rq_remove in Hh2, Hq2. simpl in Hh2, Hq2.
  rewrite decide_True in Hh2, Hq2 by done.
  simpl in Hh2, Hq2. rewrite Hiso in Hh2. simpl in Hh2. fold w2 in Hh2, Hq2.
  destruct (LockExclusive_step w2 txn _ rid Hh2) as (Hr3 & Hh3 & Hq3);
    [done | by rewrite Hq2 | by rewrite Hq2 |].
  rewrite Hq2 in Hq3. simpl in Hq3.
  unfold grant_found, rq_find in Hq3. simpl in Hq3.
  rewrite decide_True in Hq3 by done.
  unfold set_granted in Hq3. simpl in Hq3. fold w3 in Hh3, Hq3.
  destruct (Unlock_step w3 txn _ rid _ Hh3 Hq3) as (Hr4 & Hh4 & Hq4).
  unfold rq_remove in Hh4, Hq4. simpl in Hh4, Hq4.
  rewrite decide_True in Hh4, Hq4 by done.
  simpl in Hh4, Hq4. fold w4 in Hh4, Hq4.
  split; [done|]. split; [done|]. split; [done|]. split; [done|].
  split; [done|]. done.
Qed.

(** C7: on the code the transition follows the mode of the first request of
    the transaction that [remove] finds in the queue, and [remove] erases
    nothing, so that request need not be the lock that is released.  A
    GROWING transaction under READ_COMMITTED locks a free row shared,
    unlocks it and locks it exclusive: it then holds the row exclusively
    and not shared, but [remove] still finds the shared request.  The
    [Unlock] of that exclusive lock returns true and leaves the transaction
    GROWING, where the claim has it SHRINKING.  Without the earlier shared
    lock, the [Unlock] of the exclusive lock does set it to SHRINKING. *)
Theorem Unlock_of_exclusive_lock_stays_growing w txn t rid :
  heap w !! txn = Some t →
  state_ t = GROWING →
  isolation_level_ t = READ_COMMITTED →
  lock_table_ w !! rid = None →
  let w2 := (Unlock txn rid (LockShared txn rid w).2).2 in
  let w3 := (LockExclusive txn rid w2).2 in
  (LockExclusive txn rid w2).1 = Returned true ∧
  (∃ t3, heap w3 !! txn = Some t3 ∧ state_ t3 = GROWING ∧
         isolation_level_ t3 = READ_COMMITTED ∧
         rid ∈ exclusive_lock_set_ t3 ∧ rid ∉ shared_lock_set_ t3) ∧
  (∃ rq3, lock_table_ w3 !! rid = Some rq3 ∧ waiting_ rq3 = true ∧
          refcount_ rq3 = 0 ∧
          lock_mode_ (rq_remove (txn_id_ t) rq3) = SHARED) ∧
  (Unlock txn rid w3).1 = Returned true ∧
  GetState txn (Unlock txn rid w3).2 = Some GROWING ∧
  (LockExclusive txn rid w).1 = Returned true ∧
  GetState txn (Unlock txn rid (LockExclusive txn rid w).2).2 = Some SHRINKING.
Proof.
  intros Ht Hst Hiso Hrq w2 w3.
  destruct (LockShared_step w txn t rid Ht) as (Hr1 & Hh1 & Hq1);
    [congruence | done | by rewrite Hrq |].
  rewrite Hrq in Hq1. simpl in Hq1.
  unfold grant_found, rq_find in Hq1. simpl in Hq1.
  rewrite decide_True in Hq1 by done.
  unfold set_granted in Hq1. simpl in Hq1.
  destruct (Unlock_step _ txn _ rid _ Hh1 Hq1) as (Hr2 & Hh2 & Hq2).
  unfold rq_remove in Hh2, Hq2. simpl in Hh2, Hq2.
  rewrite decide_True in Hh2, Hq2 by done.
  simpl in Hh2, Hq2. rewrite Hiso in Hh2. simpl in Hh2. fold w2 in Hh2, Hq2.
  destruct (LockExclusive_step w2 txn _ rid Hh2) as (Hr3 & Hh3 & Hq3);
    [done | by rewrite Hq2 | by rewrite Hq2 |].
  rewrite Hq2 in Hq3. simpl in Hq3.
  unfold grant_found, rq_find in Hq3. simpl in Hq3.
  rewrite decide_True in Hq3 by done.
  unfold set_granted in Hq3. simpl in Hq3. fold w3 in Hh3, Hq3.
  destruct (Unlock_step w3 txn _ rid _ Hh3 Hq3) as (Hr4 & Hh4 & Hq4).
  unfold rq_remove in Hh4. simpl in Hh4.
  rewrite decide_True in Hh4 by done. simpl in Hh4.
  destruct (LockExclusive_step w txn t rid Ht Hst) as (Hr5 & Hh5 & Hq5);
    [by rewrite Hrq | by rewrite Hrq |].
  rewrite Hrq in Hq5. simpl in Hq5.
  unfold grant_found, rq_find in Hq5. simpl in Hq5.
  rewrite decide_True in Hq5 by done.
  unfold set_granted in Hq5. simpl in Hq5.
  destruct (Unlock_step _ txn _ rid _ Hh5 Hq5) as (Hr6 & Hh6 & _).
  unfold rq_remove in Hh6. simpl in Hh6.
  rewrite decide_True in Hh6 by done. simpl in Hh6.
  split; [exact Hr3|]. split.
  { eexists. split; [exact Hh3|]. simpl.
    split; [done|]. split; [done|]. split.
    - apply elem_of_union_r. by apply elem_of_singleton.
    - rewrite elem_of_difference, elem_of_singleton. by intros [_ Hn]. }
  split.
  { eexists. split; [exact Hq3|]. simpl. repeat split.
    unfold rq_remove. simpl. by rewrite decide_True. }
  split; [exact Hr4|]. split.
  { unfold GetState. by rewrite Hh4. }
  split; [exact Hr5|].
  unfold GetState. by rewrite Hh6.
Qed.

Lemma find_index_alter txn_id f i l :
  (∀ r, req_txn_id_ (f r) = req_txn_id_ r) →
  find_index txn_id (alter f i l) = find_index txn_id l.
Proof.
  intros Hf. revert i. induction l as [|x l IH]; intros i; [done|].
  destruct i as [|i]; simpl.
  - by rewrite Hf.
  - destruct (decide (req_txn_id_ x = txn_id)); [done|].
    f_equal. apply IH.
Qed.

Lemma find_index_lookup txn_id l i :
  find_index txn_id l = Some i → ∃ r, l !! i = Some r ∧ req_txn_id_ r = txn_id.
Proof.
  revert i. induction l as [|x l IH]; intros i; simpl; [done|].
  destruct (decide (req_txn_id_ x = txn_id)).
  - intros [= <-]. by exists x.
  - destruct (find_index txn_id l) as [j|]; simpl; [|done].
    intros [= <-]. by apply IH.
Qed.

(** X24 (src/concurrency/lock_manager.cpp, LockUpgrade, Prevent,
    LockRequestQueue::find): upgrading a shared lock.  A GROWING
    transaction whose request is in the queue, with no upgrade pending and
    no exclusive holder: if it is the only shared holder, LockUpgrade
    returns true, its request becomes an exclusive granted one, refcount_
    is 0, waiting_ is set and the row moves from its shared to its
    exclusive lock set.  If other shared holders remain and the
    transaction has no other request in the queue, the call is suspended
    with upgrading_ set, and from then on LockUpgrade of any transaction
    that is not SHRINKING throws UPGRADE_CONFLICT. *)
Theorem LockUpgrade_sole_holder_or_wait w txn t rid rq i :
  heap w !! txn = Some t →
  state_ t = GROWING →
  lock_table_ w !! rid = Some rq →
  upgrading_ rq = false →
  waiting_ rq = false →
  rq_find (txn_id_ t) rq = Some i →
  (refcount_ rq = 1 →
   (LockUpgrade txn rid w).1 = Returned true ∧
   lock_table_ (LockUpgrade txn rid w).2 !! rid =
     Some (mkRQ (alter (λ r, mkReq (req_txn_id_ r) EXCLUSIVE true) i
                   (request_queue_ rq)) 0 true false) ∧
   heap (LockUpgrade txn rid w).2 !! txn =
     Some (mkTxn (txn_id_ t) GROWING (isolation_level_ t)
             (shared_lock_set_ t ∖ {[rid]}) (exclusive_lock_set_ t ∪ {[rid]}))) ∧
  (1 < refcount_ rq →
   (∀ j r, request_queue_ rq !! j = Some r → req_txn_id_ r = txn_id_ t → j = i) →
   (LockUpgrade txn rid w).1 = Blocked ∧
   (∃ rq', lock_table_ (LockUpgrade txn rid w).2 !! rid = Some rq' ∧
           upgrading_ rq' = true ∧ refcount_ rq' = refcount_ rq - 1) ∧
   ∀ txn2 t2, heap (LockUpgrade txn rid w).2 !! txn2 = Some t2 →
     state_ t2 ≠ SHRINKING →
     (LockUpgrade txn2 rid (LockUpgrade txn rid w).2).1 =
       Thrown (txn_id_ t2) UPGRADE_CONFLICT).
Proof.
  intros Ht Hst Hrq Hup Hw Hfind.
  destruct rq as [l c wt up]. simpl in *. subst up wt.
  unfold rq_find in Hfind. simpl in Hfind.
  assert (Hfind' : ∀ f, (∀ r, req_txn_id_ (f r) = req_txn_id_ r) →
            find_index (txn_id_ t) (alter f i l) = Some i).
  { intros f Hf. by rewrite find_index_alter. }
  assert (Hna : ∀ w', heap w' !! txn = heap (upd_lock_sets txn (λ s, s ∖ {[rid]}) id w) !! txn →
            is_aborted txn w' = false).
  { intros w' Hh. unfold is_aborted, GetState. rewrite Hh. simpl.
    rewrite lookup_alter_eq, Ht. simpl. rewrite Hst.
    by apply bool_decide_eq_false_2. }
  split.
  - intros ->. unfold LockUpgrade. rewrite Ht.
    rewrite decide_False by congruence. rewrite Hrq. simpl.
    unfold rq_find. simpl. rewrite Hfind. simpl.
    unfold LockUpgrade_grant. rewrite Hna by done.
    unfold rq_find. simpl. rewrite Hfind' by done. simpl.
    split; [done|]. split.
    + rewrite lookup_insert_eq. unfold set_granted. simpl. f_equal. f_equal.
      by rewrite list_alter_alter_eq.
    + rewrite !lookup_alter_eq, Ht. simpl. by rewrite Hst.
  - intros Hc Honly.
    assert (Hlu : LockUpgrade txn rid w =
      (Blocked,
       set_rq rid
         (set_upgrading true
            (mkRQ (alter (λ r, mkReq (req_txn_id_ r) EXCLUSIVE false) i l)
                  (c - 1) false false))
         (upd_lock_sets txn (λ s, s ∖ {[rid]}) id w))).
    { unfold LockUpgrade. rewrite Ht.
      rewrite decide_False by congruence. rewrite Hrq. simpl.
      unfold rq_find. simpl. rewrite Hfind. simpl.
      rewrite bool_decide_eq_true_2 by lia.
      unfold Prevent. simpl.
      rewrite Prevent_loop_only_self.
      - unfold LockUpgrade_wait. rewrite Hna by done. simpl.
        by rewrite bool_decide_eq_false_2 by lia.
      - intros r Hr Hg Hid.
        apply list_elem_of_lookup in Hr as [j Hj].
        destruct (decide (j = i)) as [->|Hne].
        + rewrite list_lookup_alter_eq in Hj.
          destruct (l !! i); simpl in Hj; [|done].
          injection Hj as <-. done.
        + rewrite list_lookup_alter_ne in Hj by done.
          by apply Hne, (Honly j r). }
    rewrite Hlu. simpl. split; [done|]. split.
    + eexists. split; [apply lookup_insert_eq|]. done.
    + intros txn2 t2 Ht2 Hs2. unfold LockUpgrade. simpl. rewrite Ht2.
      rewrite decide_False by done. by rewrite lookup_insert_eq.
Qed.

End LockSpec.

Section LockExamples.
Import LM.

Lemma lock_then_unlock_restores_counters_witness :
  ((LockShared 102 r0 world_T1_released_T2_idle).1 = Returned true ∧
   (Unlock 102 r0 (LockShared 102 r0 world_T1_released_T2_idle).2).1 =
     Returned true ∧
   lock_table_ (Unlock 102 r0 (LockShared 102 r0 world_T1_released_T2_idle).2).2
     !! r0 =
     Some (mkRQ (request_queue_ (mkRQ [mkReq 1 SHARED true] 0 false false) ++
                 [mkReq (txn_id_ (fresh_txn 2 REPEATABLE_READ)) SHARED true])
                (refcount_ (mkRQ [mkReq 1 SHARED true] 0 false false)) false
                (upgrading_ (mkRQ [mkReq 1 SHARED true] 0 false false))) ∧
   heap (Unlock 102 r0 (LockShared 102 r0 world_T1_released_T2_idle).2).2
     !! 102 =
     Some (mkTxn (txn_id_ (fresh_txn 2 REPEATABLE_READ))
             (if decide (isolation_level_ (fresh_txn 2 REPEATABLE_READ)
                         = READ_COMMITTED)
              then GROWING else SHRINKING)
             (isolation_level_ (fresh_txn 2 REPEATABLE_READ))
             ((shared_lock_set_ (fresh_txn 2 REPEATABLE_READ) ∪ {[r0]}) ∖ {[r0]})
             (exclusive_lock_set_ (fresh_txn 2 REPEATABLE_READ) ∖ {[r0]}))) ∧
  ((LockExclusive 102 r0 world_T1_released_T2_idle).1 = Returned true ∧
   (Unlock 102 r0 (LockExclusive 102 r0 world_T1_released_T2_idle).2).1 =
     Returned true ∧
   lock_table_
     (Unlock 102 r0 (LockExclusive 102 r0 world_T1_released_T2_idle).2).2
     !! r0 =
     Some (mkRQ (request_queue_ (mkRQ [mkReq 1 SHARED true] 0 false false) ++
                 [mkReq (txn_id_ (fresh_txn 2 REPEATABLE_READ)) EXCLUSIVE true])
                0 false
                (upgrading_ (mkRQ [mkReq 1 SHARED true] 0 false false))) ∧
   heap (Unlock 102 r0 (LockExclusive 102 r0 world_T1_released_T2_idle).2).2
     !! 102 =
     Some (mkTxn (txn_id_ (fresh_txn 2 REPEATABLE_READ)) SHRINKING
             (isolation_level_ (fresh_txn 2 REPEATABLE_READ))
             (shared_lock_set_ (fresh_txn 2 REPEATABLE_READ) ∖ {[r0]})
             ((exclusive_lock_set_ (fresh_txn 2 REPEATABLE_READ) ∪ {[r0]})
                ∖ {[r0]}))).
Proof.
  assert (Ht : heap world_T1_released_T2_idle !! 102 =
               Some (fresh_txn 2 REPEATABLE_READ))
    by (vm_compute; reflexivity).
  assert (Hrq : lock_table_ world_T1_released_T2_idle !! r0 =
                Some (mkRQ [mkReq 1 SHARED true] 0 false false))
    by (vm_compute; reflexivity).
  assert (Hf : rq_find (txn_id_ (fresh_txn 2 REPEATABLE_READ))
                 (mkRQ [mkReq 1 SHARED true] 0 false false) = None)
    by (vm_compute; reflexivity).
  assert (Hiso : isolation_level_ (fresh_txn 2 REPEATABLE_READ) ≠ READ_UNCOMMITTED)
    by (simpl; discriminate).
  split.
  - exact (proj1 (lock_then_unlock_restores_counters world_T1_released_T2_idle
                    102 (fresh_txn 2 REPEATABLE_READ) r0
                    (mkRQ [mkReq 1 SHARED true] 0 false false)
                    Ht eq_refl Hrq Hf eq_refl) Hiso).
  - exact (proj2 (lock_then_unlock_restores_counters world_T1_released_T2_idle
                    102 (fresh_txn 2 REPEATABLE_READ) r0
                    (mkRQ [mkReq 1 SHARED true] 0 false false)
                    Ht eq_refl Hrq Hf eq_refl) eq_refl).
Defined.

Lemma stale_request_leaves_row_locked_witness :
  (LockShared 101 r0 (world_of [fresh_txn 1 READ_COMMITTED])).1 = Returned true ∧
  (Unlock 101 r0 (LockShared 101 r0 (world_of [fresh_txn 1 READ_COMMITTED])).2).1
    = Returned true ∧
  (LockExclusive 101 r0
     (Unlock 101 r0
        (LockShared 101 r0 (world_of [fresh_txn 1 READ_COMMITTED])).2).2).1
    = Returned true ∧
  (Unlock 101 r0
     (LockExclusive 101 r0
        (Unlock 101 r0
           (LockShared 101 r0 (world_of [fresh_txn 1 READ_COMMITTED])).2).2).2).1
    = Returned true ∧
  lock_table_
    (Unlock 101 r0
       (LockExclusive 101 r0
          (Unlock 101 r0
             (LockShared 101 r0 (world_of [fresh_txn 1 READ_COMMITTED])).2).2).2).2
    !! r0 =
    Some (mkRQ [mkReq (txn_id_ (fresh_txn 1 READ_COMMITTED)) SHARED true;
                mkReq (txn_id_ (fresh_txn 1 READ_COMMITTED)) EXCLUSIVE false]
               (-1) true false) ∧
  heap
    (Unlock 101 r0
       (LockExclusive 101 r0
          (Unlock 101 r0
             (LockShared 101 r0 (world_of [fresh_txn 1 READ_COMMITTED])).2).2).2).2
    !! 101 =
    Some (mkTxn (txn_id_ (fresh_txn 1 READ_COMMITTED)) GROWING READ_COMMITTED
            ((shared_lock_set_ (fresh_txn 1 READ_COMMITTED) ∪ {[r0]})
               ∖ {[r0]} ∖ {[r0]})
            ((exclusive_lock_set_ (fresh_txn 1 READ_COMMITTED) ∖ {[r0]} ∪ {[r0]})
               ∖ {[r0]})).
Proof.
  assert (Ht : heap (world_of [fresh_txn 1 READ_COMMITTED]) !! 101 =
               Some (fresh_txn 1 READ_COMMITTED))
    by (vm_compute; reflexivity).
  assert (Hrq : lock_table_ (world_of [fresh_txn 1 READ_COMMITTED]) !! r0 = None)
    by (vm_compute; reflexivity).
  exact (stale_request_leaves_row_locked (world_of [fresh_txn 1 READ_COMMITTED])
           101 (fresh_txn 1 READ_COMMITTED) r0 Ht eq_refl eq_refl Hrq).
Defined.

Lemma Unlock_of_exclusive_lock_stays_growing_witness :
  (LockExclusive 101 r0 world_T1_rc_released).1 = Returned true ∧
  (∃ t3, heap (LockExclusive 101 r0 world_T1_rc_released).2 !! 101 = Some t3 ∧
         state_ t3 = GROWING ∧ isolation_level_ t3 = READ_COMMITTED ∧
         r0 ∈ exclusive_lock_set_ t3 ∧ r0 ∉ shared_lock_set_ t3) ∧
  (∃ rq3, lock_table_ (LockExclusive 101 r0 world_T1_rc_released).2 !! r0
            = Some rq3 ∧
          waiting_ rq3 = true ∧ refcount_ rq3 = 0 ∧
          lock_mode_ (rq_remove (txn_id_ (fresh_txn 1 READ_COMMITTED)) rq3)
            = SHARED) ∧
  (Unlock 101 r0 (LockExclusive 101 r0 world_T1_rc_released).2).1
    = Returned true ∧
  GetState 101 (Unlock 101 r0 (LockExclusive 101 r0 world_T1_rc_released).2).2
    = Some GROWING ∧
  (LockExclusive 101 r0 (world_of [fresh_txn 1 READ_COMMITTED])).1
    = Returned true ∧
  GetState 101
    (Unlock 101 r0
       (LockExclusive 101 r0 (world_of [fresh_txn 1 READ_COMMITTED])).2).2
    = Some SHRINKING.
Proof.
  assert (Ht : heap (world_of [fresh_txn 1 READ_COMMITTED]) !! 101 =
               Some (fresh_txn 1 READ_COMMITTED))
    by (vm_compute; reflexivity).
  assert (Hrq : lock_table_ (world_of [fresh_txn 1 READ_COMMITTED]) !! r0 = None)
    by (vm_compute; reflexivity).
  exact (Unlock_of_exclusive_lock_stays_growing
           (world_of [fresh_txn 1 READ_COMMITTED])
           101 (fresh_txn 1 READ_COMMITTED) r0 Ht eq_refl eq_refl Hrq).
Defined.

Lemma LockUpgrade_sole_holder_or_wait_witness :
  (LockUpgrade 101 r0 world_T1_shared_T2_idle).1 = Returned true ∧
  lock_table_ (LockUpgrade 101 r0 world_T1_shared_T2_idle).2 !! r0 =
    Some (mkRQ (alter (λ r, mkReq (req_txn_id_ r) EXCLUSIVE true) 0%nat
                  (request_queue_ (mkRQ [mkReq 1 SHARED true] 1 false false)))
               0 true false) ∧
  heap (LockUpgrade 101 r0 world_T1_shared_T2_idle).2 !! 101 =
    Some (mkTxn (txn_id_ (mkTxn 1 GROWING REPEATABLE_READ {[r0]} ∅)) GROWING
            (isolation_level_ (mkTxn 1 GROWING REPEATABLE_READ {[r0]} ∅))
            (shared_lock_set_ (mkTxn 1 GROWING REPEATABLE_READ {[r0]} ∅) ∖ {[r0]})
            (exclusive_lock_set_ (mkTxn 1 GROWING REPEATABLE_READ {[r0]} ∅)
               ∪ {[r0]})).
Proof.
  assert (Ht : heap world_T1_shared_T2_idle !! 101 =
               Some (mkTxn 1 GROWING REPEATABLE_READ {[r0]} ∅))
    by (vm_compute; reflexivity).
  assert (Hrq : lock_table_ world_T1_shared_T2_idle !! r0 =
                Some (mkRQ [mkReq 1 SHARED true] 1 false false))
    by (vm_compute; reflexivity).
  assert (Hf : rq_find (txn_id_ (mkTxn 1 GROWING REPEATABLE_READ {[r0]} ∅))
                 (mkRQ [mkReq 1 SHARED true] 1 false false) = Some 0%nat)
    by (vm_compute; reflexivity).
  exact (proj1 (LockUpgrade_sole_holder_or_wait world_T1_shared_T2_idle 101
                  (mkTxn 1 GROWING REPEATABLE_READ {[r0]} ∅) r0
                  (mkRQ [mkReq 1 SHARED true] 1 false false) 0
                  Ht eq_refl Hrq eq_refl eq_refl Hf) eq_refl).
Defined.

End LockExamples.
